(** * A recommendation loop over a similarity network

    Shallow embedding of the TypeScript sources and the properties proved
    about them:
    - [Matrix]: matrix.ts, in the version whose [assert] is imported from
      "console" ([isRectangular], [vectorDist], [vectorMean], [matVecMul],
      [twoDimReduce], [twoDimArray], [isEqual]);
    - [RatedNetwork]: rated-network.ts, in the version whose constructor
      takes the similarity matrix and optional bounds;
    - [getRecommendationVector], [GreedyRecommendationAlgorithm],
      [ProbabilisticRecommendationAlgorithm]: recommendation-algorithm.ts;
    - [ProfileLearner], [AverageLearner], [KMeansLearner]: profile-learner.ts.
    rating.ts and user-profile.ts are not among the sources: a rating is
    taken to be a number or [null], and a user profile is represented by the
    similarity matrix it wraps.

    Numbers.  A JavaScript [number] is an IEEE 754 binary64 value.  The
    model has the finite ones, each as the rational it denotes ([Q]); [===],
    [<] and [>] compare them exactly, as the program does.  An arithmetic
    operation returns the exact result rounded to the nearest binary64
    number, ties to even, with gradual underflow ([round64]); [Math.sqrt]
    returns the correctly rounded root ([sqrt64]); [x ** 2] is taken to be
    the rounded product of [x] with itself.  [Math.floor] and [Math.ceil]
    are exact; the product under the [Math.floor] of a random draw, in
    [randomRatings] and [getRndIdx], is left unrounded (of these draws only
    the range is used).  Infinity, NaN and the sign of zero are outside the
    model: arithmetic on [undefined] and a division by zero stop with
    [Unmodelled], and a result beyond the largest binary64 number is not
    turned into Infinity (the theorems whose truth depends on it bound the
    magnitude of their inputs).

    Objects.  Arrays and objects that the program shares or mutates live in a
    store of cells addressed by location; allocation appends a cell, so a
    location is an index in the store.  Arrays that a function builds and
    consumes itself are plain lists.

    Effects.  A computation threads the store, the lines written to the
    console and the values drawn from [Math.random], and ends with a result,
    a thrown exception, or outside the model. *)

From Stdlib Require Import QArith Qround Qabs Qpower Qfield Lqa.
From stdpp Require Import base list strings.

(* ===================================================================== *)
(** * Values *)
(* ===================================================================== *)

(** [Rating]: a star rating or [null] (unrated). *)
Abbreviation Rating := (option Q) (only parsing).

(** A JavaScript value as it occurs as an array element in this program. *)
Inductive jsval : Type :=
| Undefined
| Null
| Num (q : Q).

Definition ratingVal (r : Rating) : jsval :=
  match r with
  | None => Null
  | Some q => Num q
  end.

(** [a === b] *)
Definition strict_eq (a b : jsval) : bool :=
  match a, b with
  | Undefined, Undefined => true
  | Null, Null => true
  | Num p, Num q => Qeq_bool p q
  | _, _ => false
  end.

(** ToNumber, as applied by [-], [*], [/] and [<]: [null] is [0],
    [undefined] is NaN (here [None]). *)
Definition toNumber (v : jsval) : option Q :=
  match v with
  | Undefined => None
  | Null => Some 0%Q
  | Num q => Some q
  end.

(** [a < b] and [a > b] on numbers. *)
Definition Qlt_bool (a b : Q) : bool := negb (Qle_bool b a).
Definition Qgt_bool (a b : Q) : bool := Qlt_bool b a.

(** ** binary64 arithmetic *)

(** The integer part of the binary logarithm of a positive rational. *)
Definition Qlog2 (q : Q) : Z :=
  let k := (Z.log2 (Qnum q) - Z.log2 (Zpos (Qden q)))%Z in
  if Qle_bool (Qpower 2 k) q then k else (k - 1)%Z.

(** The nearest integer, the even one of two equally near. *)
Definition roundHalfEven (s : Q) : Z :=
  let f := Qfloor s in
  match (s - inject_Z f ?= 1 # 2)%Q with
  | Lt => f
  | Gt => (f + 1)%Z
  | Eq => if Z.even f then f else (f + 1)%Z
  end.

(** A positive rational rounded to 53 significant bits, or to a multiple of
    [2^-1074] where that is coarser (subnormal numbers). *)
Definition roundPos (q : Q) : Q :=
  let e := Z.max (Qlog2 q - 52) (-1074) in
  Qred (inject_Z (roundHalfEven (q / Qpower 2 e)) * Qpower 2 e).

(** The binary64 number nearest to [q]. *)
Definition round64 (q : Q) : Q :=
  let q := Qred q in
  match Qnum q with
  | Z0 => 0
  | Zpos _ => roundPos q
  | Zneg _ => - roundPos (- q)
  end.

(** The binary64 number nearest to the square root of [q], for [q >= 0]
    (the program takes the root of sums of squares only). *)
Definition sqrt64 (q : Q) : Q :=
  let q := Qred q in
  match Qnum q with
  | Zpos _ =>
      let e := Z.max (Qlog2 q / 2 - 52) (-1074) in
      let t := (q / Qpower 2 (2 * e))%Q in
      let r := Z.sqrt (Qfloor t) in
      let half := (inject_Z r + (1 # 2))%Q in
      let m := match (t ?= half * half)%Q with
               | Lt => r
               | Gt => (r + 1)%Z
               | Eq => if Z.even r then r else (r + 1)%Z
               end in
      Qred (inject_Z m * Qpower 2 e)
  | _ => 0
  end.

Arguments round64 : simpl never.
Arguments sqrt64 : simpl never.

(** [a + b], [a - b], [a * b], [a / b] (for [b] other than zero) and
    [a ** 2] on numbers. *)
Definition add64 (a b : Q) : Q := round64 (a + b).
Definition sub64 (a b : Q) : Q := round64 (a - b).
Definition mul64 (a b : Q) : Q := round64 (a * b).
Definition div64 (a b : Q) : Q := round64 (a / b).
Definition sqr64 (a : Q) : Q := round64 (a * a).

(** The result of [Math.sqrt] is represented by the argument of the call;
    the number it denotes is [Root_value], and that is what [<] compares. *)
Record Root : Type := Math_sqrt { radicand : Q }.

Definition Root_value (d : Root) : Q := sqrt64 (radicand d).

Definition Root_lt_bool (d1 d2 : Root) : bool :=
  Qlt_bool (Root_value d1) (Root_value d2).

(* ===================================================================== *)
(** * Store, console and exceptions *)
(* ===================================================================== *)

Abbreviation loc := nat (only parsing).

(** Fields of a [RatedNetwork] object. *)
Record RatedNetworkObj : Type := mkRatedNetwork {
  nNodes : nat;
  network : loc;
  ratings : loc;
  lower : Q;
  upper : Q
}.

Inductive cell : Type :=
| CRatings (rs : list Rating)      (* a Rating[] *)
| CNums (v : list Q)               (* a number[] *)
| CMatrix (m : list (list Q))      (* a number[][] *)
| CNet (o : RatedNetworkObj)       (* a RatedNetwork *)
| CUser (ratedNetwork : loc).      (* a User *)

Record state : Type := mkState {
  heap : list cell;
  console : list string;     (* lines written by console.assert, oldest first *)
  tape : nat -> Q;           (* the values Math.random() returns, in order *)
  drawn : nat                (* how many of them were consumed *)
}.

Inductive exn : Type :=
| AssertionError (msg : string)
| TypeError (msg : string)
| Error (msg : string).

Inductive failure : Type :=
| Thrown (e : exn)
| Unmodelled (why : string)
| OutOfFuel.

Inductive outcome (A : Type) : Type :=
| Ok (a : A)
| Fail (f : failure).
Arguments Ok {A} a.
Arguments Fail {A} f.

Definition M (A : Type) : Type := state -> outcome A * state.

#[global] Instance M_ret : MRet M := fun A a s => (Ok a, s).

#[global] Instance M_bind : MBind M := fun A B f m s =>
  match m s with
  | (Ok a, s') => f a s'
  | (Fail e, s') => (Fail e, s')
  end.

Definition fail {A} (f : failure) : M A := fun s => (Fail f, s).
Definition throw {A} (e : exn) : M A := fail (Thrown e).
Definition unmodelled {A} (why : string) : M A := fail (Unmodelled why).

Definition fromOption {A} (why : string) (o : option A) : M A :=
  match o with
  | Some a => mret a
  | None => unmodelled why
  end.

Definition set_heap (h : list cell) (s : state) : state :=
  mkState h (console s) (tape s) (drawn s).

Definition alloc (c : cell) : M loc := fun s =>
  (Ok (length (heap s)), set_heap (heap s ++ [c]) s).

Definition load (l : loc) : M cell := fun s =>
  match heap s !! l with
  | Some c => (Ok c, s)
  | None => (Fail (Unmodelled "dangling reference"), s)
  end.

Definition store (l : loc) (c : cell) : M unit := fun s =>
  if decide (l < length (heap s))
  then (Ok tt, set_heap (<[l:=c]> (heap s)) s)
  else (Fail (Unmodelled "dangling reference"), s).

Definition loadRatings (l : loc) : M (list Rating) :=
  c ← load l;
  match c with CRatings rs => mret rs | _ => unmodelled "not a Rating[]" end.

Definition loadNums (l : loc) : M (list Q) :=
  c ← load l;
  match c with CNums v => mret v | _ => unmodelled "not a number[]" end.

Definition loadMatrix (l : loc) : M (list (list Q)) :=
  c ← load l;
  match c with CMatrix m => mret m | _ => unmodelled "not a number[][]" end.

Definition loadNet (l : loc) : M RatedNetworkObj :=
  c ← load l;
  match c with CNet o => mret o | _ => unmodelled "not a RatedNetwork" end.

Definition loadUser (l : loc) : M loc :=
  c ← load l;
  match c with CUser rn => mret rn | _ => unmodelled "not a User" end.

(** [console.assert(b, msg)]: writes a line when [b] is false, never throws. *)
Definition console_assert (b : bool) (msg : string) : M unit := fun s =>
  if b then (Ok tt, s)
  else (Ok tt, mkState (heap s) (console s ++ [("Assertion failed: " +:+ msg)%string])
                       (tape s) (drawn s)).

(** [assert(b, msg)] of the [assert] module: throws when [b] is false. *)
Definition assert (b : bool) (msg : string) : M unit :=
  if b then mret tt else throw (AssertionError msg).

(** [Math.random()] *)
Definition Math_random : M Q := fun s =>
  (Ok (tape s (drawn s)), mkState (heap s) (console s) (tape s) (S (drawn s))).

(** [Math.floor] and [Math.ceil] *)
Definition Math_floor (q : Q) : Q := inject_Z (Qfloor q).
Definition Math_ceil (q : Q) : Q := inject_Z (Qceiling q).

(* ===================================================================== *)
(** * Array methods *)
(* ===================================================================== *)

(** [a.reduce(f)] without initial value: throws on an empty array. *)
Definition reduce {A} (f : A -> A -> A) (a : list A) : M A :=
  match a with
  | [] => throw (TypeError "Reduce of empty array with no initial value")
  | x :: a' => mret (fold_left f a' x)
  end.

(** [Array.from(a.entries())] *)
Definition entries {A} (a : list A) : list (nat * A) :=
  imap (fun i x => (i, x)) a.

(** [a.every(p)] *)
Definition every {A} (p : A -> bool) (a : list A) : bool := forallb p a.

(** [a.forEach((x, i) => f x i)], started at index [i]. *)
Fixpoint forEach_from {A} (f : A -> nat -> M unit) (i : nat) (a : list A) : M unit :=
  match a with
  | [] => mret tt
  | x :: a' => _ ← f x i; forEach_from f (S i) a'
  end.

Definition forEach {A} (f : A -> nat -> M unit) (a : list A) : M unit :=
  forEach_from f 0 a.

(** [a[i] = x] on an array without holes: overwrites in range, appends at
    [i = a.length]; beyond that JavaScript leaves holes, which the model does
    not represent ([None]). *)
Definition array_set {A} (a : list A) (i : nat) (x : A) : option (list A) :=
  if decide (i < length a) then Some (<[i:=x]> a)
  else if decide (i = length a) then Some (a ++ [x])
  else None.

(** [(e1, e2) => f(e1, e2) ? e1 : e2] *)
Definition pick {A} (f : A -> A -> bool) (e1 e2 : A) : A :=
  if f e1 e2 then e1 else e2.

(* ===================================================================== *)
(** * matrix.ts *)
(* ===================================================================== *)

Module Matrix.

Definition isRectangular {A} (matrix : list (list A)) : bool :=
  let matrixDim := map length matrix in
  every (fun dim => Nat.eqb dim (hd 0 matrixDim)) matrixDim.

Definition range (n : nat) : list nat := seq 0 n.

(** Loop of [vectorDist]: [distSq += (v1[i] - v2[i])**2] for [i < v1.length];
    [v2] is passed from index [i] on.  [None] is NaN. *)
Fixpoint sumSquares (v1 v2 : list jsval) (distSq : Q) : option Q :=
  match v1 with
  | [] => Some distSq
  | x :: v1' =>
      a ← toNumber x;
      b ← toNumber (hd Undefined v2);
      sumSquares v1' (tl v2) (add64 distSq (sqr64 (sub64 a b)))
  end.

Definition vectorDist (v1 v2 : list jsval) : M Root :=
  _ ← console_assert (Nat.eqb (length v1) (length v2))
        "v1 and v2 must be the same length";
  distSq ← fromOption "NaN" (sumSquares v1 v2 0%Q);
  mret (Math_sqrt distSq).

(** [vector.forEach((v,i) => vectorMean[i] += v/n)]; [vectorMean] is passed
    from index [i] on.  Reading [vectorMean[i]] past its end gives NaN. *)
Fixpoint addScaled (vectorMean : list Q) (vector : list jsval) (n : Q)
  : option (list Q) :=
  match vector, vectorMean with
  | [], _ => Some vectorMean
  | v :: vector', m :: vectorMean' =>
      x ← toNumber v;
      rest ← addScaled vectorMean' vector' n;
      Some (add64 m (div64 x n) :: rest)
  | _ :: _, [] => None
  end.

Fixpoint addAll (vectorMean : list Q) (vectors : list (list jsval)) (n : Q)
  : option (list Q) :=
  match vectors with
  | [] => Some vectorMean
  | vector :: vectors' =>
      vectorMean' ← addScaled vectorMean vector n;
      addAll vectorMean' vectors' n
  end.

Definition vectorMean (vectors : list (list jsval)) : M (list Q) :=
  _ ← console_assert (isRectangular vectors)
        "Vectors must all have the same length!";
  match vectors with
  | [] => throw (TypeError "Cannot read properties of undefined (reading 'length')")
  | first :: _ =>
      let vectorMean := replicate (length first) 0%Q in
      fromOption "NaN"
        (addAll vectorMean vectors (inject_Z (Z.of_nat (length vectors))))
  end.

(** Loop of [matVecMul]: [sum += row[i]*vector[i]] for [i < row.length]. *)
Fixpoint rowTimes (row vector : list Q) (sum : Q) : option Q :=
  match row, vector with
  | [], _ => Some sum
  | r :: row', v :: vector' => rowTimes row' vector' (add64 sum (mul64 r v))
  | _ :: _, [] => None
  end.

Definition matVecMul (matrix : list (list Q)) (vector : list Q) : M (list Q) :=
  _ ← console_assert (isRectangular matrix) "Matrix must be rectangular!";
  match matrix with
  | [] => throw (TypeError "Cannot read properties of undefined (reading 'length')")
  | row0 :: _ =>
      _ ← console_assert (Nat.eqb (length row0) (length vector))
            "Vector must be the same length as the 2nd dimension of matrix";
      fromOption "NaN" (mapM (fun row => rowTimes row vector 0%Q) matrix)
  end.

Definition twoDimReduce (matrix : list (list Q)) (f : Q -> Q -> bool) : M Q :=
  rows ← mapM (fun row => reduce (pick f) row) matrix;
  reduce (pick f) rows.

Definition twoDimArray {A} (n m : nat) (def : A) : list (list A) :=
  replicate n (replicate m def).

(** Inner loop of [isEqual] on row [i]: no [j < m1[i].length] has
    [m1[i][j] !== m2[i][j]]; a read past the end of [m2[i]] is [undefined]. *)
Fixpoint rowEqual (r1 r2 : list jsval) : bool :=
  match r1 with
  | [] => true
  | x :: r1' => strict_eq x (hd Undefined r2) && rowEqual r1' (tl r2)
  end.

(** Outer loop of [isEqual]; [m2] is passed from row [i] on.  When [m1[i]]
    is not empty and [m2] has no row [i], reading [m2[i][0]] throws. *)
Fixpoint rowsEqual (m1 m2 : list (list jsval)) : M bool :=
  match m1 with
  | [] => mret true
  | r1 :: m1' =>
      match r1, m2 with
      | _ :: _, [] =>
          throw (TypeError "Cannot read properties of undefined (reading '0')")
      | _, _ =>
          if rowEqual r1 (hd [] m2) then rowsEqual m1' (tl m2) else mret false
      end
  end.

Definition isEqual (m1 m2 : list (list jsval)) : M bool :=
  _ ← console_assert (Nat.eqb (length m1) (length m2))
        "m1 and m2 should have the same length";
  (* [v.length=m2[i].length] is an assignment; its value is the row length *)
  _ ← console_assert (every (fun v => negb (Nat.eqb (length v) 0)) m2)
        "m1 and m2 should have same 2nd dimension";
  rowsEqual m1 m2.

End Matrix.

(* ===================================================================== *)
(** * rated-network.ts *)
(* ===================================================================== *)

Module RatedNetwork.

(** [new RatedNetwork(network, ratings, lower, upper)]; an omitted bound is
    [None].  The object keeps the two arrays it was given. *)
Definition constructor (network ratings : loc) (lower upper : option Q) : M loc :=
  net ← loadMatrix network;
  rs ← loadRatings ratings;
  let nRows := length net in
  let nCols := map length net in
  let sameColLengths := every (fun colLength => Nat.eqb colLength (hd 0 nCols)) nCols in
  _ ← assert sameColLengths "Ragged columns!";
  _ ← assert (match nCols with [] => false | c :: _ => Nat.eqb c nRows end)
        "Adjacency matrix has invalid shape";
  _ ← assert (Nat.eqb (length rs) nRows)
        "rating and network must have compatible size";
  lower ← match lower with
           | Some l => mret l
           | None => m ← Matrix.twoDimReduce net Qlt_bool; mret (Math_floor m)
           end;
  upper ← match upper with
           | Some u => mret u
           | None => m ← Matrix.twoDimReduce net Qgt_bool; mret (Math_ceil m)
           end;
  _ ← assert (Qlt_bool lower upper) "lower must be smaller than upper";
  alloc (CNet (mkRatedNetwork nRows network ratings lower upper)).

Definition hasRating (this : loc) : M bool :=
  o ← loadNet this;
  rs ← loadRatings (ratings o);
  mret (negb (every (fun r => bool_decide (r = None)) rs)).

Definition hasUnrated (this : loc) : M bool :=
  o ← loadNet this;
  rs ← loadRatings (ratings o);
  mret (negb (every (fun r => bool_decide (r ≠ None)) rs)).

(** [addRating(nodeIndex, rating)], for an integral [nodeIndex]. *)
Definition addRating (this : loc) (nodeIndex : Z) (rating : Rating) : M unit :=
  o ← loadNet this;
  _ ← assert (Z.leb 0 nodeIndex && Z.ltb nodeIndex (Z.of_nat (nNodes o)))
        "nodeIndex must be between 0 and nNodes";
  rs ← loadRatings (ratings o);
  rs' ← fromOption "array with holes" (array_set rs (Z.to_nat nodeIndex) rating);
  store (ratings o) (CRatings rs').

End RatedNetwork.

(* ===================================================================== *)
(** * recommendation-algorithm.ts *)
(* ===================================================================== *)

(** The private fields of a [RecommendationAlgorithm]. *)
Record RecommendationAlgorithm : Type := mkAlgorithm {
  ratingRescaleFactor : Q;
  unratedStarRating : Q
}.

Definition ratingRescaleFactorDefault : Q := 5 # 2.
Definition unratedStarRatingDefault : Q := 5 # 2.

Definition defaultAlgorithm : RecommendationAlgorithm :=
  mkAlgorithm ratingRescaleFactorDefault unratedStarRatingDefault.

(** lodash's [cloneDeep] on a [RatedNetwork]: fresh copies of the matrix, of
    the rating array and of the object that holds them. *)
Definition cloneDeep (rnet : loc) : M loc :=
  o ← loadNet rnet;
  net ← loadMatrix (network o);
  rs ← loadRatings (ratings o);
  net' ← alloc (CMatrix net);
  rs' ← alloc (CRatings rs);
  alloc (CNet (mkRatedNetwork (nNodes o) net' rs' (lower o) (upper o))).

(** [recommendVector[i] = x] *)
Definition writeNum (recommendVector : loc) (i : nat) (x : Q) : M unit :=
  v ← loadNums recommendVector;
  v' ← fromOption "array with holes" (array_set v i x);
  store recommendVector (CNums v').

(** Returns the location of the freshly built recommendation vector.  The
    similarity matrix of the network ([rnet.profile.similarityNetwork],
    [rnet.network] in the earlier version) is the field [network]. *)
Definition getRecommendationVector (this : RecommendationAlgorithm) (_rnet : loc)
  : M loc :=
  rnet ← cloneDeep _rnet;
  o ← loadNet rnet;
  let networkRescaleFactor := div64 (sub64 (upper o) (lower o)) 2 in
  rescaledNetwork ← loadMatrix (network o);
  let rescaledNetwork :=
    map (fun row => map (fun elem => sub64 elem networkRescaleFactor) row)
        rescaledNetwork in
  rs ← loadRatings (ratings o);
  let rescaledRatings :=
    map (fun e : Rating =>
           match e with None => unratedStarRating this | Some q => q end) rs in
  let rescaledRatings :=
    map (fun e => sub64 e (ratingRescaleFactor this)) rescaledRatings in
  recommendVector ← Matrix.matVecMul rescaledNetwork rescaledRatings;
  alloc (CNums recommendVector).

Module GreedyRecommendationAlgorithm.

(** [([i1, e1], [i2, e2]) => (e1 > e2) ? [i1, e1] : [i2, e2]] *)
Definition better (x1 x2 : nat * Q) : nat * Q :=
  if Qgt_bool (snd x1) (snd x2) then x1 else x2.

Definition recommend (this : RecommendationAlgorithm) (rnet : loc) : M nat :=
  recommendVector ← getRecommendationVector this rnet;
  vec ← loadNums recommendVector;
  minVal ← reduce (pick Qlt_bool) vec;
  o ← loadNet rnet;
  rs ← loadRatings (ratings o);
  _ ← forEach (fun (x : nat * Rating) _ =>
                 match snd x with
                 | Some _ => writeNum recommendVector (fst x) (sub64 minVal 1)
                 | None => mret tt
                 end) (entries rs);
  vec' ← loadNums recommendVector;
  recommendation ← reduce better (entries vec');
  mret (fst recommendation).

End GreedyRecommendationAlgorithm.

Module ProbabilisticRecommendationAlgorithm.

(** [distribution.sort(([i1,r1], [i2,r2]) => r1-r2)]: ascending in the
    second component and stable. *)
Fixpoint insertSorted (x : nat * Q) (sorted : list (nat * Q)) : list (nat * Q) :=
  match sorted with
  | [] => [x]
  | y :: sorted' =>
      if Qle_bool (snd x) (snd y) then x :: y :: sorted'
      else y :: insertSorted x sorted'
  end.

Definition sort (distribution : list (nat * Q)) : list (nat * Q) :=
  foldr insertSorted [] distribution.

(** The loop that builds [cdist]. *)
Fixpoint cumulative (prev : Q) (distribution : list (nat * Q)) : list (nat * Q) :=
  match distribution with
  | [] => []
  | (i, p) :: distribution' =>
      (i, add64 p prev) :: cumulative (add64 prev p) distribution'
  end.

(** [for (let [i, cp] of cdist) if (u < cp) return i; throw ...]; of the
    message of the Error the model keeps the first sentence. *)
Fixpoint sample (u : Q) (cdist : list (nat * Q)) : M nat :=
  match cdist with
  | [] => throw (Error "The cumulative distribution is invalid.")
  | (i, cp) :: cdist' => if Qlt_bool u cp then mret i else sample u cdist'
  end.

(** Scores that are not all equal and sum to zero give quotients that are
    Infinity or NaN, and an order after [sort] that depends on the engine:
    there the model stops. *)
Definition recommend (this : RecommendationAlgorithm) (rnet : loc) : M nat :=
  recommendVector ← getRecommendationVector this rnet;
  o ← loadNet rnet;
  rs ← loadRatings (ratings o);
  _ ← forEach (fun (r : Rating) i =>
                 match r with
                 | Some _ => writeNum recommendVector i 0%Q
                 | None => mret tt
                 end) rs;
  vec ← loadNums recommendVector;
  vec' ← (if every (fun e => Qeq_bool e (hd 0%Q vec)) vec
          then mret (replicate (length vec)
                               (div64 1 (inject_Z (Z.of_nat (length vec)))))
          else
            sum ← reduce add64 vec;
            if Qeq_bool sum 0 then unmodelled "division by zero"
            else mret (map (fun e => div64 e sum) vec));
  let distribution := sort (entries vec') in
  let cdist := cumulative 0%Q distribution in
  u ← Math_random;
  sample u cdist.

End ProbabilisticRecommendationAlgorithm.

(* ===================================================================== *)
(** * profile-learner.ts *)
(* ===================================================================== *)

(** A [UserProfile] is represented by the similarity matrix it wraps. *)
Abbreviation UserProfile := (list (list Q)) (only parsing).

(** The field of a [ProfileLearner]. *)
Record ProfileLearner : Type := mkLearner {
  similarityFunction : Q -> Q -> Q
}.

Module ProfileLearner.

(** [similarity[i][j] = x] *)
Definition setEntry (similarity : list (list Q)) (i j : nat) (x : Q)
  : list (list Q) :=
  alter (fun row => <[j:=x]> row) i similarity.

(** Body of the inner loop. *)
Definition fillPair (this : ProfileLearner) (meanVector : list Q) (i : nat)
    (similarity : list (list Q)) (j : nat) : list (list Q) :=
  let simVal := similarityFunction this (nth i meanVector 0%Q) (nth j meanVector 0%Q) in
  setEntry (setEntry similarity i j simVal) j i simVal.

(** [for (let j = i+1; j < nNodes; j++) ...] *)
Definition fillRow (this : ProfileLearner) (meanVector : list Q)
    (similarity : list (list Q)) (i : nat) : list (list Q) :=
  let nNodes := length meanVector in
  fold_left (fillPair this meanVector i) (seq (i + 1) (nNodes - (i + 1))) similarity.

Definition meanVectorsToSimilarityMatrix (this : ProfileLearner)
    (meanVector : list Q) : list (list Q) :=
  let nNodes := length meanVector in
  let similarity := Matrix.twoDimArray nNodes nNodes 0%Q in
  fold_left (fillRow this meanVector) (seq 0 (nNodes - 1)) similarity.

(** [cleanRatings].  An element of the array it returns is what the callback
    [(r) => (r===null) ? 0 : r] returns: the number [0] ([inl]) or [r]
    ([inr]).  Here [r] is the rating array of one user, a reference; a
    reference to an array is not [null]. *)
Definition cleanRatings (users : list loc) : M (list (Q + loc)) :=
  _ratings ← mapM (fun u => rn ← loadUser u; o ← loadNet rn; mret (ratings o)) users;
  let isNull (r : loc) : bool := false in
  let ratings := map (fun r => if isNull r then inl 0%Q else inr r) _ratings in
  mret ratings.

(** Reads the rows of the array [cleanRatings] returned. *)
Definition readRows (ratings : list (Q + loc)) : M (list (list jsval)) :=
  mapM (fun r : Q + loc =>
          match r with
          | inl _ => unmodelled "a number where a vector is expected"
          | inr l => rs ← loadRatings l; mret (map ratingVal rs)
          end) ratings.

(** [users[0].ratedNetwork.nNodes] *)
Definition firstNNodes (users : list loc) : M nat :=
  match users with
  | [] => throw (TypeError "Cannot read properties of undefined (reading 'ratedNetwork')")
  | u :: _ => rn ← loadUser u; o ← loadNet rn; mret (nNodes o)
  end.

Definition allNNodes (users : list loc) : M (list nat) :=
  mapM (fun u => rn ← loadUser u; o ← loadNet rn; mret (nNodes o)) users.

End ProfileLearner.

Module AverageLearner.

Definition learnProfile (this : ProfileLearner) (users : list loc)
  : M (list UserProfile) :=
  nNodes ← ProfileLearner.firstNNodes users;
  ns ← ProfileLearner.allNNodes users;
  _ ← assert (every (fun n => Nat.eqb n nNodes) ns)
        "Users should all have the same shape ratedNetwork";
  ratings ← ProfileLearner.cleanRatings users;
  rows ← ProfileLearner.readRows ratings;
  averageRating ← Matrix.vectorMean rows;
  let similarity := ProfileLearner.meanVectorsToSimilarityMatrix this averageRating in
  mret [similarity].

End AverageLearner.

Module KMeansLearner.

(** [([i1,d1], [i2, d2]) => (d1 < d2) ? [i1, d1] : [i2,d2]] *)
Definition nearer (x1 x2 : nat * Root) : nat * Root :=
  if Root_lt_bool (snd x1) (snd x2) then x1 else x2.

(** One round of the assignment loop: the cluster index for one user. *)
Definition assign (currentMeans : list (list jsval)) (rating : list jsval) : M nat :=
  distances ← mapM (fun v => Matrix.vectorDist rating v) currentMeans;
  let indexedDistances := entries distances in
  best ← reduce nearer indexedDistances;
  mret (fst best).

(** [ratings[0].length] *)
Definition firstLength {A} (ratings : list (list A)) : M nat :=
  match ratings with
  | [] => throw (TypeError "Cannot read properties of undefined (reading 'length')")
  | r :: _ => mret (length r)
  end.

Definition kMeansIteration (ratings currentMeans : list (list jsval))
  : M (list (list jsval)) :=
  _ ← assert (Matrix.isRectangular ratings) "ratings must be rectangular!";
  _ ← assert (Matrix.isRectangular currentMeans) "currentMeans must be rectangular!";
  let k := length currentMeans in
  nNodes ← firstLength ratings;
  pointAssignments ←
    mapM (fun rating => idx ← assign currentMeans rating; mret (idx, rating)) ratings;
  newMeans ←
    mapM (fun i =>
            let cluster :=
              map snd (filter (fun p : nat * list jsval => fst p = i) pointAssignments) in
            mean ← Matrix.vectorMean cluster;
            mret (map Num mean))
         (Matrix.range k);
  mret newMeans.

(** [Math.floor(Math.random()*nUsers)] *)
Definition getRndIdx (nUsers : nat) : M Z :=
  u ← Math_random;
  mret (Qfloor (u * inject_Z (Z.of_nat nUsers))).

(** [candidateIdx = getRndIdx(); while (startIdx.includes(candidateIdx))
    candidateIdx = getRndIdx();] with a bound on the number of draws.
    [startIdx] lists the entries assigned so far; the holes of [Array(k)]
    match no number. *)
Fixpoint drawIndex (fuel : nat) (nUsers : nat) (startIdx : list Z) : M Z :=
  match fuel with
  | O => fail OutOfFuel
  | S fuel' =>
      candidateIdx ← getRndIdx nUsers;
      if existsb (Z.eqb candidateIdx) startIdx
      then drawIndex fuel' nUsers startIdx
      else mret candidateIdx
  end.

(** [for (let i = 0; i < k; i++) ...] of [initKMeans], [todo] rounds left. *)
Fixpoint drawIndices (fuel : nat) (nUsers : nat) (todo : nat) (startIdx : list Z)
  : M (list Z) :=
  match todo with
  | O => mret startIdx
  | S todo' =>
      candidateIdx ← drawIndex fuel nUsers startIdx;
      drawIndices fuel nUsers todo' (startIdx ++ [candidateIdx])
  end.

Definition initKMeans (fuel : nat) (ratings : list (list jsval)) (k : nat)
  : M (list (list jsval)) :=
  _ ← assert (Nat.leb 1 k) "k must be >= 1";
  _ ← assert (Matrix.isRectangular ratings) "ratings must be rectangular, but is not";
  let nUsers := length ratings in
  nNodes ← firstLength ratings;
  startIdx ← drawIndices fuel nUsers k [];
  mapM (fun i : Z =>
          if Z.ltb i 0 then unmodelled "Math.random() outside [0, 1)"
          else fromOption "Math.random() outside [0, 1)" (ratings !! Z.to_nat i))
       startIdx.

(** The [while] loop of [runKMeans], at most [fuel] rounds. *)
Fixpoint iterate (fuel : nat) (ratings currentMeans previousMeans : list (list jsval))
  : M (list (list jsval)) :=
  Matrix.isEqual currentMeans previousMeans ≫= fun converged : bool =>
  if converged then mret currentMeans
  else
    match fuel with
    | O => fail OutOfFuel
    | S fuel' =>
        newMeans ← kMeansIteration ratings currentMeans;
        iterate fuel' ratings newMeans currentMeans
    end.

Definition runKMeans (fuel : nat) (initMeans ratings : list (list jsval)) (k : nat)
  : M (list (list jsval)) :=
  _ ← assert (Nat.leb 1 k) "k must be >= 1";
  _ ← assert (Matrix.isRectangular ratings) "ratings must be rectangular, but is not";
  _ ← assert (Matrix.isRectangular initMeans) "initMeans must be rectangular, but is not";
  nNodes ← firstLength ratings;
  let currentMeans := initMeans in
  let previousMeans := Matrix.twoDimArray k nNodes Undefined in
  iterate fuel ratings currentMeans previousMeans.

(** [parameters] is [Some k] for [{k: k}] and [None] for an object without
    the property [k]. *)
Definition learnProfile (this : ProfileLearner) (fuel : nat) (users : list loc)
    (parameters : option nat) : M (list UserProfile) :=
  match parameters with
  | None => throw (Error "Learing of k not yet implemented.")
  | Some k =>
      nNodes ← ProfileLearner.firstNNodes users;
      let nUsers := length users in
      _ ← assert (Nat.leb 1 k) "k must be >= 1";
      _ ← assert (Nat.leb k nUsers) "nUsers must be >= k";
      ns ← ProfileLearner.allNNodes users;
      _ ← assert (every (fun n => Nat.eqb n nNodes) ns)
            "Users should all have the same shape ratedNetwork";
      ratings ← ProfileLearner.cleanRatings users;
      rows ← ProfileLearner.readRows ratings;
      initMeans ← initKMeans fuel rows k;
      finalMeans ← runKMeans fuel initMeans rows k;
      mapM (fun v =>
              v' ← fromOption "NaN" (mapM toNumber v);
              mret (ProfileLearner.meanVectorsToSimilarityMatrix this v'))
           finalMeans
  end.

End KMeansLearner.

(* ===================================================================== *)
(** * profile-learner.ts: [setSimilarityFunction] *)
(* ===================================================================== *)

Module SimilarityFunction.

(** The ratings [minRating .. maxRating] the two loops run over. *)
Definition minRating : nat := 1.
Definition maxRating : nat := 5.

Definition ratingRange : list Q :=
  map (fun n => inject_Z (Z.of_nat n)) (seq minRating (maxRating + 1 - minRating)).

(** [setSimilarityFunction(similarityFunction, parameters)]: returns the
    learner with its field replaced, or throws at the first pair of ratings
    whose similarity is outside [0, 1]. *)
Definition setSimilarityFunction {P : Type} (this : ProfileLearner)
    (similarityFunction : Q -> Q -> P -> Q) (parameters : P) : M ProfileLearner :=
  _ ← forEach (fun i _ =>
         forEach (fun j _ =>
            let similarity := similarityFunction i j parameters in
            assert (Qle_bool 0 similarity && Qle_bool similarity 1)
              "the similarity should be 0 <= s <= 1") ratingRange) ratingRange;
  mret (mkLearner (fun r1 r2 => similarityFunction r1 r2 parameters)).

End SimilarityFunction.

(* ===================================================================== *)
(** * network-generator.ts *)
(* ===================================================================== *)

(** A loop that threads an accumulator through effectful steps. *)
Fixpoint foldM {A B} (f : A -> B -> M A) (l : list B) (a : A) : M A :=
  match l with
  | [] => mret a
  | x :: l' => a' ← f a x; foldM f l' a'
  end.

Module NetworkGenerator.

(** One round of the loop of [randomRatings]. *)
Definition randomRating (ratedProbability : Q) : M Rating :=
  u ← Math_random;
  if Qlt_bool u ratedProbability
  then v ← Math_random; mret (Some (Math_floor (v * 5) + 1)%Q)
  else mret None.

Definition randomRatings (nNodes : nat) (ratedProbability : Q) : M (list Rating) :=
  foldM (fun ratings _ => r ← randomRating ratedProbability; mret (ratings ++ [r]))
        (seq 0 nNodes) [].

(** Body of the inner loop of [randomNetwork]. *)
Definition randomEdge (upper lower : Q) (i : nat) (network : list (list Q)) (j : nat)
  : M (list (list Q)) :=
  u ← Math_random;
  let val := add64 (mul64 u (sub64 upper lower)) lower in
  mret (ProfileLearner.setEntry (ProfileLearner.setEntry network i j val) j i val).

Definition randomNetwork (nNodes : nat) (upper lower : Q) : M (list (list Q)) :=
  let network := Matrix.twoDimArray nNodes nNodes 0%Q in
  foldM (fun network i =>
           foldM (randomEdge upper lower i) (seq (i + 1) (nNodes - (i + 1))) network)
        (seq 0 nNodes) network.

End NetworkGenerator.

(* ===================================================================== *)
(** * Vocabulary of the properties *)
(* ===================================================================== *)

(** In store [s], [rnet] is a [RatedNetwork] object with fields [o], whose
    similarity matrix is [net] and whose rating array is [rs]. *)
Definition rated_network (s : state) (rnet : loc) (o : RatedNetworkObj)
    (net : list (list Q)) (rs : list Rating) : Prop :=
  heap s !! rnet = Some (CNet o) ∧
  heap s !! network o = Some (CMatrix net) ∧
  heap s !! ratings o = Some (CRatings rs).

(** The shape the constructor of [RatedNetwork] checks. *)
Definition well_shaped (o : RatedNetworkObj) (net : list (list Q))
    (rs : list Rating) : Prop :=
  length net = nNodes o ∧
  Forall (fun row => length row = nNodes o) net ∧
  length rs = nNodes o.

(** A computation keeps every cell of [h0] as it is, whatever its outcome,
    and its result, if any, satisfies [Q]. *)
Definition framed (h0 : list cell) {A} (m : M A) (Q : A -> Prop) : Prop :=
  ∀ s, h0 `prefix_of` heap s →
    h0 `prefix_of` heap (m s).2 ∧ ∀ a, (m s).1 = Ok a → Q a.

(** The value [recommendVector.reduce((e1, e2) => (e1 < e2) ? e1 : e2)]
    of a non-empty vector. *)
Definition minimum (vec : list Q) : Q :=
  fold_left (pick Qlt_bool) (tl vec) (hd 0%Q vec).

(** The scores after the greedy algorithm has overwritten, with [x], the
    score of every item that has a rating. *)
Fixpoint mask (rs : list Rating) (vec : list Q) (x : Q) : list Q :=
  match rs, vec with
  | Some _ :: rs', _ :: vec' => x :: mask rs' vec' x
  | None :: rs', e :: vec' => e :: mask rs' vec' x
  | _, _ => vec
  end.

(** [i] is the last (resp. first) index at which [v] takes its largest value. *)
Definition last_maximum (v : list Q) (i : nat) : Prop :=
  ∃ e, v !! i = Some e ∧
    ∀ j y, v !! j = Some y → (y <= e)%Q ∧ (i < j → (y < e)%Q).


(** A matrix of numbers as an array of arrays of values. *)
Definition numMatrix (m : list (list Q)) : list (list jsval) :=
  map (map Num) m.

(** Same number of rows, and corresponding rows of the same length. *)
Definition same_shape (m1 m2 : list (list Q)) : Prop :=
  Forall2 (fun r1 r2 => length r1 = length r2) m1 m2.

(** Corresponding elements are equal as numbers. *)
Definition all_equal (m1 m2 : list (list Q)) : Prop :=
  Forall2 (Forall2 Qeq) m1 m2.

(** The distance from [rating] to the mean of cluster [j]. *)
Definition distanceTo (means : list (list jsval)) (rating : list jsval) (j : nat)
  : option Root :=
  v ← means !! j; Math_sqrt <$> Matrix.sumSquares rating v 0%Q.

Definition Root_le (d1 d2 : Root) : Prop := (Root_value d1 <= Root_value d2)%Q.
Definition Root_lt (d1 d2 : Root) : Prop := (Root_value d1 < Root_value d2)%Q.

(** Magnitudes that keep the arithmetic within the finite binary64 numbers:
    with every number at most [2^400] in magnitude and at most [2^20] of
    them, no difference, product, square or sum of the computations below
    reaches [2^1024]. *)
Definition small (q : Q) : Prop := (Qabs q <= 2 ^ 400)%Q.

Definition small_val (v : jsval) : Prop :=
  match toNumber v with Some q => small q | None => True end.

Definition few (n : nat) : Prop := (Z.of_nat n <= 2 ^ 20)%Z.


(** The numbers [vectorDist] computes with, from [rating] to each of the
    [means], are small. *)
Definition finite_distances (means : list (list jsval)) (rating : list jsval) : Prop :=
  Forall small_val rating ∧ Forall (Forall small_val) means ∧ few (length rating).

(** Entry [(i, j)] of a matrix. *)
Definition entry (m : list (list Q)) (i j : nat) : option Q :=
  row ← m !! i; row !! j.

Definition symmetric (m : list (list Q)) : Prop :=
  ∀ i j, entry m i j = entry m j i.

Definition zero_diagonal (m : list (list Q)) : Prop :=
  ∀ i, i < length m → entry m i i = Some 0%Q.

(** No diagonal entry is the similarity [1] of two equal ratings. *)
Definition diagonal_never_one (m : list (list Q)) : Prop :=
  ∀ i x, entry m i i = Some x → ¬ (x == 1)%Q.

(** What the loops of [meanVectorsToSimilarityMatrix] maintain. *)
Definition similarity_inv (n : nat) (m : list (list Q)) : Prop :=
  length m = n ∧ Forall (fun row => length row = n) m ∧
  symmetric m ∧ zero_diagonal m.

(** What holds of every learned profile. *)
Definition learned_profile (p : list (list Q)) : Prop :=
  symmetric p ∧ zero_diagonal p ∧ diagonal_never_one p.

(** [q] is a binary64 number: rounding leaves it as it is. *)
Definition binary64 (q : Q) : Prop := (round64 q == q)%Q.

(** The pairs [x < y] selected by [D] hold, at both [(x, y)] and [(y, x)],
    the similarity of the mean ratings of [x] and [y], in this order. *)
Definition filledPairs (this : ProfileLearner) (meanVector : list Q)
    (D : nat -> nat -> Prop) (m : list (list Q)) : Prop :=
  let n := length meanVector in
  length m = n ∧ Forall (fun row => length row = n) m ∧
  ∀ x y, x < y → y < n → D x y →
    let v := similarityFunction this (nth x meanVector 0%Q) (nth y meanVector 0%Q) in
    entry m x y = Some v ∧ entry m y x = Some v.

(** Cluster [idx] is the nearest to [rating], and the last of the nearest:
    no mean is nearer and every mean of larger index is strictly farther. *)
Definition nearest_last (means : list (list jsval)) (rating : list jsval)
    (idx : nat) : Prop :=
  ∃ d, distanceTo means rating idx = Some d ∧
       ∀ j dj, distanceTo means rating j = Some dj →
         Root_le d dj ∧ (idx < j → Root_lt d dj).

(** Two vectors hold the same numbers, entry by entry ([null] counts as 0,
    as it does in arithmetic). *)
Definition same_numbers (m1 m2 : list jsval) : Prop :=
  Forall2 (fun a b => match toNumber a, toNumber b with
                      | Some x, Some y => (x == y)%Q
                      | None, None => True
                      | _, _ => False
                      end) m1 m2.

(** In store [s], [u] is a user whose rated network has [n] items and the
    ratings [rs]. *)
Definition user_ratings (s : state) (n : nat) (u : loc) (rs : list Rating) : Prop :=
  ∃ rn o, heap s !! u = Some (CUser rn) ∧ heap s !! rn = Some (CNet o) ∧
          heap s !! ratings o = Some (CRatings rs) ∧
          nNodes o = n ∧ length rs = n.

(** The ratings as numbers, an unrated item counting as [0]. *)
Definition unratedAsZero (rs : list Rating) : list Q :=
  map (fun r : Rating => match r with Some q => q | None => 0%Q end) rs.

(** ** Example stores *)

(** Items 0 and 1 fully similar, item 2 isolated; only item 0 is rated.
    Location 0 holds the matrix, location 1 the ratings. *)
Definition scenarioMatrix : list (list Q) :=
  [[0; 1; 0]; [1; 0; 0]; [0; 0; 0]]%Q.

Definition scenarioRatings : list Rating := [Some 5%Q; None; None].

Definition scenarioStore : state :=
  mkState [CMatrix scenarioMatrix; CRatings scenarioRatings] [] (fun _ => 0%Q) 0.

(** The rated network that [new RatedNetwork(matrix, ratings)] builds in
    [scenarioStore], at location 2. *)
Definition scenarioFields : RatedNetworkObj := mkRatedNetwork 3 0 1 0%Q 1%Q.

Definition scenarioNetwork : state :=
  mkState [CMatrix scenarioMatrix; CRatings scenarioRatings; CNet scenarioFields]
          [] (fun _ => 0%Q) 0.

(** Item 0 equally similar to items 1 and 2; only item 0 is rated. *)
Definition tieMatrix : list (list Q) :=
  [[0; 1; 1]; [1; 0; 0]; [1; 0; 0]]%Q.


(** The rated network built from [tieMatrix] (object at location 2). *)
Definition tieNetwork : state :=
  mkState [CMatrix tieMatrix; CRatings scenarioRatings; CNet scenarioFields]
          [] (fun _ => 0%Q) 0.

(** Two items, the second rated; the scores are [-5e17] and [5e17]. *)
Definition largeMatrix : list (list Q) :=
  [[0; 0]; [0; 400000000000000000]]%Q.

Definition largeRatings : list Rating := [None; Some 5%Q].

Definition largeStore : state :=
  mkState [CMatrix largeMatrix; CRatings largeRatings] [] (fun _ => 0%Q) 0.

(** The adjacency matrix of [recommender-test.ts], four of its six items
    rated with two stars. *)
Definition adjacency : list (list Q) :=
  let x1 := round64 (1 # 10) in
  let x5 := (1 # 2)%Q in
  let x9 := round64 (9 # 10) in
  [[0; x1; x5; 0; 0; 0]; [x1; 0; x9; 0; 0; 0]; [x5; x9; 0; 0; 0; 0];
   [0; 0; 0; 0; x1; x5]; [0; 0; 0; x1; 0; x9]; [0; 0; 0; x5; x9; 0]]%Q.

Definition adjacencyRatings : list Rating :=
  [Some 2%Q; None; Some 2%Q; Some 2%Q; None; Some 2%Q].

Definition adjacencyStore : state :=
  mkState [CMatrix adjacency; CRatings adjacencyRatings] [] (fun _ => 0%Q) 0.

(** A network whose three items are all rated (object at location 2). *)
Definition ratedRatings : list Rating := [Some 5%Q; Some 3%Q; Some 1%Q].

Definition ratedNetworkStore : state :=
  mkState [CMatrix scenarioMatrix; CRatings ratedRatings; CNet scenarioFields]
          [] (fun _ => 0%Q) 0.

(** Ten items, all rated with three stars (object at location 2), and a
    random number just below 1. *)
Definition tenRatedStore : state :=
  mkState [CMatrix (Matrix.twoDimArray 10 10 0%Q); CRatings (replicate 10 (Some 3%Q));
           CNet (mkRatedNetwork 10 0 1 0%Q 1%Q)]
          [] (fun _ => 1 - 1 / 2 ^ 53)%Q 0.

(** One user (location 3) who rated item 0 with five stars and left item 1
    unrated; the user's rating array is at location 1. *)
Definition oneUserStore : state :=
  mkState [CMatrix [[0; 0]; [0; 0]]%Q; CRatings [Some 5%Q; None];
           CNet (mkRatedNetwork 2 0 1 0%Q 1%Q); CUser 2]
          [] (fun _ => 0%Q) 0.

(** Three users (locations 3, 7 and 11) with partly rated networks of three
    items, and a sequence for [Math.random]. *)
Definition userCells (rs : list Rating) (base : nat) : list cell :=
  [CMatrix (Matrix.twoDimArray (length rs) (length rs) 0%Q); CRatings rs;
   CNet (mkRatedNetwork (length rs) base (base + 1) 0%Q 1%Q); CUser (base + 2)].

Definition threeUsersStore : state :=
  mkState (userCells [Some 5%Q; None; Some 1%Q] 0 ++
           userCells [Some 1%Q; Some 4%Q; None] 4 ++
           userCells [Some 5%Q; None; Some 2%Q] 8)
          []
          (fun n => match n with 0 => 1 # 10 | 1 => 1 # 10 | 2 => 1 # 2 | _ => 9 # 10 end)
          0.

(** A learner whose similarity function is [1 / (1 + (r1 - r2)^2)]. *)
Definition exampleLearner : ProfileLearner :=
  mkLearner (fun r1 r2 => 1 / (1 + (r1 - r2) ^ 2))%Q.

(* ===================================================================== *)
(** * Properties *)
(* ===================================================================== *)

(** ** Rounding *)

Lemma round64_proper q1 q2 : (q1 == q2)%Q → round64 q1 = round64 q2.
Proof. intros H. unfold round64. by rewrite (Qred_complete _ _ H). Qed.

Lemma round64_zero q : (q == 0)%Q → round64 q = 0%Q.
Proof. intros H. by rewrite (round64_proper _ _ H). Qed.

Lemma sqrt64_proper q1 q2 : (q1 == q2)%Q → sqrt64 q1 = sqrt64 q2.
Proof. intros H. unfold sqrt64. by rewrite (Qred_complete _ _ H). Qed.

Lemma Qpower_2_pos e : (0 < 2 ^ e)%Q.
Proof. apply Qpower_0_lt. reflexivity. Qed.

Lemma roundHalfEven_nonneg s : (0 <= s)%Q → (0 <= roundHalfEven s)%Z.
Proof.
  intros Hs. unfold roundHalfEven.
  assert (0 <= Qfloor s)%Z.
  { change 0%Z with (Qfloor 0). by apply Qfloor_resp_le. }
  destruct (_ ?= _)%Q; [destruct (Z.even _)| |]; lia.
Qed.

Lemma roundPos_nonneg q : (0 <= q)%Q → (0 <= roundPos q)%Q.
Proof.
  intros Hq. unfold roundPos. rewrite Qred_correct.
  set (e := Z.max _ _). pose proof (Qpower_2_pos e) as He.
  apply Qmult_le_0_compat; [|by apply Qlt_le_weak].
  change 0%Q with (inject_Z 0). rewrite <- Zle_Qle.
  apply roundHalfEven_nonneg. apply Qle_shift_div_l; [done|]. lra.
Qed.

Lemma round64_nonneg q : (0 <= q)%Q → (0 <= round64 q)%Q.
Proof.
  intros Hq. unfold round64.
  pose proof (Qred_correct q) as Hr.
  destruct (Qred q) as [[|p|p] d] eqn:E; simpl.
  - done.
  - apply roundPos_nonneg. by rewrite Hr.
  - exfalso. rewrite <- Hr in Hq. unfold Qle in Hq. simpl in Hq. lia.
Qed.

Lemma round64_opp q : (round64 (- q) == - round64 q)%Q.
Proof.
  unfold round64. rewrite Qred_opp.
  destruct (Qred q) as [[|p|p] d]; simpl; [done | done |].
  by rewrite Qopp_involutive.
Qed.

Lemma sqrt64_nonneg q : (0 <= sqrt64 q)%Q.
Proof.
  unfold sqrt64. destruct (Qnum (Qred q)); [done | | done].
  rewrite Qred_correct. set (e := Z.max _ _). pose proof (Qpower_2_pos e) as He.
  apply Qmult_le_0_compat; [|by apply Qlt_le_weak].
  change 0%Q with (inject_Z 0). rewrite <- Zle_Qle.
  pose proof (Z.sqrt_nonneg (Qfloor (Qred q / 2 ^ (2 * e)))).
  destruct (_ ?= _)%Q; [destruct (Z.even _)| |]; lia.
Qed.

(** ** Rounding twice *)

Lemma Qpow2_plus a b : (2 ^ (a + b) == 2 ^ a * 2 ^ b)%Q.
Proof. by apply Qpower_plus. Qed.

Lemma Qpow2_Z n : (0 <= n)%Z → (inject_Z (2 ^ n) == 2 ^ n)%Q.
Proof. intros H. by rewrite Zpower_Qpower. Qed.

Lemma Qpow2_le a b : (a <= b)%Z → (2 ^ a <= 2 ^ b)%Q.
Proof. intros H. by apply Qpower_le_compat_l. Qed.

Lemma Qpow2_lt a b : (a < b)%Z → (2 ^ a < 2 ^ b)%Q.
Proof. intros H. by apply Qpower_lt_compat_l. Qed.

Lemma Qmult_lt_le_pos a b c d :
  (0 < a)%Q → (0 < d)%Q → (a < c)%Q → (b <= d)%Q → (a * b < c * d)%Q.
Proof.
  intros Ha Hd Hac Hbd.
  apply Qle_lt_trans with (a * d)%Q.
  - rewrite !(Qmult_comm a). apply Qmult_le_compat_r; [done | by apply Qlt_le_weak].
  - by apply Qmult_lt_compat_r.
Qed.

Lemma Qlog2_spec q :
  (0 < q)%Q → (2 ^ Qlog2 q <= q)%Q ∧ (q < 2 ^ (Qlog2 q + 1))%Q.
Proof.
  destruct q as [n d]. intros Hq.
  assert (Hn : (0 < n)%Z) by (unfold Qlt in Hq; simpl in Hq; lia).
  unfold Qlog2. simpl Qnum. simpl Qden.
  set (a := Z.log2 n). set (b := Z.log2 (Z.pos d)).
  destruct (Z.log2_spec n Hn) as [Ha1 Ha2].
  destruct (Z.log2_spec (Z.pos d) eq_refl) as [Hb1 Hb2].
  fold a in Ha1, Ha2. fold b in Hb1, Hb2.
  pose proof (Z.log2_nonneg n) as Ha0. pose proof (Z.log2_nonneg (Z.pos d)) as Hb0.
  fold a in Ha0. fold b in Hb0.
  assert (HA1 : (2 ^ a <= inject_Z n)%Q).
  { rewrite <- Qpow2_Z by done. by rewrite <- Zle_Qle. }
  assert (HA2 : (inject_Z n < 2 ^ (a + 1))%Q).
  { rewrite <- Qpow2_Z by lia. rewrite <- Zlt_Qlt. by rewrite <- Z.add_1_r in Ha2. }
  assert (HB1 : (2 ^ b <= inject_Z (Z.pos d))%Q).
  { rewrite <- Qpow2_Z by done. by rewrite <- Zle_Qle. }
  assert (HB2 : (inject_Z (Z.pos d) < 2 ^ (b + 1))%Q).
  { rewrite <- Qpow2_Z by lia. rewrite <- Zlt_Qlt. by rewrite <- Z.add_1_r in Hb2. }
  assert (HD : (0 < inject_Z (Z.pos d))%Q) by done.
  assert (HN : (0 < inject_Z n)%Q) by (by rewrite <- (Zlt_Qlt 0)).
  pose proof (Qmake_Qdiv n d) as Hnd.
  destruct (Qle_bool (2 ^ (a - b)) (n # d)) eqn:E.
  - apply Qle_bool_iff in E. split; [done|].
    rewrite Hnd. apply Qlt_shift_div_r; [done|].
    replace (a - b + 1)%Z with ((a + 1) + - b)%Z by lia.
    rewrite Qpow2_plus, Qpower_opp.
    assert (Hb : (0 < 2 ^ b)%Q) by apply Qpower_2_pos.
    apply Qlt_le_trans with (2 ^ (a + 1) * / 2 ^ b * 2 ^ b)%Q.
    + assert (Hx : (2 ^ (a + 1) * / 2 ^ b * 2 ^ b == 2 ^ (a + 1))%Q) by (field; lra).
      by rewrite Hx.
    + apply Qmult_le_l; [|done].
      apply Qmult_lt_0_compat; [apply Qpower_2_pos | by apply Qinv_lt_0_compat].
  - assert (Hlt : (n # d < 2 ^ (a - b))%Q).
    { apply Qnot_le_lt. intros H. apply Qle_bool_iff in H. congruence. }
    replace (a - b - 1 + 1)%Z with (a - b)%Z by lia. split; [|done].
    rewrite Hnd. apply Qle_shift_div_l; [done|].
    replace (a - b - 1)%Z with (a + - (b + 1))%Z by lia.
    rewrite Qpow2_plus, Qpower_opp.
    assert (Hb : (0 < 2 ^ (b + 1))%Q) by apply Qpower_2_pos.
    apply Qle_trans with (2 ^ a * / 2 ^ (b + 1) * 2 ^ (b + 1))%Q.
    + apply Qmult_le_l; [|by apply Qlt_le_weak].
      apply Qmult_lt_0_compat; [apply Qpower_2_pos | by apply Qinv_lt_0_compat].
    + assert (Hx : (2 ^ a * / 2 ^ (b + 1) * 2 ^ (b + 1) == 2 ^ a)%Q) by (field; lra).
      by rewrite Hx.
Qed.

Lemma Qlog2_unique q k :
  (2 ^ k <= q)%Q → (q < 2 ^ (k + 1))%Q → Qlog2 q = k.
Proof.
  intros H1 H2.
  assert (Hq : (0 < q)%Q) by (eapply Qlt_le_trans; [apply (Qpower_2_pos k) | done]).
  destruct (Qlog2_spec q Hq) as [H3 H4].
  assert (Qlog2 q < k + 1)%Z.
  { apply (Qpower_lt_compat_l_inv 2); [|done]. by eapply Qle_lt_trans. }
  assert (k < Qlog2 q + 1)%Z.
  { apply (Qpower_lt_compat_l_inv 2); [|done]. by eapply Qle_lt_trans. }
  lia.
Qed.

Lemma roundHalfEven_proper s s' : (s == s')%Q → roundHalfEven s = roundHalfEven s'.
Proof.
  intros H. unfold roundHalfEven. rewrite (Qfloor_comp _ _ H).
  assert (E : (s - inject_Z (Qfloor s') == s' - inject_Z (Qfloor s'))%Q) by (by rewrite H).
  by rewrite (Qcompare_comp _ _ E _ _ (Qeq_refl _)).
Qed.

Lemma roundHalfEven_Z n : roundHalfEven (inject_Z n) = n.
Proof.
  unfold roundHalfEven. rewrite Qfloor_Z.
  assert (E0 : (inject_Z n - inject_Z n == 0)%Q) by ring.
  assert (E : (inject_Z n - inject_Z n ?= 1 # 2)%Q = Lt).
  { apply Qlt_alt. by rewrite E0. }
  by rewrite E.
Qed.

Lemma Qminus_lt_half s x : (s <= x)%Q → (s - x < 1 # 2)%Q.
Proof. intros H. lra. Qed.

Lemma roundHalfEven_between a b s :
  (inject_Z a <= s)%Q → (s <= inject_Z b)%Q → (a <= roundHalfEven s <= b)%Z.
Proof.
  intros Ha Hb. unfold roundHalfEven.
  assert (H1 : (a <= Qfloor s)%Z).
  { rewrite <- (Qfloor_Z a). by apply Qfloor_resp_le. }
  assert (H2 : (Qfloor s <= b)%Z).
  { rewrite <- (Qfloor_Z b). by apply Qfloor_resp_le. }
  destruct (Z.eq_dec (Qfloor s) b) as [E|E].
  - assert (E' : (s - inject_Z (Qfloor s) ?= 1 # 2)%Q = Lt).
    { apply Qlt_alt. rewrite E. by apply Qminus_lt_half. }
    rewrite E'. lia.
  - destruct (_ ?= _)%Q; [destruct (Z.even _)| |]; lia.
Qed.

Lemma Qlog2_proper q1 q2 : (0 < q1)%Q → (q1 == q2)%Q → Qlog2 q1 = Qlog2 q2.
Proof.
  intros Hq H. destruct (Qlog2_spec q1 Hq) as [H1 H2].
  symmetry. apply Qlog2_unique; by rewrite <- H.
Qed.

Lemma roundPos_proper q1 q2 : (0 < q1)%Q → (q1 == q2)%Q → roundPos q1 = roundPos q2.
Proof.
  intros Hq H. unfold roundPos. rewrite (Qlog2_proper _ _ Hq H).
  set (e := Z.max _ _).
  assert (E : (q1 / 2 ^ e == q2 / 2 ^ e)%Q) by (by rewrite H).
  by rewrite (roundHalfEven_proper _ _ E).
Qed.

Lemma Qdiv_pow2 x a b : (x * 2 ^ a / 2 ^ b == x * 2 ^ (a - b))%Q.
Proof.
  replace (a - b)%Z with (a + - b)%Z by lia.
  rewrite Qpow2_plus, Qpower_opp. pose proof (Qpower_2_pos b). field. lra.
Qed.

Lemma roundPos_form q :
  (0 < q)%Q →
  ∃ m e, (roundPos q == inject_Z m * 2 ^ e)%Q ∧
         (-1074 <= e)%Z ∧ (0 <= m <= 2 ^ 53)%Z ∧ (2 ^ 52 <= m ∨ e = -1074)%Z.
Proof.
  intros Hq. destruct (Qlog2_spec q Hq) as [H1 H2].
  set (L := Qlog2 q) in *.
  exists (roundHalfEven (q / 2 ^ Z.max (L - 52) (-1074))), (Z.max (L - 52) (-1074)).
  split; [unfold roundPos; by rewrite Qred_correct|].
  set (e := Z.max _ _).
  assert (He0 : (-1074 <= e)%Z) by apply Z.le_max_r.
  assert (He1 : (L - 52 <= e)%Z) by apply Z.le_max_l.
  assert (He2 : (-1074 <= L - 52 → e = L - 52)%Z) by (unfold e; lia).
  split; [done|].
  pose proof (Qpower_2_pos e) as He.
  assert (Hup : (q / 2 ^ e <= inject_Z (2 ^ 53))%Q).
  { apply Qle_shift_div_r; [done|]. rewrite Qpow2_Z by lia. rewrite <- Qpow2_plus.
    apply Qlt_le_weak. eapply Qlt_le_trans; [exact H2|]. apply Qpow2_le. lia. }
  assert (Hlo : (inject_Z 0 <= q / 2 ^ e)%Q).
  { apply Qle_shift_div_l; [done|]. change (inject_Z 0) with 0%Q. lra. }
  split.
  - apply roundHalfEven_between; done.
  - destruct (Z.le_gt_cases (-1074) (L - 52)) as [Hn|Hs]; [left | right; lia].
    assert (Hlo' : (inject_Z (2 ^ 52) <= q / 2 ^ e)%Q).
    { apply Qle_shift_div_l; [done|]. rewrite Qpow2_Z by lia. rewrite <- Qpow2_plus.
      eapply Qle_trans; [|exact H1]. apply Qpow2_le. lia. }
    by apply (roundHalfEven_between _ _ _ Hlo' Hup).
Qed.

Lemma roundPos_representable m e :
  (0 < m <= 2 ^ 53)%Z → (-1074 <= e)%Z → (2 ^ 52 <= m ∨ e = -1074)%Z →
  (roundPos (inject_Z m * 2 ^ e) == inject_Z m * 2 ^ e)%Q.
Proof.
  intros [Hm0 Hm] He Hn.
  set (k := Z.log2 m).
  destruct (Z.log2_spec m Hm0) as [Hk1 Hk2]. fold k in Hk1, Hk2.
  pose proof (Z.log2_nonneg m) as Hk0. fold k in Hk0.
  assert (HK1 : (2 ^ k <= inject_Z m)%Q).
  { rewrite <- Qpow2_Z by done. by rewrite <- Zle_Qle. }
  assert (HK2 : (inject_Z m < 2 ^ (k + 1))%Q).
  { rewrite <- Qpow2_Z by lia. rewrite <- Zlt_Qlt. by rewrite <- Z.add_1_r in Hk2. }
  pose proof (Qpower_2_pos e) as Hpe.
  assert (HL : Qlog2 (inject_Z m * 2 ^ e) = (k + e)%Z).
  { apply Qlog2_unique.
    - rewrite Qpow2_plus. by apply Qmult_le_compat_r; [|apply Qlt_le_weak].
    - replace (k + e + 1)%Z with ((k + 1) + e)%Z by lia. rewrite Qpow2_plus.
      by apply Qmult_lt_compat_r. }
  unfold roundPos. rewrite Qred_correct, HL.
  assert (Hk53 : (k <= 53)%Z).
  { unfold k. apply (Z.log2_le_mono m (2 ^ 53)) in Hm. by rewrite Z.log2_pow2 in Hm. }
  destruct (Z.eq_dec m (2 ^ 53)%Z) as [->|Hne].
  - assert (k = 53%Z) as -> by (unfold k; reflexivity).
    replace (Z.max (53 + e - 52) (-1074)) with (e + 1)%Z by lia.
    assert (E : (inject_Z (2 ^ 53)%Z * 2 ^ e / 2 ^ (e + 1) == inject_Z (2 ^ 52)%Z)%Q).
    { rewrite Qdiv_pow2. replace (e - (e + 1))%Z with (-1)%Z by lia. reflexivity. }
    rewrite (roundHalfEven_proper _ _ E), roundHalfEven_Z.
    rewrite Qpow2_plus.
    assert (E2 : (inject_Z (2 ^ 53)%Z == inject_Z (2 ^ 52)%Z * 2 ^ 1)%Q) by reflexivity.
    rewrite E2. ring.
  - assert (Hk52 : (k <= 52)%Z).
    { assert (Hlt : (m < 2 ^ 53)%Z) by lia.
      apply Z.log2_lt_pow2 in Hlt; [|done]. fold k in Hlt. lia. }
    assert (Hmax : Z.max (k + e - 52) (-1074) = e).
    { destruct Hn as [Hn| ->]; [|lia].
      apply Z.log2_le_pow2 in Hn; [|done]. fold k in Hn. lia. }
    rewrite Hmax.
    assert (E : (inject_Z m * 2 ^ e / 2 ^ e == inject_Z m)%Q).
    { rewrite Qdiv_pow2, Z.sub_diag. simpl. ring. }
    by rewrite (roundHalfEven_proper _ _ E), roundHalfEven_Z.
Qed.

Lemma Qred_Qred q : Qred (Qred q) = Qred q.
Proof. apply Qred_complete, Qred_correct. Qed.

Lemma round64_Qred q : Qred (round64 q) = round64 q.
Proof.
  unfold round64. destruct (Qnum (Qred q)); [done | apply Qred_Qred |].
  unfold roundPos. by rewrite Qred_opp, Qred_Qred.
Qed.

Lemma round64_pos q : (0 < q)%Q → round64 q = roundPos (Qred q).
Proof.
  intros Hq. unfold round64. pose proof (Qred_correct q) as Hr.
  destruct (Qred q) as [[|p|p] d] eqn:E; simpl; [| done |];
    exfalso; rewrite <- Hr in Hq; unfold Qlt in Hq; simpl in Hq; lia.
Qed.

Lemma round64_roundPos q : (0 < q)%Q → (round64 (roundPos q) == roundPos q)%Q.
Proof.
  intros Hq. destruct (roundPos_form q Hq) as (m & e & Hx & He & Hm & Hn).
  destruct (Z.eq_dec m 0%Z) as [->|Hm0].
  - assert (Hz : (roundPos q == 0)%Q) by (rewrite Hx; simpl; ring).
    by rewrite (round64_zero _ Hz), Hz.
  - assert (Hpos : (0 < inject_Z m * 2 ^ e)%Q).
    { apply Qmult_lt_0_compat; [|apply Qpower_2_pos]. rewrite <- (Zlt_Qlt 0). lia. }
    assert (Hxpos : (0 < roundPos q)%Q) by (by rewrite Hx).
    rewrite (round64_pos _ Hxpos).
    assert (E : (Qred (roundPos q) == inject_Z m * 2 ^ e)%Q) by (by rewrite Qred_correct).
    assert (Hrpos : (0 < Qred (roundPos q))%Q) by (by rewrite E).
    rewrite (roundPos_proper _ _ Hrpos E), Hx.
    apply roundPos_representable; [lia | done | done].
Qed.

(** A result of rounding is a binary64 number: rounding it again changes
    nothing. *)
Lemma round64_idempotent q : round64 (round64 q) = round64 q.
Proof.
  assert (H : (round64 (round64 q) == round64 q)%Q).
  { unfold round64 at 2 3. pose proof (Qred_correct q) as Hr.
    destruct (Qred q) as [[|p|p] d] eqn:E; simpl.
    - done.
    - apply round64_roundPos. done.
    - rewrite round64_opp. apply Qopp_comp. apply round64_roundPos. done. }
  transitivity (Qred (round64 (round64 q))); [symmetry; apply round64_Qred|].
  transitivity (Qred (round64 q)); [by apply Qred_complete | apply round64_Qred].
Qed.

(** ** The monad *)

Lemma bind_ok {A B} (m : M A) (f : A -> M B) s a s' :
  m s = (Ok a, s') → (m ≫= f) s = f a s'.
Proof. intros H. unfold mbind, M_bind. by rewrite H. Qed.

Lemma bind_fail {A B} (m : M A) (f : A -> M B) s e s' :
  m s = (Fail e, s') → (m ≫= f) s = (Fail e, s').
Proof. intros H. unfold mbind, M_bind. by rewrite H. Qed.

Lemma bind_inv {A B} (m : M A) (f : A -> M B) s b s' :
  (m ≫= f) s = (Ok b, s') → ∃ a s1, m s = (Ok a, s1) ∧ f a s1 = (Ok b, s').
Proof.
  unfold mbind, M_bind. destruct (m s) as [[a|e] s1]; [eauto | discriminate].
Qed.

Lemma heap_set_heap h s : heap (set_heap h s) = h.
Proof. done. Qed.

Lemma set_heap_set_heap h h' s : set_heap h (set_heap h' s) = set_heap h s.
Proof. done. Qed.

Lemma set_heap_id s : set_heap (heap s) s = s.
Proof. by destruct s. Qed.

Lemma load_run s l c : heap s !! l = Some c → load l s = (Ok c, s).
Proof. intros H. unfold load. by rewrite H. Qed.

Lemma loadNet_run s l o : heap s !! l = Some (CNet o) → loadNet l s = (Ok o, s).
Proof. intros H. unfold loadNet. by rewrite (bind_ok _ _ _ _ _ (load_run _ _ _ H)). Qed.

Lemma loadMatrix_run s l m :
  heap s !! l = Some (CMatrix m) → loadMatrix l s = (Ok m, s).
Proof. intros H. unfold loadMatrix. by rewrite (bind_ok _ _ _ _ _ (load_run _ _ _ H)). Qed.

Lemma loadRatings_run s l rs :
  heap s !! l = Some (CRatings rs) → loadRatings l s = (Ok rs, s).
Proof. intros H. unfold loadRatings. by rewrite (bind_ok _ _ _ _ _ (load_run _ _ _ H)). Qed.

Lemma loadNums_run s l v : heap s !! l = Some (CNums v) → loadNums l s = (Ok v, s).
Proof. intros H. unfold loadNums. by rewrite (bind_ok _ _ _ _ _ (load_run _ _ _ H)). Qed.

Lemma loadUser_run s l rn : heap s !! l = Some (CUser rn) → loadUser l s = (Ok rn, s).
Proof. intros H. unfold loadUser. by rewrite (bind_ok _ _ _ _ _ (load_run _ _ _ H)). Qed.

Lemma reduce_run {A} (f : A -> A -> A) x a s :
  reduce f (x :: a) s = (Ok (fold_left f a x), s).
Proof. done. Qed.

Lemma store_run s l c :
  l < length (heap s) → store l c s = (Ok tt, set_heap (<[l:=c]> (heap s)) s).
Proof. intros H. unfold store. by rewrite decide_True. Qed.

(** ** Frame rules *)

Lemma framed_ret h0 {A} (a : A) (Q : A -> Prop) : Q a → framed h0 (mret a) Q.
Proof. intros Ha s Hs. split; [done|]. intros a' [= <-]. done. Qed.

Lemma framed_fail h0 {A} f (Q : A -> Prop) : framed h0 (fail f) Q.
Proof. intros s Hs. split; [done|]. intros a [=]. Qed.

Lemma framed_bind h0 {A B} (m : M A) (f : A -> M B) (Q : A -> Prop) (R : B -> Prop) :
  framed h0 m Q → (∀ a, Q a → framed h0 (f a) R) → framed h0 (m ≫= f) R.
Proof.
  intros Hm Hf s Hs. destruct (Hm s Hs) as [Hpre Hres].
  unfold mbind, M_bind. destruct (m s) as [[a|e] s1] eqn:E; simpl in *.
  - apply (Hf a); auto.
  - split; [done|]. intros a [=].
Qed.

Lemma framed_weaken h0 {A} (m : M A) (Q Q' : A -> Prop) :
  framed h0 m Q → (∀ a, Q a → Q' a) → framed h0 m Q'.
Proof. intros Hm HQ s Hs. destruct (Hm s Hs). split; auto. Qed.

Lemma framed_alloc h0 c : framed h0 (alloc c) (fun l => length h0 ≤ l).
Proof.
  intros s Hs. simpl. split.
  - by apply prefix_app_r.
  - intros a [= <-]. by apply prefix_length.
Qed.

Lemma framed_load h0 l : framed h0 (load l) (fun _ => True).
Proof. intros s Hs. unfold load. destruct (heap s !! l); simpl; auto. Qed.

Lemma framed_store h0 l c : length h0 ≤ l → framed h0 (store l c) (fun _ => True).
Proof.
  intros Hl s Hs. unfold store. case_decide; simpl; [|auto].
  split; [|done]. destruct Hs as [k Hk]. rewrite Hk.
  rewrite insert_app_r_alt by done. by apply prefix_app_r.
Qed.

Lemma framed_console_assert h0 b msg : framed h0 (console_assert b msg) (fun _ => True).
Proof. intros s Hs. unfold console_assert. destruct b; simpl; auto. Qed.

Lemma framed_assert h0 b msg : framed h0 (assert b msg) (fun _ => True).
Proof. destruct b; [by apply framed_ret | apply framed_fail]. Qed.

Lemma framed_random h0 : framed h0 Math_random (fun _ => True).
Proof. intros s Hs. simpl. auto. Qed.

Lemma framed_fromOption h0 {A} why (o : option A) : framed h0 (fromOption why o) (fun _ => True).
Proof. destruct o; [by apply framed_ret | apply framed_fail]. Qed.

Lemma framed_reduce h0 {A} (f : A -> A -> A) a : framed h0 (reduce f a) (fun _ => True).
Proof. destruct a; [apply framed_fail | by apply framed_ret]. Qed.

Lemma framed_forEach_from h0 {A} (f : A -> nat -> M unit) i a :
  (∀ x j, framed h0 (f x j) (fun _ => True)) →
  framed h0 (forEach_from f i a) (fun _ => True).
Proof.
  intros Hf. revert i. induction a as [|x a IH]; intros i; simpl.
  - by apply framed_ret.
  - eapply framed_bind; [apply Hf | intros; apply IH].
Qed.

Create HintDb frame.

#[local] Hint Resolve framed_fail framed_alloc framed_load framed_store
  framed_console_assert framed_assert framed_random framed_fromOption
  framed_reduce : frame.

Ltac frame_bind := eapply framed_bind; [solve [eauto with frame] | intros ? ?].

Lemma framed_loadNet h0 l : framed h0 (loadNet l) (fun _ => True).
Proof.
  unfold loadNet. frame_bind.
  destruct a; first [by apply framed_ret | apply framed_fail].
Qed.

Lemma framed_loadMatrix h0 l : framed h0 (loadMatrix l) (fun _ => True).
Proof.
  unfold loadMatrix. frame_bind.
  destruct a; first [by apply framed_ret | apply framed_fail].
Qed.

Lemma framed_loadRatings h0 l : framed h0 (loadRatings l) (fun _ => True).
Proof.
  unfold loadRatings. frame_bind.
  destruct a; first [by apply framed_ret | apply framed_fail].
Qed.

Lemma framed_loadNums h0 l : framed h0 (loadNums l) (fun _ => True).
Proof.
  unfold loadNums. frame_bind.
  destruct a; first [by apply framed_ret | apply framed_fail].
Qed.

#[local] Hint Resolve framed_loadNet framed_loadMatrix framed_loadRatings
  framed_loadNums : frame.

Lemma framed_cloneDeep h0 rnet :
  framed h0 (cloneDeep rnet) (fun l => length h0 ≤ l).
Proof. unfold cloneDeep. do 5 frame_bind. apply framed_alloc. Qed.

Lemma framed_matVecMul h0 matrix vector :
  framed h0 (Matrix.matVecMul matrix vector) (fun _ => True).
Proof.
  unfold Matrix.matVecMul. frame_bind.
  destruct matrix; [apply framed_fail|]. frame_bind. apply framed_fromOption.
Qed.

Lemma framed_getRecommendationVector h0 this rnet :
  framed h0 (getRecommendationVector this rnet) (fun l => length h0 ≤ l).
Proof.
  unfold getRecommendationVector.
  eapply framed_bind; [apply framed_cloneDeep | intros ? ?].
  do 3 frame_bind.
  eapply framed_bind; [apply framed_matVecMul | intros ? ?].
  apply framed_alloc.
Qed.

Lemma framed_writeNum h0 l i x :
  length h0 ≤ l → framed h0 (writeNum l i x) (fun _ => True).
Proof. intros Hl. unfold writeNum. do 2 frame_bind. by apply framed_store. Qed.

Lemma framed_greedy h0 this rnet :
  framed h0 (GreedyRecommendationAlgorithm.recommend this rnet) (fun _ => True).
Proof.
  unfold GreedyRecommendationAlgorithm.recommend.
  eapply framed_bind; [apply framed_getRecommendationVector | intros rv Hrv].
  do 4 frame_bind.
  eapply framed_bind.
  { apply framed_forEach_from. intros [i [q|]] j; simpl.
    - by apply framed_writeNum.
    - by apply framed_ret. }
  intros ? ?. do 2 frame_bind. by apply framed_ret.
Qed.

Lemma framed_sample h0 u cdist :
  framed h0 (ProbabilisticRecommendationAlgorithm.sample u cdist) (fun _ => True).
Proof.
  induction cdist as [|[i cp] cdist IH]; simpl; [apply framed_fail|].
  destruct (Qlt_bool u cp); [by apply framed_ret | done].
Qed.

Lemma framed_probabilistic h0 this rnet :
  framed h0 (ProbabilisticRecommendationAlgorithm.recommend this rnet) (fun _ => True).
Proof.
  unfold ProbabilisticRecommendationAlgorithm.recommend.
  eapply framed_bind; [apply framed_getRecommendationVector | intros rv Hrv].
  do 2 frame_bind.
  eapply framed_bind.
  { apply framed_forEach_from. intros [q|] j.
    - by apply framed_writeNum.
    - by apply framed_ret. }
  intros ? ?. frame_bind.
  eapply framed_bind with (Q := fun _ => True).
  { destruct (every _ _); [by apply framed_ret|].
    frame_bind. destruct (Qeq_bool _ _); [apply framed_fail | by apply framed_ret]. }
  intros ? ?. frame_bind. apply framed_sample.
Qed.

Lemma framed_rated_network {A} (m : M A) s rnet o net rs :
  framed (heap s) m (fun _ => True) →
  rated_network s rnet o net rs → rated_network (m s).2 rnet o net rs.
Proof.
  intros Hm (Ho & Hnet & Hrs). destruct (Hm s) as [Hpre _]; [done|].
  repeat split; eapply prefix_lookup_Some; eauto.
Qed.

(** C7.  Neither [recommend] changes its argument: after the call, whatever
    its outcome, the rated network object has the same fields (among them
    [lower] and [upper]), the same similarity matrix and the same rating
    array as before. *)
Theorem recommend_leaves_rated_network_unchanged this rnet s o net rs :
  rated_network s rnet o net rs →
  rated_network (GreedyRecommendationAlgorithm.recommend this rnet s).2 rnet o net rs ∧
  rated_network (ProbabilisticRecommendationAlgorithm.recommend this rnet s).2 rnet o net rs.
Proof.
  intros H. split; apply framed_rated_network; auto.
  - apply framed_greedy.
  - apply framed_probabilistic.
Qed.

(** ** Comparisons *)

Lemma Qlt_bool_true a b : Qlt_bool a b = true ↔ (a < b)%Q.
Proof.
  unfold Qlt_bool. rewrite negb_true_iff, <- not_true_iff_false, Qle_bool_iff.
  split; [apply Qnot_le_lt | apply Qlt_not_le].
Qed.

Lemma Qlt_bool_false a b : Qlt_bool a b = false ↔ (b <= a)%Q.
Proof. unfold Qlt_bool. by rewrite negb_false_iff, Qle_bool_iff. Qed.

(** ** Reducing with a callback that keeps one of its two arguments

    [a.reduce((e1, e2) => keep(e1, e2) ? e1 : e2)] returns an element that no
    element beats, and that beats every element after it: for a strict
    comparison [keep], the last of the extreme elements. *)

Section Selection.
Context {A : Type} (keep : A -> A -> bool).
Hypothesis keep_asym : ∀ a b, keep a b = true → keep b a = false.
Hypothesis keep_negtrans :
  ∀ a b c, keep a b = false → keep b c = false → keep a c = false.

Lemma keep_irrefl a : keep a a = false.
Proof. destruct (keep a a) eqn:E; [by rewrite <- E; apply keep_asym | done]. Qed.

Lemma fold_pick_spec l x0 :
  ∃ i, (x0 :: l) !! i = Some (fold_left (pick keep) l x0) ∧
    ∀ j y, (x0 :: l) !! j = Some y →
      keep y (fold_left (pick keep) l x0) = false ∧
      (i < j → keep (fold_left (pick keep) l x0) y = true).
Proof.
  induction l as [|x l IH] using rev_ind.
  - exists 0. split; [done|]. intros [|j] y; simpl; [|done].
    intros [= <-]. split; [apply keep_irrefl | lia].
  - destruct IH as (i & Hi & Hall). rewrite fold_left_app. simpl.
    set (r := fold_left (pick keep) l x0) in *.
    change (x0 :: l ++ [x]) with ((x0 :: l) ++ [x]).
    unfold pick. destruct (keep r x) eqn:E.
    + exists i. split.
      { rewrite lookup_app_l; [done | by eapply lookup_lt_Some]. }
      intros j y [[_ Hy] | [-> <-]]%lookup_snoc_Some; [by apply Hall|].
      split; [by apply keep_asym | done].
    + exists (length (x0 :: l)). split.
      { by rewrite lookup_app_r, Nat.sub_diag. }
      intros j y [[Hlt Hy] | [-> <-]]%lookup_snoc_Some.
      * destruct (Hall j y Hy) as [H1 _].
        split; [|lia]. by eapply keep_negtrans.
      * split; [apply keep_irrefl | lia].
Qed.
End Selection.

Lemma fold_pick_least {A} (μ : A -> Q) l x0 :
  let r := fold_left (pick (fun a b => Qlt_bool (μ a) (μ b))) l x0 in
  ∃ i, (x0 :: l) !! i = Some r ∧
    ∀ j y, (x0 :: l) !! j = Some y → (μ r <= μ y)%Q ∧ (i < j → (μ r < μ y)%Q).
Proof.
  intros r.
  destruct (fold_pick_spec (fun a b => Qlt_bool (μ a) (μ b))) with (l := l) (x0 := x0)
    as (i & Hi & Hall).
  - intros a b. rewrite Qlt_bool_true, Qlt_bool_false. apply Qlt_le_weak.
  - intros a b c. rewrite !Qlt_bool_false. intros H1 H2. exact (Qle_trans _ _ _ H2 H1).
  - exists i. split; [done|]. intros j y Hy. destruct (Hall j y Hy) as [H1 H2].
    split; [by apply Qlt_bool_false | intros; by apply Qlt_bool_true, H2].
Qed.

Lemma fold_pick_greatest {A} (μ : A -> Q) l x0 :
  let r := fold_left (pick (fun a b => Qgt_bool (μ a) (μ b))) l x0 in
  ∃ i, (x0 :: l) !! i = Some r ∧
    ∀ j y, (x0 :: l) !! j = Some y → (μ y <= μ r)%Q ∧ (i < j → (μ y < μ r)%Q).
Proof.
  intros r.
  destruct (fold_pick_spec (fun a b => Qgt_bool (μ a) (μ b))) with (l := l) (x0 := x0)
    as (i & Hi & Hall).
  - intros a b. unfold Qgt_bool. rewrite Qlt_bool_true, Qlt_bool_false. apply Qlt_le_weak.
  - intros a b c. unfold Qgt_bool. rewrite !Qlt_bool_false. intros H1 H2.
    exact (Qle_trans _ _ _ H1 H2).
  - exists i. split; [done|]. intros j y Hy. destruct (Hall j y Hy) as [H1 H2].
    unfold Qgt_bool in *.
    split; [by apply Qlt_bool_false | intros; by apply Qlt_bool_true, H2].
Qed.

(** ** Running the matrix utilities *)

Lemma isRectangular_true {A} (matrix : list (list A)) n :
  Forall (fun row => length row = n) matrix → Matrix.isRectangular matrix = true.
Proof.
  intros H. unfold Matrix.isRectangular, every. apply forallb_forall.
  intros d [row [<- Hrow%list_elem_of_In]]%in_map_iff.
  destruct matrix as [|row0 m]; [by apply elem_of_nil in Hrow|].
  simpl. apply Nat.eqb_eq. rewrite Forall_forall in H.
  rewrite (H row Hrow). symmetry. apply H. by left.
Qed.

Lemma rowTimes_is_Some row vector sum :
  length row ≤ length vector → is_Some (Matrix.rowTimes row vector sum).
Proof.
  revert vector sum. induction row as [|r row IH]; intros [|v vector] sum Hlen;
    simpl in *; eauto; [lia|]. apply IH. lia.
Qed.

Lemma matVecMul_run matrix vector s :
  matrix ≠ [] →
  Forall (fun row => length row = length vector) matrix →
  ∃ vec, Matrix.matVecMul matrix vector s = (Ok vec, s) ∧ length vec = length matrix.
Proof.
  intros Hne Hrows. unfold Matrix.matVecMul.
  rewrite (isRectangular_true _ _ Hrows).
  destruct matrix as [|row0 m]; [done|].
  pose proof (Forall_inv Hrows) as H0. simpl in H0.
  apply Nat.eqb_eq in H0.
  destruct (mapM (fun row => Matrix.rowTimes row vector 0%Q) (row0 :: m)) as [vec|] eqn:E.
  - exists vec. split.
    + by rewrite H0.
    + symmetry. by eapply length_mapM.
  - exfalso. apply mapM_None_1 in E. apply Exists_exists in E as (row & Hin & Hnone).
    rewrite Forall_forall in Hrows. specialize (Hrows row Hin).
    destruct (rowTimes_is_Some row vector 0%Q) as [q Hq]; [lia | congruence].
Qed.

(** ** Running [getRecommendationVector] *)

Lemma lookup_app_plus {A} (h l : list A) i : (h ++ l) !! (length h + i) = l !! i.
Proof. rewrite lookup_app_r by lia. f_equal. lia. Qed.

Lemma cloneDeep_run s rnet o net rs :
  rated_network s rnet o net rs →
  let n := length (heap s) in
  cloneDeep rnet s =
    (Ok (n + 2),
     set_heap (heap s ++ [CMatrix net; CRatings rs;
                          CNet (mkRatedNetwork (nNodes o) n (n + 1) (lower o) (upper o))]) s).
Proof.
  intros (Ho & Hnet & Hrs) n. unfold cloneDeep.
  rewrite (bind_ok _ _ _ _ _ (loadNet_run _ _ _ Ho)).
  rewrite (bind_ok _ _ _ _ _ (loadMatrix_run _ _ _ Hnet)).
  rewrite (bind_ok _ _ _ _ _ (loadRatings_run _ _ _ Hrs)).
  unfold mbind, M_bind, alloc. simpl. rewrite !length_app. simpl.
  rewrite <- !app_assoc. simpl. subst n.
  rewrite !set_heap_set_heap. do 2 f_equal. lia.
Qed.

Lemma getRecommendationVector_run this s rnet o net rs :
  rated_network s rnet o net rs →
  well_shaped o net rs →
  0 < nNodes o →
  let n := length (heap s) in
  ∃ vec,
    length vec = nNodes o ∧
    getRecommendationVector this rnet s =
      (Ok (n + 3),
       set_heap (heap s ++ [CMatrix net; CRatings rs;
                            CNet (mkRatedNetwork (nNodes o) n (n + 1) (lower o) (upper o));
                            CNums vec]) s).
Proof.
  intros Hrn (Hlen & Hrows & Hrs) Hpos n. unfold getRecommendationVector.
  rewrite (bind_ok _ _ _ _ _ (cloneDeep_run _ _ _ _ _ Hrn)). fold n.
  set (o' := mkRatedNetwork _ _ _ _ _).
  set (s1 := set_heap _ s).
  assert (H2 : heap s1 !! (n + 2) = Some (CNet o')).
  { unfold s1, n. simpl. by rewrite lookup_app_plus. }
  assert (H0 : heap s1 !! network o' = Some (CMatrix net)).
  { simpl. by apply list_lookup_middle. }
  assert (H1 : heap s1 !! ratings o' = Some (CRatings rs)).
  { unfold s1, o', n. simpl. by rewrite lookup_app_plus. }
  rewrite (bind_ok _ _ _ _ _ (loadNet_run _ _ _ H2)).
  rewrite (bind_ok _ _ _ _ _ (loadMatrix_run _ _ _ H0)).
  rewrite (bind_ok _ _ _ _ _ (loadRatings_run _ _ _ H1)).
  match goal with |- context [Matrix.matVecMul ?m ?v] =>
    destruct (matVecMul_run m v s1) as (vec & Hrun & Hvec) end.
  { destruct net; simpl in *; [lia | done]. }
  { rewrite !length_map. apply Forall_forall. intros row' [row [<- Hin]]%list_elem_of_In%in_map_iff.
    rewrite length_map. rewrite Forall_forall in Hrows.
    rewrite (Hrows row); [lia | by apply list_elem_of_In]. }
  exists vec. split.
  { rewrite Hvec, length_map. done. }
  rewrite (bind_ok _ _ _ _ _ Hrun).
  unfold alloc, s1. simpl. rewrite length_app. simpl.
  rewrite <- app_assoc. simpl. done.
Qed.

(** ** The greedy algorithm *)

Lemma length_mask rs vec x : length (mask rs vec x) = length vec.
Proof.
  revert vec. induction rs as [|[q|] rs IH]; intros [|e vec]; simpl; auto.
Qed.

Lemma mask_lookup_rated rs vec x j q :
  rs !! j = Some (Some q) → j < length vec → mask rs vec x !! j = Some x.
Proof.
  revert vec j. induction rs as [|r rs IH]; intros vec j Hr Hl; [done|].
  destruct vec as [|e vec]; [simpl in Hl; lia|].
  destruct j as [|j]; simpl in *.
  - by injection Hr as ->.
  - destruct r; simpl; apply IH; auto; lia.
Qed.

Lemma mask_lookup_unrated rs vec x j :
  rs !! j = Some None → mask rs vec x !! j = vec !! j.
Proof.
  revert vec j. induction rs as [|r rs IH]; intros vec j Hr; [done|].
  destruct vec as [|e vec]; [by destruct r|].
  destruct j as [|j]; simpl in *.
  - by injection Hr as ->.
  - destruct r; simpl; by apply IH.
Qed.

Lemma writeNum_run s rv pre e vec x :
  heap s !! rv = Some (CNums (pre ++ e :: vec)) →
  writeNum rv (length pre + 0) x s =
    (Ok tt, set_heap (<[rv := CNums (pre ++ x :: vec)]> (heap s)) s).
Proof.
  intros H. unfold writeNum.
  rewrite (bind_ok _ _ _ _ _ (loadNums_run _ _ _ H)).
  unfold array_set. rewrite decide_True by (rewrite length_app; simpl; lia).
  rewrite insert_app_r_alt by lia.
  replace (length pre + 0 - length pre) with 0 by lia. simpl.
  apply store_run. by eapply lookup_lt_Some.
Qed.

Lemma greedy_loop rv x rs :
  ∀ k pre vec s i0,
    heap s !! rv = Some (CNums (pre ++ vec)) →
    length pre = k →
    length rs ≤ length vec →
    forEach_from
      (fun (p : nat * Rating) (_ : nat) =>
         match snd p with
         | Some _ => writeNum rv (fst p) x
         | None => mret tt
         end) i0 (imap (fun j r => (k + j, r)) rs) s
    = (Ok tt, set_heap (<[rv := CNums (pre ++ mask rs vec x)]> (heap s)) s).
Proof.
  induction rs as [|r rs IH]; intros k pre vec s i0 Hrv Hk Hlen.
  - simpl. rewrite list_insert_id by done. by rewrite set_heap_id.
  - destruct vec as [|e vec]; [simpl in Hlen; lia|].
    rewrite imap_cons.
    rewrite (imap_ext _ (fun j r => (S k + j, r))) by (intros; simpl; f_equal; lia).
    simpl in Hlen. subst k. destruct r as [q|]; simpl.
    + rewrite (bind_ok _ _ _ _ _ (writeNum_run _ _ _ _ _ x Hrv)).
      rewrite (IH (S (length pre)) (pre ++ [x]) vec).
      * simpl. rewrite list_insert_insert_eq, set_heap_set_heap.
        by rewrite <- app_assoc.
      * simpl. rewrite list_lookup_insert_eq by (by eapply lookup_lt_Some).
        by rewrite <- app_assoc.
      * rewrite length_app. simpl. lia.
      * lia.
    + unfold mbind at 1, M_bind at 1. simpl.
      rewrite (IH (S (length pre)) (pre ++ [e]) vec).
      * by rewrite <- app_assoc.
      * by rewrite <- app_assoc.
      * rewrite length_app. simpl. lia.
      * lia.
Qed.

Lemma minimum_le vec y : y ∈ vec → (minimum vec <= y)%Q.
Proof.
  intros Hy. destruct vec as [|x0 l]; [by apply elem_of_nil in Hy|].
  unfold minimum. simpl.
  destruct (fold_pick_least (fun q : Q => q) l x0) as (i & _ & Hall).
  apply list_elem_of_lookup in Hy as [j Hj].
  by destruct (Hall j y Hj).
Qed.

Lemma reduce_better_last_maximum v x0 l :
  v = x0 :: l →
  ∃ i e, fold_left GreedyRecommendationAlgorithm.better (tl (entries v)) (0, x0) = (i, e) ∧
         v !! i = Some e ∧
         ∀ j y, v !! j = Some y → (y <= e)%Q ∧ (i < j → (y < e)%Q).
Proof.
  intros ->.
  destruct (fold_pick_greatest (snd : nat * Q -> Q) (tl (entries (x0 :: l))) (0, x0))
    as (i & Hi & Hall).
  change ((0, x0) :: tl (entries (x0 :: l))) with (entries (x0 :: l)) in *.
  set (r := fold_left _ _ _) in *.
  unfold entries in Hi. rewrite list_lookup_imap in Hi.
  destruct ((x0 :: l) !! i) as [e|] eqn:E; [|done]. simpl in Hi.
  exists i, e. split; [by injection Hi|]. split; [done|].
  intros j y Hy.
  destruct (Hall j (j, y)) as [H1 H2].
  { unfold entries. by rewrite list_lookup_imap, Hy. }
  injection Hi as <-. simpl in *. done.
Qed.

Lemma greedy_run this s rnet o net rs :
  rated_network s rnet o net rs →
  well_shaped o net rs →
  0 < nNodes o →
  ∃ rv s1 vec i s',
    getRecommendationVector this rnet s = (Ok rv, s1) ∧
    heap s1 !! rv = Some (CNums vec) ∧
    length vec = nNodes o ∧
    GreedyRecommendationAlgorithm.recommend this rnet s = (Ok i, s') ∧
    last_maximum (mask rs vec (sub64 (minimum vec) 1)) i.
Proof.
  intros Hrn Hws Hpos.
  destruct (getRecommendationVector_run this s rnet o net rs Hrn Hws Hpos)
    as (vec & Hlen & Hrun).
  destruct Hrn as (Ho & Hnet & Hrs). destruct Hws as (_ & _ & Hrslen).
  set (n := length (heap s)) in *. set (s1 := set_heap _ s) in *.
  assert (Hrv : heap s1 !! (n + 3) = Some (CNums vec)).
  { unfold s1, n. simpl. by rewrite lookup_app_plus. }
  assert (Ho1 : heap s1 !! rnet = Some (CNet o)).
  { unfold s1. simpl. rewrite lookup_app_l; [done | by eapply lookup_lt_Some]. }
  assert (Hrs1 : heap s1 !! ratings o = Some (CRatings rs)).
  { unfold s1. simpl. rewrite lookup_app_l; [done | by eapply lookup_lt_Some]. }
  set (x := (sub64 (minimum vec) 1)).
  set (s2 := set_heap (<[n + 3 := CNums (mask rs vec x)]> (heap s1)) s1).
  assert (Hloop :
    forEach (fun (p : nat * Rating) (_ : nat) =>
               match snd p with
               | Some _ => writeNum (n + 3) (fst p) x
               | None => mret tt
               end) (entries rs) s1 = (Ok tt, s2)).
  { apply (greedy_loop (n + 3) x rs 0 [] vec s1 0); [done | done | lia]. }
  assert (Hrv2 : heap s2 !! (n + 3) = Some (CNums (mask rs vec x))).
  { unfold s2. simpl. apply list_lookup_insert_eq. by eapply lookup_lt_Some. }
  destruct (mask rs vec x) as [|x0 l] eqn:Emask.
  { apply (f_equal length) in Emask. rewrite length_mask in Emask. simpl in Emask. lia. }
  destruct (reduce_better_last_maximum (x0 :: l) x0 l eq_refl) as (i & e & Hfold & Hi & Hall).
  exists (n + 3), s1, vec, i, s2. repeat split; try done.
  - unfold GreedyRecommendationAlgorithm.recommend.
    rewrite (bind_ok _ _ _ _ _ Hrun).
    rewrite (bind_ok _ _ _ _ _ (loadNums_run _ _ _ Hrv)).
    destruct vec as [|v0 vec']; [simpl in Hlen; lia|].
    rewrite (bind_ok _ _ _ _ _ (reduce_run _ _ _ _)).
    change (fold_left (pick Qlt_bool) vec' v0) with (minimum (v0 :: vec')).
    fold x.
    rewrite (bind_ok _ _ _ _ _ (loadNet_run _ _ _ Ho1)).
    rewrite (bind_ok _ _ _ _ _ (loadRatings_run _ _ _ Hrs1)).
    rewrite (bind_ok _ _ _ _ _ Hloop).
    rewrite (bind_ok _ _ _ _ _ (loadNums_run _ _ _ Hrv2)).
    unfold entries. rewrite imap_cons.
    rewrite (bind_ok _ _ _ _ _ (reduce_run _ _ _ _)).
    simpl in Hfold. unfold entries in Hfold. by rewrite Hfold.
  - fold x. rewrite Emask. by exists e.
Qed.

(** C1.  The code can return a rated item.  On the matrix
    [[0, 0], [0, 4e17]] with ratings [null, 5] the constructor succeeds
    (bounds 0 and 4e17) and item 0 is unrated; the scores are [-5e17] and
    [5e17]; the score that is to remove the rated item 1, [minVal - 1], is
    [-5e17 - 1], which is [-5e17] in binary64: no lower than the score of
    item 0.  The two scores tie and the greedy algorithm returns item 1,
    the rated one. *)
Theorem greedy_recommends_rated_item :
  ∃ s rv s1,
    RatedNetwork.constructor 0 1 None None largeStore = (Ok 2, s) ∧
    (RatedNetwork.hasUnrated 2 s).1 = Ok true ∧
    getRecommendationVector defaultAlgorithm 2 s = (Ok rv, s1) ∧
    heap s1 !! rv = Some (CNums [-500000000000000000; 500000000000000000]%Q) ∧
    sub64 (-500000000000000000) 1 = (-500000000000000000)%Q ∧
    (GreedyRecommendationAlgorithm.recommend defaultAlgorithm 2 s).1 = Ok 1 ∧
    largeRatings !! 1 = Some (Some 5%Q).
Proof.
  eexists _, _, _. split; [vm_compute; reflexivity|].
  split; [vm_compute; reflexivity|].
  split; [vm_compute; reflexivity|].
  split; [vm_compute; reflexivity|].
  split; [vm_compute; reflexivity|].
  split; [vm_compute; reflexivity | reflexivity].
Qed.


Lemma scenario_constructed :
  RatedNetwork.constructor 0 1 None None scenarioStore = (Ok 2, scenarioNetwork).
Proof. reflexivity. Qed.

Lemma scenario_rated_network :
  rated_network scenarioNetwork 2 scenarioFields scenarioMatrix scenarioRatings.
Proof. repeat split. Defined.

Lemma scenario_well_shaped :
  well_shaped scenarioFields scenarioMatrix scenarioRatings.
Proof. repeat split. repeat constructor. Defined.






Lemma recommend_leaves_rated_network_unchanged_witness :
  rated_network
    (GreedyRecommendationAlgorithm.recommend defaultAlgorithm 2 scenarioNetwork).2
    2 scenarioFields scenarioMatrix scenarioRatings ∧
  rated_network
    (ProbabilisticRecommendationAlgorithm.recommend defaultAlgorithm 2 scenarioNetwork).2
    2 scenarioFields scenarioMatrix scenarioRatings.
Proof.
  exact (recommend_leaves_rated_network_unchanged defaultAlgorithm 2 scenarioNetwork
           scenarioFields scenarioMatrix scenarioRatings scenario_rated_network).
Defined.


(** The scores are those of the rounded arithmetic.  In the network of
    [recommender-test.ts] with items 1 and 4 unrated and the others rated
    with two stars, the two rows hold the same numbers in another order;
    the sums come out as [0.5] and [0.49999999999999994], and the greedy
    algorithm returns item 1. *)
Lemma greedy_on_adjacency :
  ∃ s rv s1,
    RatedNetwork.constructor 0 1 None None adjacencyStore = (Ok 2, s) ∧
    getRecommendationVector defaultAlgorithm 2 s = (Ok rv, s1) ∧
    heap s1 !! rv = Some (CNums [3 # 4; 1 # 2; 3 # 4; 3 # 4;
                                 9007199254740991 # 18014398509481984; 3 # 4]%Q) ∧
    (GreedyRecommendationAlgorithm.recommend defaultAlgorithm 2 s).1 = Ok 1.
Proof.
  eexists _, _, _. split; [vm_compute; reflexivity|].
  split; [vm_compute; reflexivity|]. split; vm_compute; reflexivity.
Qed.

(** C8.  In the three-item scenario (matrix at location 0, ratings
    [[5, null, null]] at location 1), building the rated network without
    declared bounds and asking the greedy algorithm for a recommendation
    gives item 1, whatever the console and [Math.random] hold. *)
Theorem scenario_recommends_item_1 lines random count :
  ((rnet ← RatedNetwork.constructor 0 1 None None;
    GreedyRecommendationAlgorithm.recommend defaultAlgorithm rnet)
     (mkState [CMatrix scenarioMatrix; CRatings scenarioRatings] lines random count)).1
  = Ok 1.
Proof. vm_compute. reflexivity. Qed.

(** ** [RatedNetwork] *)

Lemma every_rated_false (rs : list Rating) k :
  rs !! k = Some None → every (fun r => bool_decide (r ≠ None)) rs = false.
Proof.
  intros Hk. unfold every. destruct (forallb _ rs) eqn:E; [|done].
  rewrite forallb_forall in E.
  specialize (E None (proj1 (list_elem_of_In _ _) (list_elem_of_lookup_2 _ _ _ Hk))).
  by apply bool_decide_eq_true in E.
Qed.

(** C10.  [addRating(i, null)] with [0 <= i < nNodes] succeeds, stores [null]
    at index [i] of the rating array of the network and changes nothing else
    of it; afterwards [hasUnrated()] returns [true]. *)
Theorem addRating_null_makes_unrated s this o net rs i :
  rated_network s this o net rs →
  length rs = nNodes o →
  (0 <= i < Z.of_nat (nNodes o))%Z →
  ∃ s', RatedNetwork.addRating this i None s = (Ok tt, s') ∧
        rated_network s' this o net (<[Z.to_nat i := None]> rs) ∧
        <[Z.to_nat i := None]> rs !! Z.to_nat i = Some None ∧
        (RatedNetwork.hasUnrated this s').1 = Ok true.
Proof.
  intros (Ho & Hnet & Hrs) Hlen Hi.
  assert (Hlt : Z.to_nat i < length rs) by lia.
  assert (Hrl : ratings o < length (heap s)) by (by eapply lookup_lt_Some).
  set (rs' := <[Z.to_nat i := None]> rs).
  set (s' := set_heap (<[ratings o := CRatings rs']> (heap s)) s).
  assert (Hnew : rs' !! Z.to_nat i = Some None) by (by apply list_lookup_insert_eq).
  assert (Ho' : heap s' !! this = Some (CNet o)).
  { unfold s'. simpl. rewrite list_lookup_insert_ne; [done | congruence]. }
  assert (Hrs' : heap s' !! ratings o = Some (CRatings rs')).
  { unfold s'. simpl. by apply list_lookup_insert_eq. }
  exists s'. repeat split; try done.
  - unfold RatedNetwork.addRating.
    rewrite (bind_ok _ _ _ _ _ (loadNet_run _ _ _ Ho)).
    replace (Z.leb 0 i && Z.ltb i (Z.of_nat (nNodes o))) with true
      by (symmetry; apply andb_true_iff; split; [apply Z.leb_le | apply Z.ltb_lt]; lia).
    unfold assert. unfold mbind at 1, M_bind at 1, mret at 1, M_ret at 1.
    rewrite (bind_ok _ _ _ _ _ (loadRatings_run _ _ _ Hrs)).
    unfold array_set. rewrite decide_True by done.
    unfold fromOption. unfold mbind at 1, M_bind at 1, mret at 1, M_ret at 1.
    by apply store_run.
  - unfold s'. simpl. rewrite list_lookup_insert_ne; [done | congruence].
  - unfold RatedNetwork.hasUnrated.
    rewrite (bind_ok _ _ _ _ _ (loadNet_run _ _ _ Ho')).
    rewrite (bind_ok _ _ _ _ _ (loadRatings_run _ _ _ Hrs')).
    simpl. by rewrite (every_rated_false _ _ Hnew).
Qed.

Lemma addRating_null_makes_unrated_witness :
  (RatedNetwork.hasUnrated 2 ratedNetworkStore).1 = Ok false ∧
  ∃ s', RatedNetwork.addRating 2 1 None ratedNetworkStore = (Ok tt, s') ∧
        rated_network s' 2 scenarioFields scenarioMatrix (<[1 := None]> ratedRatings) ∧
        <[1 := None]> ratedRatings !! 1 = Some None ∧
        (RatedNetwork.hasUnrated 2 s').1 = Ok true.
Proof.
  split; [reflexivity|].
  apply (addRating_null_makes_unrated ratedNetworkStore 2 scenarioFields
           scenarioMatrix ratedRatings 1).
  - repeat split.
  - reflexivity.
  - simpl. lia.
Defined.

(** ** [cleanRatings] and [vectorDist] *)

(** C2 (the code departs from it).  For a user whose stored ratings are
    [[5, null]], [cleanRatings] returns that very array, still holding
    [null], where the claim expects a numeric vector [[5, 0]]; the store is
    left as it was. *)
Theorem cleanRatings_keeps_null :
  ProfileLearner.cleanRatings [3] oneUserStore = (Ok [inr 1], oneUserStore) ∧
  loadRatings 1 oneUserStore = (Ok [Some 5%Q; None], oneUserStore).
Proof. split; reflexivity. Qed.

(** C5 (the code departs from it).  On vectors of lengths 1 and 2,
    [vectorDist] writes the message of [console.assert] and returns a
    distance; it does not fail. *)
Theorem vectorDist_returns_on_length_mismatch :
  (Matrix.vectorDist [Num 3] [Num 3; Num 4] scenarioStore).1 = Ok (Math_sqrt 0) ∧
  console (Matrix.vectorDist [Num 3] [Num 3; Num 4] scenarioStore).2 =
    ["Assertion failed: v1 and v2 must be the same length"].
Proof. split; reflexivity. Qed.

Lemma vectorDist_never_throws v1 v2 s e :
  (Matrix.vectorDist v1 v2 s).1 ≠ Fail (Thrown e).
Proof.
  unfold Matrix.vectorDist, console_assert, mbind, M_bind.
  destruct (Nat.eqb _ _); destruct (Matrix.sumSquares v1 v2 0%Q); simpl; congruence.
Qed.

(** ** [isEqual] *)

Lemma Qeq_bool_true a b : Qeq_bool a b = true ↔ (a == b)%Q.
Proof. apply Qeq_bool_iff. Qed.

Lemma rowEqual_num r1 r2 :
  length r1 = length r2 →
  Matrix.rowEqual (map Num r1) (map Num r2) = true ↔ Forall2 Qeq r1 r2.
Proof.
  revert r2. induction r1 as [|x r1 IH]; intros [|y r2] Hlen; simpl in *; try lia.
  - split; [constructor | done].
  - rewrite andb_true_iff, Qeq_bool_true, IH by lia. split.
    + intros [? ?]. by constructor.
    + intros H. by inversion H.
Qed.

Lemma rowsEqual_num m1 m2 :
  same_shape m1 m2 →
  ∃ b, (∀ s, Matrix.rowsEqual (numMatrix m1) (numMatrix m2) s = (Ok b, s)) ∧
       (b = true ↔ all_equal m1 m2).
Proof.
  induction 1 as [|r1 r2 m1 m2 Hr Hm (b & Hrun & Hb)].
  - exists true. split; [done|]. split; [constructor | done].
  - destruct (Matrix.rowEqual (map Num r1) (map Num r2)) eqn:E.
    + exists b. split.
      * intros s. simpl. rewrite E. destruct r1; apply Hrun.
      * rewrite Hb. apply rowEqual_num in E; [|done]. split.
        -- intros. by constructor.
        -- intros H. by inversion H.
    + exists false. split.
      * intros s. simpl. rewrite E. by destruct r1.
      * split; [done|]. intros H. inversion H as [|? ? ? ? Hrow]; subst.
        apply rowEqual_num in Hrow; [congruence | done].
Qed.

Lemma console_assert_ok b msg s : ∃ s', console_assert b msg s = (Ok tt, s').
Proof. unfold console_assert. destruct b; eauto. Qed.

Lemma isEqual_num m1 m2 s :
  same_shape m1 m2 →
  ∃ b, (Matrix.isEqual (numMatrix m1) (numMatrix m2) s).1 = Ok b ∧
       (b = true ↔ all_equal m1 m2).
Proof.
  intros Hshape. destruct (rowsEqual_num m1 m2 Hshape) as (b & Hrun & Hb).
  exists b. split; [|done]. unfold Matrix.isEqual.
  destruct (console_assert_ok
    (Nat.eqb (length (numMatrix m1)) (length (numMatrix m2)))
    "m1 and m2 should have the same length" s) as [s1 H1].
  rewrite (bind_ok _ _ _ _ _ H1).
  destruct (console_assert_ok
    (every (fun v => negb (Nat.eqb (length v) 0)) (numMatrix m2))
    "m1 and m2 should have same 2nd dimension" s1) as [s2 H2].
  rewrite (bind_ok _ _ _ _ _ H2). by rewrite Hrun.
Qed.

Lemma same_shape_refl m : same_shape m m.
Proof. induction m; by constructor. Qed.

Lemma all_equal_refl m : all_equal m m.
Proof.
  induction m as [|r m IH]; constructor; [|done].
  induction r; constructor; [reflexivity | done].
Qed.

(** On matrices of numbers of the same shape, [isEqual] returns a boolean,
    which is [true] exactly when all corresponding elements are equal; on a
    matrix and itself it returns [true]. *)
Lemma isEqual_same_shape m1 m2 s :
  same_shape m1 m2 →
  (∃ b, (Matrix.isEqual (numMatrix m1) (numMatrix m2) s).1 = Ok b ∧
        (b = true ↔ all_equal m1 m2)) ∧
  (Matrix.isEqual (numMatrix m1) (numMatrix m1) s).1 = Ok true.
Proof.
  intros Hshape. split; [by apply isEqual_num|].
  destruct (isEqual_num m1 m1 s (same_shape_refl m1)) as (b & Hrun & Hb).
  rewrite Hrun. f_equal. apply Hb, all_equal_refl.
Qed.

(** C6.  [isEqual] returns [true] on a 1x1 and a 1x2 matrix, which do not
    have identical dimensions, and prints nothing: the first check compares
    the numbers of rows only, and the second, which should compare the
    lengths of corresponding rows, assigns [m2[i].length] to itself and
    passes; the loops then compare the positions of [m1] only. *)
Theorem isEqual_true_on_different_shapes :
  Matrix.isEqual (numMatrix [[1%Q]]) (numMatrix [[1%Q; 2%Q]]) scenarioStore
    = (Ok true, scenarioStore) ∧
  ¬ same_shape [[1%Q]] [[1%Q; 2%Q]].
Proof.
  split; [reflexivity|]. intros H. inversion H as [|? ? ? ? Hlen]; subst. simpl in Hlen. lia.
Qed.

(** ** The assignment step of K-Means *)




Lemma sumSquares_num v1 v2 acc :
  length v1 ≤ length v2 →
  is_Some (Matrix.sumSquares (map Num v1) (map Num v2) acc).
Proof.
  revert v2 acc. induction v1 as [|x v1 IH]; intros [|y v2] acc Hlen; simpl in *;
    eauto; [lia|]. apply IH. lia.
Qed.



(** The distances are those of the rounded arithmetic.  From [[0, 0]] the
    means [[1, 0]] and [[1, 2^-26]] are both at the computed distance 1
    (the radicand [1 + 2^-52] has the rounded root 1), and the assignment
    step gives cluster 1. *)
Lemma assign_on_rounded_tie :
  (KMeansLearner.assign [[Num 1; Num 0]; [Num 1; Num (1 / 2 ^ 26)]] [Num 0; Num 0]
     scenarioStore).1 = Ok 1 ∧
  Root_value <$> distanceTo [[Num 1; Num 0]; [Num 1; Num (1 / 2 ^ 26)]] [Num 0; Num 0] 0
    = Some 1%Q ∧
  Root_value <$> distanceTo [[Num 1; Num 0]; [Num 1; Num (1 / 2 ^ 26)]] [Num 0; Num 0] 1
    = Some 1%Q.
Proof. repeat split; vm_compute; reflexivity. Qed.

(** ** Similarity matrices *)

Lemma fold_left_preserves {A B} (P : A -> Prop) (f : A -> B -> A) l a :
  P a → (∀ a x, x ∈ l → P a → P (f a x)) → P (fold_left f l a).
Proof.
  revert a. induction l as [|x l IH]; intros a Ha Hf; simpl; [done|].
  apply IH.
  - apply Hf; [by left | done].
  - intros a' y Hy. apply Hf. by right.
Qed.

Lemma entry_setEntry n m i j x a b :
  length m = n → Forall (fun row => length row = n) m → i < n → j < n →
  entry (ProfileLearner.setEntry m i j x) a b =
    if decide (a = i ∧ b = j) then Some x else entry m a b.
Proof.
  intros Hlen Hrows Hi Hj. unfold entry, ProfileLearner.setEntry.
  rewrite list_lookup_alter.
  destruct (decide (i = a)) as [<-|Hne].
  - destruct (m !! i) as [row|] eqn:Erow; simpl.
    + rewrite list_lookup_insert.
      assert (length row = n) as Hr.
      { rewrite Forall_lookup in Hrows. by eapply Hrows. }
      repeat destruct (decide _); try done; intuition lia.
    + apply lookup_ge_None in Erow. lia.
  - destruct (decide _); [intuition congruence | done].
Qed.

Lemma shape_setEntry n m i j x :
  length m = n → Forall (fun row => length row = n) m →
  length (ProfileLearner.setEntry m i j x) = n ∧
  Forall (fun row => length row = n) (ProfileLearner.setEntry m i j x).
Proof.
  intros Hlen Hrows. unfold ProfileLearner.setEntry. split.
  - by rewrite length_alter.
  - apply Forall_alter; [done|]. intros row _ Hr. by rewrite length_insert.
Qed.

Lemma fillPair_inv this meanVector n m i j :
  similarity_inv n m → i < n → j < n → i ≠ j →
  similarity_inv n (ProfileLearner.fillPair this meanVector i m j).
Proof.
  intros (Hlen & Hrows & Hsym & Hdiag) Hi Hj Hne. unfold ProfileLearner.fillPair.
  set (x := similarityFunction this _ _).
  destruct (shape_setEntry n m i j x Hlen Hrows) as [Hlen1 Hrows1].
  destruct (shape_setEntry n _ j i x Hlen1 Hrows1) as [Hlen2 Hrows2].
  assert (He : ∀ a b,
    entry (ProfileLearner.setEntry (ProfileLearner.setEntry m i j x) j i x) a b =
      if decide (a = j ∧ b = i) then Some x
      else if decide (a = i ∧ b = j) then Some x else entry m a b).
  { intros a b. rewrite (entry_setEntry n) by done.
    case_decide; [done|]. by rewrite (entry_setEntry n). }
  repeat split; try done.
  - intros a b. rewrite !He, (Hsym a b).
    repeat destruct (decide _); try done; intuition (subst; first [lia | congruence]).
  - intros a Ha. rewrite He, Hdiag by lia.
    repeat destruct (decide _); try done; intuition (subst; first [lia | congruence]).
Qed.

Lemma fillRow_inv this meanVector m i :
  similarity_inv (length meanVector) m →
  similarity_inv (length meanVector) (ProfileLearner.fillRow this meanVector m i).
Proof.
  intros Hinv. unfold ProfileLearner.fillRow.
  apply (fold_left_preserves (similarity_inv (length meanVector))); [done|].
  intros m' j [Hj1 Hj2]%elem_of_seq Hm'. apply fillPair_inv; [done | lia | lia | lia].
Qed.

Lemma entry_zeros n i j :
  entry (Matrix.twoDimArray n n 0%Q) i j =
    if decide (i < n ∧ j < n) then Some 0%Q else None.
Proof.
  unfold entry, Matrix.twoDimArray. case_decide as H.
  - destruct H. rewrite lookup_replicate_2 by done. simpl. by apply lookup_replicate_2.
  - destruct (decide (i < n)).
    + rewrite lookup_replicate_2 by done. simpl. apply lookup_replicate_None. lia.
    + replace (replicate n (replicate n 0%Q) !! i) with (@None (list Q)); [done|].
      symmetry. apply lookup_replicate_None. lia.
Qed.

Lemma zeros_inv n : similarity_inv n (Matrix.twoDimArray n n 0%Q).
Proof.
  repeat split.
  - apply length_replicate.
  - apply Forall_replicate, length_replicate.
  - intros i j. rewrite !entry_zeros. repeat destruct (decide _); try done; intuition (subst; first [lia | congruence]).
  - intros i Hi. unfold Matrix.twoDimArray in Hi. rewrite length_replicate in Hi.
    rewrite entry_zeros. by rewrite decide_True.
Qed.

Lemma meanVectorsToSimilarityMatrix_inv this meanVector :
  similarity_inv (length meanVector)
    (ProfileLearner.meanVectorsToSimilarityMatrix this meanVector).
Proof.
  unfold ProfileLearner.meanVectorsToSimilarityMatrix.
  apply (fold_left_preserves (similarity_inv (length meanVector))).
  - apply zeros_inv.
  - intros m i _ Hm. by apply fillRow_inv.
Qed.

Lemma zero_diagonal_never_one m : zero_diagonal m → diagonal_never_one m.
Proof.
  intros Hz i x Hx.
  assert (i < length m) as Hi.
  { unfold entry in Hx. destruct (m !! i) eqn:E; [by eapply lookup_lt_Some | done]. }
  rewrite (Hz i Hi) in Hx. injection Hx as <-. done.
Qed.

Lemma meanVectorsToSimilarityMatrix_learned this meanVector :
  learned_profile (ProfileLearner.meanVectorsToSimilarityMatrix this meanVector).
Proof.
  destruct (meanVectorsToSimilarityMatrix_inv this meanVector) as (_ & _ & Hs & Hz).
  repeat split; [done | done | by apply zero_diagonal_never_one].
Qed.

(** ** The learners *)

Lemma mapM_run_Forall {A B} (f : A -> M B) (P : B -> Prop) l :
  (∀ x s y s', f x s = (Ok y, s') → P y) →
  ∀ s ys s', mapM f l s = (Ok ys, s') → Forall P ys.
Proof.
  intros Hf. induction l as [|x l IH]; intros s ys s' H; simpl in H.
  - injection H as <- _. constructor.
  - apply bind_inv in H as (y & s1 & Hy & H).
    apply bind_inv in H as (k & s2 & Hk & H).
    injection H as <- _. constructor; eauto.
Qed.

Lemma AverageLearner_learned this users s profiles :
  (AverageLearner.learnProfile this users s).1 = Ok profiles →
  Forall learned_profile profiles.
Proof.
  destruct (AverageLearner.learnProfile this users s) as [r s'] eqn:H.
  simpl. intros ->. unfold AverageLearner.learnProfile in H.
  do 6 (apply bind_inv in H as (? & ? & _ & H)).
  injection H as <- _. repeat constructor; apply meanVectorsToSimilarityMatrix_learned.
Qed.

Lemma KMeansLearner_learned this fuel users parameters s profiles :
  (KMeansLearner.learnProfile this fuel users parameters s).1 = Ok profiles →
  Forall learned_profile profiles.
Proof.
  destruct (KMeansLearner.learnProfile this fuel users parameters s) as [r s'] eqn:H.
  simpl. intros ->. unfold KMeansLearner.learnProfile in H.
  destruct parameters as [k|]; [|done].
  do 9 (apply bind_inv in H as (? & ? & _ & H)).
  revert H. apply mapM_run_Forall.
  intros v s0 p s1 H. apply bind_inv in H as (v' & ? & _ & H).
  injection H as <- _. apply meanVectorsToSimilarityMatrix_learned.
Qed.

(** C9.  The matrix [meanVectorsToSimilarityMatrix] builds from a mean
    vector of length N is N x N, symmetric and zero on the diagonal; and
    every profile that [AverageLearner.learnProfile] or
    [KMeansLearner.learnProfile] returns is symmetric with a diagonal of
    zeros, never the similarity 1 of two equal ratings. *)
Theorem learned_profiles_symmetric_zero_diagonal this :
  (∀ meanVector,
     similarity_inv (length meanVector)
       (ProfileLearner.meanVectorsToSimilarityMatrix this meanVector)) ∧
  (∀ users s profiles,
     (AverageLearner.learnProfile this users s).1 = Ok profiles →
     Forall learned_profile profiles) ∧
  (∀ fuel users parameters s profiles,
     (KMeansLearner.learnProfile this fuel users parameters s).1 = Ok profiles →
     Forall learned_profile profiles).
Proof.
  split; [apply meanVectorsToSimilarityMatrix_inv|].
  split; [apply AverageLearner_learned | apply KMeansLearner_learned].
Qed.

Lemma learned_profiles_symmetric_zero_diagonal_witness :
  (∃ profiles,
     (AverageLearner.learnProfile exampleLearner [3; 7; 11] threeUsersStore).1
       = Ok profiles ∧
     length profiles = 1 ∧ Forall learned_profile profiles) ∧
  (∃ profiles,
     (KMeansLearner.learnProfile exampleLearner 10 [3; 7; 11] (Some 2) threeUsersStore).1
       = Ok profiles ∧
     length profiles = 2 ∧ Forall learned_profile profiles).
Proof.
  destruct (learned_profiles_symmetric_zero_diagonal exampleLearner) as (_ & Havg & Hk).
  split.
  - eexists. split; [vm_compute; reflexivity|]. split; [reflexivity|].
    apply (Havg [3; 7; 11] threeUsersStore). vm_compute. reflexivity.
  - eexists. split; [vm_compute; reflexivity|]. split; [reflexivity|].
    apply (Hk 10 [3; 7; 11] (Some 2) threeUsersStore). vm_compute. reflexivity.
Defined.

(** ** What the constructor of [RatedNetwork] establishes *)

Lemma load_inv l s c s' : load l s = (Ok c, s') → heap s !! l = Some c ∧ s' = s.
Proof. unfold load. destruct (heap s !! l); [|done]. by intros [= <- <-]. Qed.

Lemma loadMatrix_inv l s m s' :
  loadMatrix l s = (Ok m, s') → heap s !! l = Some (CMatrix m) ∧ s' = s.
Proof.
  intros H. apply bind_inv in H as (c & s1 & [Hc ->]%load_inv & H).
  destruct c; try done. by injection H as <- <-.
Qed.

Lemma loadRatings_inv l s rs s' :
  loadRatings l s = (Ok rs, s') → heap s !! l = Some (CRatings rs) ∧ s' = s.
Proof.
  intros H. apply bind_inv in H as (c & s1 & [Hc ->]%load_inv & H).
  destruct c; try done. by injection H as <- <-.
Qed.

Lemma loadNet_inv l s o s' :
  loadNet l s = (Ok o, s') → heap s !! l = Some (CNet o) ∧ s' = s.
Proof.
  intros H. apply bind_inv in H as (c & s1 & [Hc ->]%load_inv & H).
  destruct c; try done. by injection H as <- <-.
Qed.

Lemma loadUser_inv l s rn s' :
  loadUser l s = (Ok rn, s') → heap s !! l = Some (CUser rn) ∧ s' = s.
Proof.
  intros H. apply bind_inv in H as (c & s1 & [Hc ->]%load_inv & H).
  destruct c; try done. by injection H as <- <-.
Qed.

Lemma assert_inv b msg s u s' : assert b msg s = (Ok u, s') → b = true ∧ s' = s.
Proof. destruct b; [|done]. by intros [= _ <-]. Qed.

Lemma reduce_inv {A} (f : A -> A -> A) a s x s' : reduce f a s = (Ok x, s') → s' = s.
Proof. destruct a; [done|]. by intros [= _ <-]. Qed.

Lemma mapM_state {A B} (f : A -> M B) l :
  (∀ x s y s', f x s = (Ok y, s') → s' = s) →
  ∀ s ys s', mapM f l s = (Ok ys, s') → s' = s.
Proof.
  intros Hf. induction l as [|x l IH]; intros s ys s' H; simpl in H.
  - by injection H as _ <-.
  - apply bind_inv in H as (y & s1 & Hy & H).
    apply bind_inv in H as (k & s2 & Hk & H).
    injection H as _ <-. apply Hf in Hy as ->. by apply IH in Hk.
Qed.

Lemma twoDimReduce_state matrix f s q s' :
  Matrix.twoDimReduce matrix f s = (Ok q, s') → s' = s.
Proof.
  intros H. apply bind_inv in H as (rows & s1 & Hrows & H).
  apply reduce_inv in H as ->. revert Hrows. apply mapM_state.
  intros x s0 y s2. apply reduce_inv.
Qed.

Lemma constructor_builds_rated_network network ratings lo up s rnet s' :
  RatedNetwork.constructor network ratings lo up s = (Ok rnet, s') →
  ∃ o net rs,
    rated_network s' rnet o net rs ∧ well_shaped o net rs ∧
    0 < nNodes o ∧ (lower o < upper o)%Q ∧
    heap s' = heap s ++ [CNet o].
Proof.
  intros H. unfold RatedNetwork.constructor in H.
  apply bind_inv in H as (net & s1 & [Hnet ->]%loadMatrix_inv & H).
  apply bind_inv in H as (rs & s1 & [Hrs ->]%loadRatings_inv & H).
  apply bind_inv in H as (? & s1 & [Hsame ->]%assert_inv & H).
  apply bind_inv in H as (? & s1 & [Hsquare ->]%assert_inv & H).
  apply bind_inv in H as (? & s1 & [Hlen ->]%assert_inv & H).
  apply bind_inv in H as (lower & s1 & Hlower & H).
  assert (s1 = s) as ->.
  { destruct lo; [by injection Hlower as _ <-|].
    apply bind_inv in Hlower as (? & ? & ->%twoDimReduce_state & Hl).
    by injection Hl as _ <-. }
  apply bind_inv in H as (upper & s1 & Hupper & H).
  assert (s1 = s) as ->.
  { destruct up; [by injection Hupper as _ <-|].
    apply bind_inv in Hupper as (? & ? & ->%twoDimReduce_state & Hu).
    by injection Hu as _ <-. }
  apply bind_inv in H as (? & s1 & [Hlt ->]%assert_inv & H).
  injection H as <- <-.
  set (o := mkRatedNetwork _ _ _ _ _).
  assert (Hn : network < length (heap s)) by (by eapply lookup_lt_Some).
  assert (Hr : ratings < length (heap s)) by (by eapply lookup_lt_Some).
  apply Nat.eqb_eq in Hlen.
  destruct net as [|row0 net]; [done|]. simpl in Hsquare. apply Nat.eqb_eq in Hsquare.
  exists o, (row0 :: net), rs. repeat split; simpl.
  - by rewrite lookup_app_r, Nat.sub_diag.
  - by rewrite lookup_app_l.
  - by rewrite lookup_app_l.
  - unfold every in Hsame. rewrite forallb_forall in Hsame.
    apply Forall_forall. intros row Hrow.
    specialize (Hsame (length row)). simpl in Hsame.
    rewrite <- Hsquare. apply Nat.eqb_eq, Hsame.
    change (In (length row) (map length (row0 :: net))).
    by apply in_map, list_elem_of_In.
  - done.
  - lia.
  - by apply Qlt_bool_true.
Qed.

(** ** [cleanRatings] in general *)

Lemma mapM_reads {A B} (f : A -> M B) (P : A -> B -> Prop) l s :
  (∀ x y s', f x s = (Ok y, s') → s' = s ∧ P x y) →
  ∀ ys s', mapM f l s = (Ok ys, s') → s' = s ∧ Forall2 P l ys.
Proof.
  intros Hf. induction l as [|x l IH]; intros ys s' H; simpl in H.
  - injection H as <- <-. by split.
  - apply bind_inv in H as (y & s1 & Hy & H).
    apply Hf in Hy as [-> Hy].
    apply bind_inv in H as (k & s2 & Hk & H).
    apply IH in Hk as [-> Hk].
    injection H as <- <-. split; [done | by constructor].
Qed.

(** [cleanRatings] reads the store and changes nothing in it; each element
    of its result is the rating array of the corresponding user, the stored
    array itself, never a fresh numeric vector. *)
Lemma cleanRatings_returns_stored_arrays users s r s' :
  ProfileLearner.cleanRatings users s = (Ok r, s') →
  s' = s ∧
  Forall2 (fun u x => ∃ rn o, heap s !! u = Some (CUser rn) ∧
                             heap s !! rn = Some (CNet o) ∧
                             x = inr (ratings o)) users r.
Proof.
  intros H. unfold ProfileLearner.cleanRatings in H.
  apply bind_inv in H as (ls & s1 & Hls & H).
  apply (mapM_reads _ (fun u l => ∃ rn o, heap s !! u = Some (CUser rn) ∧
                                         heap s !! rn = Some (CNet o) ∧
                                         l = ratings o)) in Hls as [-> Hls].
  - injection H as <- <-. split; [done|].
    induction Hls as [|u l users ls (rn & o & ? & ? & ->) _ IH]; constructor; eauto.
  - intros u l s2 Hu.
    apply bind_inv in Hu as (rn & ? & [Hrn ->]%loadUser_inv & Hu).
    apply bind_inv in Hu as (o & ? & [Ho ->]%loadNet_inv & Hu).
    injection Hu as <- <-. split; [done | by exists rn, o].
Qed.

(* ===================================================================== *)
(** * Further properties of the code *)
(* ===================================================================== *)

(** ** [twoDimReduce] *)

Lemma mapM_run_Forall2 {A B} (f : A -> M B) (P : A -> B -> Prop) l :
  (∀ x s y s', f x s = (Ok y, s') → P x y) →
  ∀ s ys s', mapM f l s = (Ok ys, s') → Forall2 P l ys.
Proof.
  intros Hf. induction l as [|x l IH]; intros s ys s' H; simpl in H.
  - injection H as <- _. constructor.
  - apply bind_inv in H as (y & s1 & Hy & H).
    apply bind_inv in H as (k & s2 & Hk & H).
    injection H as <- _. constructor; eauto.
Qed.

Lemma reduce_pick_least a s m s' :
  reduce (pick Qlt_bool) a s = (Ok m, s') → m ∈ a ∧ ∀ y, y ∈ a → (m <= y)%Q.
Proof.
  destruct a as [|x0 l]; [done|]. intros [= <- _].
  destruct (fold_pick_least (fun q : Q => q) l x0) as (i & Hi & Hall).
  split; [by eapply list_elem_of_lookup_2|].
  intros y [j Hj]%list_elem_of_lookup. by destruct (Hall j y Hj).
Qed.

Lemma reduce_pick_greatest a s m s' :
  reduce (pick Qgt_bool) a s = (Ok m, s') → m ∈ a ∧ ∀ y, y ∈ a → (y <= m)%Q.
Proof.
  destruct a as [|x0 l]; [done|]. intros [= <- _].
  destruct (fold_pick_greatest (fun q : Q => q) l x0) as (i & Hi & Hall).
  split; [by eapply list_elem_of_lookup_2|].
  intros y [j Hj]%list_elem_of_lookup. by destruct (Hall j y Hj).
Qed.

Lemma twoDimReduce_least matrix s m s' :
  Matrix.twoDimReduce matrix Qlt_bool s = (Ok m, s') →
  (∃ row, row ∈ matrix ∧ m ∈ row) ∧
  ∀ row e, row ∈ matrix → e ∈ row → (m <= e)%Q.
Proof.
  intros H. apply bind_inv in H as (rows & s1 & Hrows & H).
  apply reduce_pick_least in H as [Hin Hle].
  apply (mapM_run_Forall2 _ (fun row r => r ∈ row ∧ ∀ y, y ∈ row → (r <= y)%Q))
    in Hrows; [|intros ? ? ? ?; apply reduce_pick_least].
  split.
  - apply list_elem_of_lookup in Hin as [i Hi].
    destruct (Forall2_lookup_r _ _ _ _ _ Hrows Hi) as (row & Hrow & Hm & _).
    exists row. split; [by eapply list_elem_of_lookup_2 | done].
  - intros row e [i Hi]%list_elem_of_lookup He.
    destruct (Forall2_lookup_l _ _ _ _ _ Hrows Hi) as (r & Hr & _ & Hrle).
    eapply Qle_trans; [apply Hle; by eapply list_elem_of_lookup_2 | by apply Hrle].
Qed.

Lemma twoDimReduce_greatest matrix s m s' :
  Matrix.twoDimReduce matrix Qgt_bool s = (Ok m, s') →
  (∃ row, row ∈ matrix ∧ m ∈ row) ∧
  ∀ row e, row ∈ matrix → e ∈ row → (e <= m)%Q.
Proof.
  intros H. apply bind_inv in H as (rows & s1 & Hrows & H).
  apply reduce_pick_greatest in H as [Hin Hle].
  apply (mapM_run_Forall2 _ (fun row r => r ∈ row ∧ ∀ y, y ∈ row → (y <= r)%Q))
    in Hrows; [|intros ? ? ? ?; apply reduce_pick_greatest].
  split.
  - apply list_elem_of_lookup in Hin as [i Hi].
    destruct (Forall2_lookup_r _ _ _ _ _ Hrows Hi) as (row & Hrow & Hm & _).
    exists row. split; [by eapply list_elem_of_lookup_2 | done].
  - intros row e [i Hi]%list_elem_of_lookup He.
    destruct (Forall2_lookup_l _ _ _ _ _ Hrows Hi) as (r & Hr & _ & Hrle).
    eapply Qle_trans; [by apply Hrle | apply Hle; by eapply list_elem_of_lookup_2].
Qed.

Lemma mapM_cons {A B} (f : A -> M B) x l :
  mapM f (x :: l) = (y ← f x; k ← mapM f l; mret (y :: k)).
Proof. done. Qed.

Lemma mapM_reduce_run {A} (f : A -> A -> A) (matrix : list (list A)) s :
  Forall (fun row => row ≠ []) matrix →
  ∃ rows, mapM (fun row => reduce f row) matrix s = (Ok rows, s) ∧
          length rows = length matrix.
Proof.
  induction 1 as [|row matrix Hrow _ (rows & Hrun & Hlen)].
  - by exists [].
  - destruct row as [|x row]; [done|].
    exists (fold_left f row x :: rows). split; [|simpl; lia].
    rewrite mapM_cons, (bind_ok _ _ _ _ _ (reduce_run _ _ _ _)).
    by rewrite (bind_ok _ _ _ _ _ Hrun).
Qed.

Lemma mapM_reduce_throws {A} (f : A -> A -> A) (matrix : list (list A)) s :
  [] ∈ matrix →
  mapM (fun row => reduce f row) matrix s =
    (Fail (Thrown (TypeError "Reduce of empty array with no initial value")), s).
Proof.
  induction matrix as [|row matrix IH]; intros Hin; [by apply elem_of_nil in Hin|].
  destruct row as [|x row]; [done|].
  apply elem_of_cons in Hin as [Hin|Hin]; [done|].
  rewrite mapM_cons, (bind_ok _ _ _ _ _ (reduce_run _ _ _ _)).
  by rewrite (bind_fail _ _ _ _ _ (IH Hin)).
Qed.

(** X1.  On a matrix with at least one row and no empty row,
    [twoDimReduce] with the comparison [<] returns an entry of the matrix
    that no entry is smaller than, and with [>] an entry that no entry is
    larger than; the store and the console are left as they were. *)
Theorem twoDimReduce_extremum matrix s :
  matrix ≠ [] →
  Forall (fun row => row ≠ []) matrix →
  ∃ lo hi,
    Matrix.twoDimReduce matrix Qlt_bool s = (Ok lo, s) ∧
    Matrix.twoDimReduce matrix Qgt_bool s = (Ok hi, s) ∧
    (∃ row, row ∈ matrix ∧ lo ∈ row) ∧ (∃ row, row ∈ matrix ∧ hi ∈ row) ∧
    ∀ row e, row ∈ matrix → e ∈ row → (lo <= e)%Q ∧ (e <= hi)%Q.
Proof.
  intros Hne Hrows.
  assert (Hrun : ∀ f, ∃ m, Matrix.twoDimReduce matrix f s = (Ok m, s)).
  { intros f. destruct (mapM_reduce_run (pick f) matrix s Hrows) as (rows & Hrun & Hlen).
    destruct rows as [|r rows]; [destruct matrix; [done | simpl in Hlen; lia]|].
    exists (fold_left (pick f) rows r). unfold Matrix.twoDimReduce.
    by rewrite (bind_ok _ _ _ _ _ Hrun). }
  destruct (Hrun Qlt_bool) as [lo Hlo]. destruct (Hrun Qgt_bool) as [hi Hhi].
  exists lo, hi. split; [done|]. split; [done|].
  destruct (twoDimReduce_least _ _ _ _ Hlo) as [? Hmin].
  destruct (twoDimReduce_greatest _ _ _ _ Hhi) as [? Hmax].
  repeat split; try done; [by eapply Hmin | by eapply Hmax].
Qed.

Lemma twoDimReduce_extremum_witness :
  ∃ lo hi,
    Matrix.twoDimReduce tieMatrix Qlt_bool scenarioStore = (Ok lo, scenarioStore) ∧
    Matrix.twoDimReduce tieMatrix Qgt_bool scenarioStore = (Ok hi, scenarioStore) ∧
    (∃ row, row ∈ tieMatrix ∧ lo ∈ row) ∧ (∃ row, row ∈ tieMatrix ∧ hi ∈ row) ∧
    ∀ row e, row ∈ tieMatrix → e ∈ row → (lo <= e)%Q ∧ (e <= hi)%Q.
Proof.
  apply (twoDimReduce_extremum tieMatrix scenarioStore).
  - discriminate.
  - repeat constructor; discriminate.
Defined.

(** X2.  On a matrix without rows, or with an empty row, [twoDimReduce]
    throws the [TypeError] of [reduce] on an empty array, whatever the
    comparison, and leaves the store and the console as they were. *)
Theorem twoDimReduce_throws_on_empty matrix f s :
  matrix = [] ∨ [] ∈ matrix →
  Matrix.twoDimReduce matrix f s =
    (Fail (Thrown (TypeError "Reduce of empty array with no initial value")), s).
Proof.
  intros [-> | Hin]; [done|]. unfold Matrix.twoDimReduce.
  by rewrite (bind_fail _ _ _ _ _ (mapM_reduce_throws _ _ _ Hin)).
Qed.

Lemma twoDimReduce_throws_on_empty_witness :
  Matrix.twoDimReduce [[1%Q]; []] Qlt_bool scenarioStore =
    (Fail (Thrown (TypeError "Reduce of empty array with no initial value")), scenarioStore).
Proof.
  apply (twoDimReduce_throws_on_empty [[1%Q]; []] Qlt_bool scenarioStore).
  right. right. left.
Defined.

(** ** The constructor of [RatedNetwork] *)

Lemma every_lengths_true {A} (net : list (list A)) :
  every (fun colLength => Nat.eqb colLength (hd 0 (map length net))) (map length net) = true
  ↔ Forall (fun row => length row = length (hd [] net)) net.
Proof.
  unfold every. rewrite forallb_forall, Forall_forall.
  assert (Hhd : hd 0 (map length net) = length (hd [] net)) by (by destruct net).
  rewrite Hhd. split.
  - intros H row Hrow. apply Nat.eqb_eq, H, in_map. by apply list_elem_of_In.
  - intros H c [row [<- Hrow]]%in_map_iff. apply Nat.eqb_eq, H. by apply list_elem_of_In.
Qed.

Lemma constructor_inv network ratings lo up s rnet s' :
  RatedNetwork.constructor network ratings lo up s = (Ok rnet, s') →
  ∃ net rs lower upper,
    heap s !! network = Some (CMatrix net) ∧
    heap s !! ratings = Some (CRatings rs) ∧
    net ≠ [] ∧ Forall (fun row => length row = length net) net ∧
    length rs = length net ∧
    match lo with
    | Some l => lower = l
    | None => ∃ m, Matrix.twoDimReduce net Qlt_bool s = (Ok m, s) ∧ lower = Math_floor m
    end ∧
    match up with
    | Some u => upper = u
    | None => ∃ m, Matrix.twoDimReduce net Qgt_bool s = (Ok m, s) ∧ upper = Math_ceil m
    end ∧
    (lower < upper)%Q ∧
    rnet = length (heap s) ∧
    s' = set_heap (heap s ++ [CNet (mkRatedNetwork (length net) network ratings lower upper)]) s.
Proof.
  intros H. unfold RatedNetwork.constructor in H.
  apply bind_inv in H as (net & s1 & [Hnet ->]%loadMatrix_inv & H).
  apply bind_inv in H as (rs & s1 & [Hrs ->]%loadRatings_inv & H).
  apply bind_inv in H as (? & s1 & [Hsame ->]%assert_inv & H).
  apply bind_inv in H as (? & s1 & [Hsquare ->]%assert_inv & H).
  apply bind_inv in H as (? & s1 & [Hlen ->]%assert_inv & H).
  apply bind_inv in H as (lower & s1 & Hlower & H).
  assert (s1 = s ∧ match lo with
                   | Some l => lower = l
                   | None => ∃ m, Matrix.twoDimReduce net Qlt_bool s = (Ok m, s) ∧
                                  lower = Math_floor m
                   end) as [-> Hlo].
  { destruct lo; [by injection Hlower as <- <-|].
    apply bind_inv in Hlower as (m & s2 & Hm & Hl).
    pose proof (twoDimReduce_state _ _ _ _ _ Hm) as ->.
    injection Hl as <- <-. eauto. }
  apply bind_inv in H as (upper & s1 & Hupper & H).
  assert (s1 = s ∧ match up with
                   | Some u => upper = u
                   | None => ∃ m, Matrix.twoDimReduce net Qgt_bool s = (Ok m, s) ∧
                                  upper = Math_ceil m
                   end) as [-> Hup].
  { destruct up; [by injection Hupper as <- <-|].
    apply bind_inv in Hupper as (m & s2 & Hm & Hu).
    pose proof (twoDimReduce_state _ _ _ _ _ Hm) as ->.
    injection Hu as <- <-. eauto. }
  apply bind_inv in H as (? & s1 & [Hlt ->]%assert_inv & H).
  injection H as <- <-.
  apply Nat.eqb_eq in Hlen. apply every_lengths_true in Hsame.
  destruct net as [|row0 net]; [done|]. simpl in Hsquare, Hsame.
  apply Nat.eqb_eq in Hsquare. rewrite Hsquare in Hsame.
  exists (row0 :: net), rs, lower, upper.
  repeat split; try done. by apply Qlt_bool_true.
Qed.

(** X3.  A construction that succeeds adds one object to the store and
    nothing else.  The object refers to the very matrix and rating array it
    was given (it copies neither); the matrix is N x N with N >= 1, there are
    N ratings, and [lower < upper]. *)
Theorem constructor_result matrixLoc ratingsLoc lo up s rnet s' :
  RatedNetwork.constructor matrixLoc ratingsLoc lo up s = (Ok rnet, s') →
  ∃ o net rs,
    rnet = length (heap s) ∧ heap s' = heap s ++ [CNet o] ∧ console s' = console s ∧
    network o = matrixLoc ∧ ratings o = ratingsLoc ∧
    heap s !! matrixLoc = Some (CMatrix net) ∧
    heap s !! ratingsLoc = Some (CRatings rs) ∧
    rated_network s' rnet o net rs ∧ well_shaped o net rs ∧
    0 < nNodes o ∧ (lower o < upper o)%Q.
Proof.
  intros H. apply constructor_inv in H
    as (net & rs & lower & upper & Hnet & Hrs & Hne & Hrows & Hlen & _ & _ & Hlt & -> & ->).
  eexists _, net, rs. repeat split; simpl; try done.
  - by rewrite lookup_app_r, Nat.sub_diag.
  - rewrite lookup_app_l; [done | by eapply lookup_lt_Some].
  - rewrite lookup_app_l; [done | by eapply lookup_lt_Some].
  - destruct net; [done | simpl; lia].
Qed.

Lemma constructor_result_witness :
  ∃ o net rs,
    2 = length (heap scenarioStore) ∧
    heap scenarioNetwork = heap scenarioStore ++ [CNet o] ∧
    console scenarioNetwork = console scenarioStore ∧
    network o = 0 ∧ ratings o = 1 ∧
    heap scenarioStore !! 0 = Some (CMatrix net) ∧
    heap scenarioStore !! 1 = Some (CRatings rs) ∧
    rated_network scenarioNetwork 2 o net rs ∧ well_shaped o net rs ∧
    0 < nNodes o ∧ (lower o < upper o)%Q.
Proof.
  apply (constructor_result 0 1 None None scenarioStore 2 scenarioNetwork).
  reflexivity.
Defined.

Lemma Math_floor_le q : (Math_floor q <= q)%Q.
Proof. apply Qfloor_le. Qed.

Lemma Math_ceil_ge q : (q <= Math_ceil q)%Q.
Proof. apply Qle_ceiling. Qed.

(** X4.  When the bounds are left out and the construction succeeds, the
    bounds of the new network are integers and every similarity value of its
    matrix lies between them. *)
Theorem constructor_derived_bounds_enclose matrixLoc ratingsLoc s rnet s' :
  RatedNetwork.constructor matrixLoc ratingsLoc None None s = (Ok rnet, s') →
  ∃ o net,
    heap s' !! rnet = Some (CNet o) ∧ heap s' !! matrixLoc = Some (CMatrix net) ∧
    (∃ zl zu, lower o = inject_Z zl ∧ upper o = inject_Z zu) ∧
    ∀ row e, row ∈ net → e ∈ row → (lower o <= e)%Q ∧ (e <= upper o)%Q.
Proof.
  intros H. apply constructor_inv in H
    as (net & rs & lower & upper & Hnet & Hrs & Hne & Hrows & Hlen &
        (lo & Hlo & ->) & (hi & Hhi & ->) & Hlt & -> & ->).
  eexists _, net. split; [|split; [|split]].
  - simpl. by rewrite lookup_app_r, Nat.sub_diag.
  - simpl. rewrite lookup_app_l; [done | by eapply lookup_lt_Some].
  - simpl. by eexists _, _.
  - intros row e Hrow He. simpl.
    destruct (twoDimReduce_least _ _ _ _ Hlo) as [_ Hmin].
    destruct (twoDimReduce_greatest _ _ _ _ Hhi) as [_ Hmax].
    split.
    + eapply Qle_trans; [apply Math_floor_le | by eapply Hmin].
    + eapply Qle_trans; [by eapply Hmax | apply Math_ceil_ge].
Qed.

Lemma constructor_derived_bounds_enclose_witness :
  ∃ o net,
    heap scenarioNetwork !! 2 = Some (CNet o) ∧
    heap scenarioNetwork !! 0 = Some (CMatrix net) ∧
    (∃ zl zu, lower o = inject_Z zl ∧ upper o = inject_Z zu) ∧
    ∀ row e, row ∈ net → e ∈ row → (lower o <= e)%Q ∧ (e <= upper o)%Q.
Proof.
  apply (constructor_derived_bounds_enclose 0 1 scenarioStore 2 scenarioNetwork).
  reflexivity.
Defined.

Lemma assert_true_run msg s : assert true msg s = (Ok tt, s).
Proof. done. Qed.

Lemma assert_false_run msg s :
  assert false msg s = (Fail (Thrown (AssertionError msg)), s).
Proof. done. Qed.

Lemma square_checks {A} (net : list (list A)) :
  net ≠ [] → Forall (fun row => length row = length net) net →
  every (fun colLength => Nat.eqb colLength (hd 0 (map length net))) (map length net) = true ∧
  match map length net with [] => false | c :: _ => Nat.eqb c (length net) end = true.
Proof.
  intros Hne Hrows. destruct net as [|row0 net']; [done|]. split.
  - apply every_lengths_true. simpl hd. rewrite (Forall_inv Hrows). done.
  - simpl. apply Nat.eqb_eq. apply (Forall_inv Hrows).
Qed.

(** X5.  With both bounds declared, on an N x N matrix (N >= 1) with N
    ratings, the constructor succeeds exactly when [lower < upper]: it then
    returns a new object holding the given arrays and bounds, and otherwise
    throws an [AssertionError] and leaves the store as it was. *)
Theorem constructor_with_declared_bounds matrixLoc ratingsLoc lo up s net rs :
  heap s !! matrixLoc = Some (CMatrix net) →
  heap s !! ratingsLoc = Some (CRatings rs) →
  net ≠ [] → Forall (fun row => length row = length net) net →
  length rs = length net →
  ((lo < up)%Q →
   RatedNetwork.constructor matrixLoc ratingsLoc (Some lo) (Some up) s =
     (Ok (length (heap s)),
      set_heap (heap s ++ [CNet (mkRatedNetwork (length net) matrixLoc ratingsLoc lo up)]) s)) ∧
  (¬ (lo < up)%Q →
   RatedNetwork.constructor matrixLoc ratingsLoc (Some lo) (Some up) s =
     (Fail (Thrown (AssertionError "lower must be smaller than upper")), s)).
Proof.
  intros Hnet Hrs Hne Hrows Hlen.
  destruct (square_checks net Hne Hrows) as [H1 H2].
  assert (H3 : Nat.eqb (length rs) (length net) = true) by (by apply Nat.eqb_eq).
  assert (Hrun : RatedNetwork.constructor matrixLoc ratingsLoc (Some lo) (Some up) s =
    (_ ← assert (Qlt_bool lo up) "lower must be smaller than upper";
     alloc (CNet (mkRatedNetwork (length net) matrixLoc ratingsLoc lo up))) s).
  { unfold RatedNetwork.constructor.
    rewrite (bind_ok _ _ _ _ _ (loadMatrix_run _ _ _ Hnet)).
    rewrite (bind_ok _ _ _ _ _ (loadRatings_run _ _ _ Hrs)).
    cbv zeta. rewrite H1, H2, H3. done. }
  rewrite Hrun. split; intros Hlt.
  - apply Qlt_bool_true in Hlt. by rewrite Hlt.
  - destruct (Qlt_bool lo up) eqn:E; [by apply Qlt_bool_true in E | done].
Qed.

Lemma constructor_with_declared_bounds_witness :
  RatedNetwork.constructor 0 1 (Some 0%Q) (Some 1%Q) scenarioStore =
    (Ok (length (heap scenarioStore)),
     set_heap (heap scenarioStore ++
               [CNet (mkRatedNetwork (length scenarioMatrix) 0 1 0%Q 1%Q)]) scenarioStore) ∧
  RatedNetwork.constructor 0 1 (Some 1%Q) (Some 1%Q) scenarioStore =
    (Fail (Thrown (AssertionError "lower must be smaller than upper")), scenarioStore).
Proof.
  split.
  - apply (constructor_with_declared_bounds 0 1 0%Q 1%Q scenarioStore
             scenarioMatrix scenarioRatings);
      [reflexivity | reflexivity | discriminate | repeat constructor | reflexivity
      | reflexivity].
  - apply (constructor_with_declared_bounds 0 1 1%Q 1%Q scenarioStore
             scenarioMatrix scenarioRatings);
      [reflexivity | reflexivity | discriminate | repeat constructor | reflexivity
      | discriminate].
Defined.

(** X6.  Whatever the bounds, the constructor throws an [AssertionError]
    and leaves the store as it was when the matrix is not N x N with N >= 1
    or the number of ratings is not N. *)
Theorem constructor_rejects_bad_shape matrixLoc ratingsLoc lo up s net rs :
  heap s !! matrixLoc = Some (CMatrix net) →
  heap s !! ratingsLoc = Some (CRatings rs) →
  ¬ (net ≠ [] ∧ Forall (fun row => length row = length net) net ∧
     length rs = length net) →
  ∃ msg, RatedNetwork.constructor matrixLoc ratingsLoc lo up s =
           (Fail (Thrown (AssertionError msg)), s).
Proof.
  intros Hnet Hrs Hbad. unfold RatedNetwork.constructor.
  rewrite (bind_ok _ _ _ _ _ (loadMatrix_run _ _ _ Hnet)).
  rewrite (bind_ok _ _ _ _ _ (loadRatings_run _ _ _ Hrs)).
  cbv zeta.
  destruct (every _ (map length net)) eqn:E1; [|by eexists].
  rewrite (bind_ok _ _ _ _ _ (assert_true_run _ _)).
  destruct (match map length net with [] => false | c :: _ => Nat.eqb c (length net) end)
    eqn:E2; [|by eexists].
  rewrite (bind_ok _ _ _ _ _ (assert_true_run _ _)).
  destruct (Nat.eqb (length rs) (length net)) eqn:E3; [|by eexists].
  exfalso. apply Hbad. apply Nat.eqb_eq in E3. apply every_lengths_true in E1.
  destruct net as [|row0 net']; [done|]. simpl in E1, E2. apply Nat.eqb_eq in E2.
  rewrite E2 in E1. done.
Qed.

Lemma constructor_rejects_bad_shape_witness :
  ∃ msg, RatedNetwork.constructor 0 1 None None
           (mkState [CMatrix [[0; 1]; [1]]%Q; CRatings [None; None]] [] (fun _ => 0%Q) 0) =
           (Fail (Thrown (AssertionError msg)),
            mkState [CMatrix [[0; 1]; [1]]%Q; CRatings [None; None]] [] (fun _ => 0%Q) 0).
Proof.
  apply (constructor_rejects_bad_shape 0 1 None None _ [[0; 1]; [1]]%Q [None; None]).
  - reflexivity.
  - reflexivity.
  - intros (_ & Hrows & _). inversion Hrows as [|? ? _ Hrest]; subst.
    inversion Hrest as [|? ? Hlen _]; subst. simpl in Hlen. lia.
Defined.

Lemma twoDimReduce_run matrix f s :
  matrix ≠ [] → Forall (fun row => row ≠ []) matrix →
  ∃ m, Matrix.twoDimReduce matrix f s = (Ok m, s).
Proof.
  intros Hne Hrows.
  destruct (mapM_reduce_run (pick f) matrix s Hrows) as (rows & Hrun & Hlen).
  destruct rows as [|r rows]; [destruct matrix; [done | simpl in Hlen; lia]|].
  exists (fold_left (pick f) rows r). unfold Matrix.twoDimReduce.
  by rewrite (bind_ok _ _ _ _ _ Hrun).
Qed.

Lemma square_rows_nonempty {A} (net : list (list A)) :
  net ≠ [] → Forall (fun row => length row = length net) net →
  Forall (fun row => row ≠ []) net.
Proof.
  intros Hne Hrows. eapply Forall_impl; [exact Hrows|].
  intros row Hlen ->. destruct net; [done | simpl in Hlen; lia].
Qed.

(** X7.  Without declared bounds, an N x N matrix whose entries all equal
    one integer (the all-zero matrix, for one) is rejected: the derived
    bounds coincide, and the constructor throws the [AssertionError] of
    [lower < upper], leaving the store as it was. *)
Theorem constructor_rejects_constant_matrix matrixLoc ratingsLoc s net rs z :
  heap s !! matrixLoc = Some (CMatrix net) →
  heap s !! ratingsLoc = Some (CRatings rs) →
  net ≠ [] → Forall (fun row => length row = length net) net →
  length rs = length net →
  Forall (Forall (fun e => (e == inject_Z z)%Q)) net →
  RatedNetwork.constructor matrixLoc ratingsLoc None None s =
    (Fail (Thrown (AssertionError "lower must be smaller than upper")), s).
Proof.
  intros Hnet Hrs Hne Hrows Hlen Hconst.
  destruct (square_checks net Hne Hrows) as [H1 H2].
  assert (H3 : Nat.eqb (length rs) (length net) = true) by (by apply Nat.eqb_eq).
  pose proof (square_rows_nonempty net Hne Hrows) as Hrne.
  destruct (twoDimReduce_run net Qlt_bool s Hne Hrne) as [lo Hlo].
  destruct (twoDimReduce_run net Qgt_bool s Hne Hrne) as [hi Hhi].
  assert (Hz : ∀ row e, row ∈ net → e ∈ row → (e == inject_Z z)%Q).
  { intros row e Hrow He. rewrite Forall_forall in Hconst.
    specialize (Hconst row Hrow). rewrite Forall_forall in Hconst. by apply Hconst. }
  destruct (twoDimReduce_least _ _ _ _ Hlo) as [(rl & Hrl & Hlin) _].
  destruct (twoDimReduce_greatest _ _ _ _ Hhi) as [(rh & Hrh & Hhin) _].
  assert (Hfl : Math_floor lo = inject_Z z).
  { unfold Math_floor. by rewrite (Qfloor_comp _ _ (Hz rl lo Hrl Hlin)), Qfloor_Z. }
  assert (Hce : Math_ceil hi = inject_Z z).
  { unfold Math_ceil. by rewrite (Qceiling_comp _ _ (Hz rh hi Hrh Hhin)), Qceiling_Z. }
  unfold RatedNetwork.constructor.
  rewrite (bind_ok _ _ _ _ _ (loadMatrix_run _ _ _ Hnet)).
  rewrite (bind_ok _ _ _ _ _ (loadRatings_run _ _ _ Hrs)).
  cbv zeta. rewrite H1, H2, H3.
  rewrite !(bind_ok _ _ _ _ _ (assert_true_run _ _)).
  rewrite (bind_ok _ _ _ _ s (bind_ok _ _ _ _ _ Hlo)).
  rewrite (bind_ok _ _ _ _ s (bind_ok _ _ _ _ _ Hhi)).
  rewrite Hfl, Hce.
  replace (Qlt_bool (inject_Z z) (inject_Z z)) with false; [done|].
  symmetry. apply Qlt_bool_false. apply Qle_refl.
Qed.

Lemma constructor_rejects_constant_matrix_witness :
  RatedNetwork.constructor 0 1 None None
    (mkState [CMatrix [[0; 0]; [0; 0]]%Q; CRatings [None; None]] [] (fun _ => 0%Q) 0) =
    (Fail (Thrown (AssertionError "lower must be smaller than upper")),
     mkState [CMatrix [[0; 0]; [0; 0]]%Q; CRatings [None; None]] [] (fun _ => 0%Q) 0).
Proof.
  apply (constructor_rejects_constant_matrix 0 1 _ [[0; 0]; [0; 0]]%Q [None; None] 0%Z).
  - reflexivity.
  - reflexivity.
  - discriminate.
  - repeat constructor.
  - reflexivity.
  - repeat constructor.
Defined.

(** ** [addRating], [hasRating] and [hasUnrated] *)

(** X8.  [addRating] with an index outside [0, nNodes) throws an
    [AssertionError] and leaves the store as it was. *)
Theorem addRating_rejects_out_of_range s this o i r :
  heap s !! this = Some (CNet o) →
  ¬ (0 <= i < Z.of_nat (nNodes o))%Z →
  RatedNetwork.addRating this i r s =
    (Fail (Thrown (AssertionError "nodeIndex must be between 0 and nNodes")), s).
Proof.
  intros Ho Hi. unfold RatedNetwork.addRating.
  rewrite (bind_ok _ _ _ _ _ (loadNet_run _ _ _ Ho)).
  replace (Z.leb 0 i && Z.ltb i (Z.of_nat (nNodes o))) with false; [done|].
  symmetry. apply andb_false_iff.
  destruct (Z.leb_spec 0 i); [|by left]. right. apply Z.ltb_ge. lia.
Qed.

Lemma addRating_rejects_out_of_range_witness :
  RatedNetwork.addRating 2 3 (Some 4%Q) scenarioNetwork =
    (Fail (Thrown (AssertionError "nodeIndex must be between 0 and nNodes")),
     scenarioNetwork).
Proof.
  apply (addRating_rejects_out_of_range scenarioNetwork 2 scenarioFields 3 (Some 4%Q)).
  - reflexivity.
  - simpl. lia.
Defined.

Lemma addRating_run s this o net rs i r :
  rated_network s this o net rs →
  length rs = nNodes o →
  (0 <= i < Z.of_nat (nNodes o))%Z →
  RatedNetwork.addRating this i r s =
    (Ok tt, set_heap (<[ratings o := CRatings (<[Z.to_nat i := r]> rs)]> (heap s)) s).
Proof.
  intros (Ho & Hnet & Hrs) Hlen Hi.
  assert (Hlt : Z.to_nat i < length rs) by lia.
  unfold RatedNetwork.addRating.
  rewrite (bind_ok _ _ _ _ _ (loadNet_run _ _ _ Ho)).
  replace (Z.leb 0 i && Z.ltb i (Z.of_nat (nNodes o))) with true
    by (symmetry; apply andb_true_iff; split; [apply Z.leb_le | apply Z.ltb_lt]; lia).
  rewrite (bind_ok _ _ _ _ _ (assert_true_run _ _)).
  rewrite (bind_ok _ _ _ _ _ (loadRatings_run _ _ _ Hrs)).
  unfold array_set. rewrite decide_True by done.
  unfold fromOption. unfold mbind at 1, M_bind at 1, mret at 1, M_ret at 1.
  apply store_run. by eapply lookup_lt_Some.
Qed.

(** X9.  [addRating(i, r)] with [0 <= i < nNodes] replaces the cell of the
    rating array by the array with [r] at index [i]: every other rating, the
    length of the array, every other object of the store and the console
    stay as they were. *)
Theorem addRating_overwrites_one_entry s this o net rs i r :
  rated_network s this o net rs →
  length rs = nNodes o →
  (0 <= i < Z.of_nat (nNodes o))%Z →
  ∃ s' rs',
    RatedNetwork.addRating this i r s = (Ok tt, s') ∧
    rated_network s' this o net rs' ∧
    length rs' = length rs ∧
    rs' !! Z.to_nat i = Some r ∧
    (∀ j, j ≠ Z.to_nat i → rs' !! j = rs !! j) ∧
    (∀ l, l ≠ ratings o → heap s' !! l = heap s !! l) ∧
    console s' = console s.
Proof.
  intros Hrn Hlen Hi.
  pose proof (addRating_run s this o net rs i r Hrn Hlen Hi) as Hrun.
  destruct Hrn as (Ho & Hnet & Hrs).
  assert (Hrl : ratings o < length (heap s)) by (by eapply lookup_lt_Some).
  eexists _, (<[Z.to_nat i := r]> rs). split; [exact Hrun|].
  repeat split; simpl.
  - rewrite list_lookup_insert_ne; [done | congruence].
  - rewrite list_lookup_insert_ne; [done | congruence].
  - by apply list_lookup_insert_eq.
  - apply length_insert.
  - apply list_lookup_insert_eq. lia.
  - intros j Hj. by apply list_lookup_insert_ne.
  - intros l Hl. by apply list_lookup_insert_ne.
Qed.

Lemma addRating_overwrites_one_entry_witness :
  ∃ s' rs',
    RatedNetwork.addRating 2 1 (Some 4%Q) scenarioNetwork = (Ok tt, s') ∧
    rated_network s' 2 scenarioFields scenarioMatrix rs' ∧
    length rs' = length scenarioRatings ∧
    rs' !! Z.to_nat 1 = Some (Some 4%Q) ∧
    (∀ j, j ≠ Z.to_nat 1 → rs' !! j = scenarioRatings !! j) ∧
    (∀ l, l ≠ ratings scenarioFields → heap s' !! l = heap scenarioNetwork !! l) ∧
    console s' = console scenarioNetwork.
Proof.
  apply (addRating_overwrites_one_entry scenarioNetwork 2 scenarioFields scenarioMatrix
           scenarioRatings 1 (Some 4%Q)).
  - exact scenario_rated_network.
  - reflexivity.
  - simpl. lia.
Defined.

Lemma every_is_null (rs : list Rating) :
  every (fun r => bool_decide (r = None)) rs = false ↔ ∃ q, Some q ∈ rs.
Proof.
  unfold every. induction rs as [|[q|] rs IH]; simpl.
  - split; [done | intros [q Hq]; by apply elem_of_nil in Hq].
  - split; [intros _; exists q; by left | done].
  - rewrite IH. split; intros [q Hq]; exists q.
    + by right.
    + by apply elem_of_cons in Hq as [|].
Qed.

Lemma every_is_rated (rs : list Rating) :
  every (fun r => bool_decide (r ≠ None)) rs = false ↔ None ∈ rs.
Proof.
  unfold every. induction rs as [|[q|] rs IH]; simpl.
  - split; [done | intros Hq; by apply elem_of_nil in Hq].
  - rewrite IH. split; intros Hq; [by right | by apply elem_of_cons in Hq as [|]].
  - split; [intros _; by left | done].
Qed.

Lemma hasUnrated_run s this o net rs :
  rated_network s this o net rs →
  RatedNetwork.hasUnrated this s =
    (Ok (negb (every (fun r => bool_decide (r ≠ None)) rs)), s).
Proof.
  intros (Ho & _ & Hrs). unfold RatedNetwork.hasUnrated.
  rewrite (bind_ok _ _ _ _ _ (loadNet_run _ _ _ Ho)).
  by rewrite (bind_ok _ _ _ _ _ (loadRatings_run _ _ _ Hrs)).
Qed.

Lemma hasRating_run s this o net rs :
  rated_network s this o net rs →
  RatedNetwork.hasRating this s =
    (Ok (negb (every (fun r => bool_decide (r = None)) rs)), s).
Proof.
  intros (Ho & _ & Hrs). unfold RatedNetwork.hasRating.
  rewrite (bind_ok _ _ _ _ _ (loadNet_run _ _ _ Ho)).
  by rewrite (bind_ok _ _ _ _ _ (loadRatings_run _ _ _ Hrs)).
Qed.

(** X10.  On a rated network, [hasUnrated()] returns [true] exactly when
    some rating is [null], and [hasRating()] returns [true] exactly when some
    rating is a number; neither changes the store. *)
Theorem hasUnrated_hasRating_meaning s this o net rs :
  rated_network s this o net rs →
  ∃ unrated rated,
    RatedNetwork.hasUnrated this s = (Ok unrated, s) ∧
    RatedNetwork.hasRating this s = (Ok rated, s) ∧
    (unrated = true ↔ None ∈ rs) ∧
    (rated = true ↔ ∃ q, Some q ∈ rs).
Proof.
  intros Hrn. eexists _, _.
  split; [by eapply hasUnrated_run|]. split; [by eapply hasRating_run|].
  rewrite !negb_true_iff. split; [apply every_is_rated | apply every_is_null].
Qed.

Lemma hasUnrated_hasRating_meaning_witness :
  ∃ unrated rated,
    RatedNetwork.hasUnrated 2 scenarioNetwork = (Ok unrated, scenarioNetwork) ∧
    RatedNetwork.hasRating 2 scenarioNetwork = (Ok rated, scenarioNetwork) ∧
    (unrated = true ↔ None ∈ scenarioRatings) ∧
    (rated = true ↔ ∃ q, Some q ∈ scenarioRatings).
Proof.
  exact (hasUnrated_hasRating_meaning scenarioNetwork 2 scenarioFields scenarioMatrix
           scenarioRatings scenario_rated_network).
Defined.

(** X11.  Rating the last unrated item ends the recommendation loop: when
    index [i] is in range and no other item is unrated, then after
    [addRating(i, q)] with a number [q], [hasUnrated()] returns [false] and
    [hasRating()] returns [true]. *)
Theorem rating_last_unrated_item s this o net rs i q :
  rated_network s this o net rs →
  length rs = nNodes o →
  (0 <= i < Z.of_nat (nNodes o))%Z →
  (∀ j, j ≠ Z.to_nat i → rs !! j ≠ Some None) →
  ((_ ← RatedNetwork.addRating this i (Some q); RatedNetwork.hasUnrated this) s).1
    = Ok false ∧
  ((_ ← RatedNetwork.addRating this i (Some q); RatedNetwork.hasRating this) s).1
    = Ok true.
Proof.
  intros Hrn Hlen Hi Hothers.
  pose proof (addRating_run s this o net rs i (Some q) Hrn Hlen Hi) as Hrun.
  set (rs' := <[Z.to_nat i := Some q]> rs) in *.
  set (s' := set_heap _ s) in *.
  assert (Hrn' : rated_network s' this o net rs').
  { destruct Hrn as (Ho & Hnet & Hrs).
    assert (ratings o < length (heap s)) by (by eapply lookup_lt_Some).
    unfold s'. repeat split; simpl.
    - rewrite list_lookup_insert_ne; [done | congruence].
    - rewrite list_lookup_insert_ne; [done | congruence].
    - by apply list_lookup_insert_eq. }
  rewrite !(bind_ok _ _ _ _ _ Hrun).
  rewrite (hasUnrated_run _ _ _ _ _ Hrn'), (hasRating_run _ _ _ _ _ Hrn'). simpl.
  split; f_equal.
  - apply negb_false_iff. destruct (every _ rs') eqn:E; [done|].
    apply every_is_rated in E. apply list_elem_of_lookup in E as [j Hj].
    unfold rs' in Hj. destruct (decide (j = Z.to_nat i)) as [->|Hne].
    + rewrite list_lookup_insert_eq in Hj by lia. done.
    + rewrite list_lookup_insert_ne in Hj by done. by apply Hothers in Hj.
  - apply negb_true_iff, every_is_null. exists q.
    apply (list_elem_of_lookup_2 _ (Z.to_nat i)). apply list_lookup_insert_eq. lia.
Qed.

Lemma rating_last_unrated_item_witness :
  ((_ ← RatedNetwork.addRating 2 1 (Some 4%Q); RatedNetwork.hasUnrated 2)
     (mkState [CMatrix scenarioMatrix; CRatings [Some 5%Q; None; Some 2%Q];
               CNet scenarioFields] [] (fun _ => 0%Q) 0)).1 = Ok false ∧
  ((_ ← RatedNetwork.addRating 2 1 (Some 4%Q); RatedNetwork.hasRating 2)
     (mkState [CMatrix scenarioMatrix; CRatings [Some 5%Q; None; Some 2%Q];
               CNet scenarioFields] [] (fun _ => 0%Q) 0)).1 = Ok true.
Proof.
  apply (rating_last_unrated_item _ 2 scenarioFields scenarioMatrix
           [Some 5%Q; None; Some 2%Q] 1 4%Q).
  - repeat split.
  - reflexivity.
  - simpl. lia.
  - intros [|[|[|j]]] Hj; simpl; try discriminate. by destruct Hj.
Defined.

(** ** The matrix utilities *)

(** X12.  [isRectangular] returns [true] exactly when every row has the
    length of the first row; on a matrix without rows it returns [true]. *)
Theorem isRectangular_meaning {A} (matrix : list (list A)) :
  (Matrix.isRectangular matrix = true ↔
   Forall (fun row => length row = length (hd [] matrix)) matrix) ∧
  Matrix.isRectangular (@nil (list A)) = true.
Proof. split; [apply every_lengths_true | done]. Qed.

Lemma sq_nonneg (x : Q) : (0 <= x * x)%Q.
Proof.
  destruct (Qlt_le_dec x 0).
  - assert (E : (x * x == (- x) * (- x))%Q) by ring. rewrite E.
    apply Qmult_le_0_compat; lra.
  - apply Qmult_le_0_compat; lra.
Qed.

Lemma sqr64_nonneg x : (0 <= sqr64 x)%Q.
Proof. apply round64_nonneg, sq_nonneg. Qed.

Lemma sqr64_sub64_swap a b : sqr64 (sub64 a b) = sqr64 (sub64 b a).
Proof.
  unfold sqr64, sub64. apply round64_proper.
  assert (E : (b - a == - (a - b))%Q) by ring.
  rewrite (round64_proper _ _ E), round64_opp. ring.
Qed.

Lemma sqr64_sub64_same a b : (a == b)%Q → sqr64 (sub64 a b) = 0%Q.
Proof.
  intros H. unfold sqr64, sub64.
  assert (E : (a - b == 0)%Q) by (rewrite H; ring).
  rewrite (round64_zero _ E). by apply round64_zero.
Qed.

Lemma sumSquares_spec v1 :
  ∀ v2 acc, length v1 = length v2 → (0 <= acc)%Q →
  ∃ d,
    Matrix.sumSquares (map Num v1) (map Num v2) acc = Some d ∧
    Matrix.sumSquares (map Num v2) (map Num v1) acc = Some d ∧
    (0 <= d)%Q ∧ (acc = 0%Q → Forall2 Qeq v1 v2 → d = 0%Q).
Proof.
  induction v1 as [|a v1 IH]; intros [|b v2] acc Hlen Hacc; simpl in Hlen; try lia.
  - exists acc. split; [done|]. split; [done|]. split; [done|]. by intros ->.
  - destruct (IH v2 (add64 acc (sqr64 (sub64 a b)))) as (d & Hd & Hd' & Hle & Hzero).
    { lia. }
    { apply round64_nonneg. pose proof (sqr64_nonneg (sub64 a b)). lra. }
    exists d. split; [exact Hd|]. split.
    { simpl. by rewrite <- sqr64_sub64_swap. }
    split; [done|]. intros -> H. inversion H as [|? ? ? ? Hab Hrest]; subst.
    apply Hzero; [|done]. rewrite (sqr64_sub64_same _ _ Hab). reflexivity.
Qed.

(** X13.  On two vectors of numbers of the same length, [vectorDist]
    writes nothing and returns the same when the two vectors are exchanged;
    the number is never negative and is 0 when the vectors are equal entry
    by entry.  (It can be 0 on different vectors: a square can round to 0.) *)
Theorem vectorDist_symmetric_nonnegative v1 v2 s :
  length v1 = length v2 →
  ∃ d,
    Matrix.vectorDist (map Num v1) (map Num v2) s = (Ok d, s) ∧
    Matrix.vectorDist (map Num v2) (map Num v1) s = (Ok d, s) ∧
    (0 <= Root_value d)%Q ∧
    (Forall2 Qeq v1 v2 → Root_value d = 0%Q).
Proof.
  intros Hlen.
  destruct (sumSquares_spec v1 v2 0%Q Hlen) as (d & Hd & Hd' & Hle & Hzero); [done|].
  exists (Math_sqrt d). unfold Matrix.vectorDist. rewrite !length_map, Hd, Hd', Hlen.
  rewrite Nat.eqb_refl. split; [done|]. split; [done|].
  split; [apply sqrt64_nonneg|]. intros H. unfold Root_value. simpl.
  by rewrite (Hzero eq_refl H).
Qed.

Lemma vectorDist_symmetric_nonnegative_witness :
  ∃ d,
    Matrix.vectorDist (map Num [1; 4]%Q) (map Num [5; 1]%Q) scenarioStore
      = (Ok d, scenarioStore) ∧
    Matrix.vectorDist (map Num [5; 1]%Q) (map Num [1; 4]%Q) scenarioStore
      = (Ok d, scenarioStore) ∧
    (0 <= Root_value d)%Q ∧
    (Forall2 Qeq [1; 4]%Q [5; 1]%Q → Root_value d = 0%Q).
Proof.
  apply (vectorDist_symmetric_nonnegative [1; 4]%Q [5; 1]%Q scenarioStore). reflexivity.
Defined.

(** The distance between [1e-200] and [0] is 0: the square underflows. *)
Lemma vectorDist_underflow :
  (Matrix.vectorDist [Num (round64 (1 / 10 ^ 200))] [Num 0] scenarioStore).1
    = Ok (Math_sqrt 0) ∧
  ¬ (round64 (1 / 10 ^ 200) == 0)%Q.
Proof. split; [by vm_compute | by vm_compute]. Qed.

Lemma addScaled_num acc v n :
  length acc = length v →
  Matrix.addScaled acc (map Num v) n
  = Some (zip_with (fun m x => add64 m (div64 x n)) acc v).
Proof.
  revert v. induction acc as [|m acc IH]; intros [|x v] Hlen; simpl in *; try lia; try done.
  rewrite IH by lia. done.
Qed.

Lemma addAll_num n vs :
  ∀ acc, Forall (fun v => length v = length acc) vs →
  ∃ r, Matrix.addAll acc (map (map Num) vs) n = Some r ∧ length r = length acc.
Proof.
  induction vs as [|v vs IH]; intros acc Hlen.
  - by exists acc.
  - pose proof (Forall_inv Hlen) as Hv. simpl in Hv. apply Forall_inv_tail in Hlen.
    simpl. rewrite addScaled_num by done. simpl.
    set (acc1 := zip_with _ acc v).
    assert (Hlen1 : length acc1 = length acc).
    { unfold acc1. rewrite length_zip_with. lia. }
    destruct (IH acc1) as (r & Hr & Hrl).
    { eapply Forall_impl; [exact Hlen|]. intros; simpl in *; congruence. }
    exists r. split; [done | congruence].
Qed.

Lemma vectorMean_num vs m s :
  vs ≠ [] →
  Forall (fun v => length v = m) vs →
  ∃ mean,
    Matrix.vectorMean (map (map Num) vs) s = (Ok mean, s) ∧ length mean = m.
Proof.
  intros Hne Hlen.
  destruct (addAll_num (inject_Z (Z.of_nat (length vs))) vs (replicate m 0%Q))
    as (r & Hr & Hrl).
  { eapply Forall_impl; [exact Hlen|]. intros v Hv. simpl in Hv.
    by rewrite length_replicate. }
  exists r. split; [|by rewrite Hrl, length_replicate].
  assert (Hrect : Matrix.isRectangular (map (map Num) vs) = true).
  { apply (isRectangular_true _ m), Forall_forall.
    intros row [v [<- Hv]]%list_elem_of_In%in_map_iff. rewrite length_map.
    rewrite Forall_forall in Hlen. by apply Hlen, list_elem_of_In. }
  destruct vs as [|v0 vs']; [done|].
  pose proof (Forall_inv Hlen) as Hv0. simpl in Hv0.
  assert (Hm : Matrix.vectorMean (map (map Num) (v0 :: vs')) s =
    (_ ← console_assert (Matrix.isRectangular (map (map Num) (v0 :: vs')))
           "Vectors must all have the same length!";
     fromOption "NaN"
       (Matrix.addAll (replicate (length (map Num v0)) 0%Q)
          (map (map Num) (v0 :: vs'))
          (inject_Z (Z.of_nat (length (map (map Num) (v0 :: vs'))))))) s)
    by reflexivity.
  rewrite Hm, Hrect, !length_map, Hv0, Hr. done.
Qed.

Lemma mean_of_one v :
  Forall binary64 v →
  Forall2 Qeq (zip_with (fun m x => add64 m (div64 x 1)) (replicate (length v) 0%Q) v) v.
Proof.
  induction 1 as [|x v Hx _ IH]; simpl; constructor; [|done].
  unfold add64, div64.
  assert (E1 : (x / 1 == x)%Q) by (field).
  rewrite (round64_proper _ _ E1).
  assert (E2 : (0 + round64 x == round64 x)%Q) by ring.
  by rewrite (round64_proper _ _ E2), round64_idempotent.
Qed.

(** X14.  On one or more vectors of numbers of the same length,
    [vectorMean] writes nothing and returns a vector of that length; the
    mean of a single vector of binary64 numbers is that vector. *)
Theorem vectorMean_shape vs m s :
  vs ≠ [] →
  Forall (fun v => length v = m) vs →
  ∃ mean,
    Matrix.vectorMean (map (map Num) vs) s = (Ok mean, s) ∧
    length mean = m ∧
    ∀ v, vs = [v] → Forall binary64 v → Forall2 Qeq mean v.
Proof.
  intros Hne Hlen.
  destruct (vectorMean_num vs m s Hne Hlen) as (mean & Hrun & Hm).
  exists mean. split; [done|]. split; [done|].
  intros v -> Hv. unfold Matrix.vectorMean in Hrun.
  apply bind_inv in Hrun as (u & s1 & _ & Hrun). simpl in Hrun.
  rewrite addScaled_num in Hrun by (by rewrite length_replicate, length_map).
  simpl in Hrun. injection Hrun as <- _. rewrite length_map. by apply mean_of_one.
Qed.

Lemma vectorMean_shape_witness :
  (∃ mean,
     Matrix.vectorMean (map (map Num) [[1; 4]; [5; 1]]%Q) scenarioStore
       = (Ok mean, scenarioStore) ∧
     length mean = 2 ∧
     ∀ v, [[1; 4]; [5; 1]]%Q = [v] → Forall binary64 v → Forall2 Qeq mean v) ∧
  (∃ mean,
     Matrix.vectorMean (map (map Num) [[1; 4]]%Q) scenarioStore
       = (Ok mean, scenarioStore) ∧
     length mean = 2 ∧
     ∀ v, [[1; 4]]%Q = [v] → Forall binary64 v → Forall2 Qeq mean v).
Proof.
  split.
  - apply (vectorMean_shape [[1; 4]; [5; 1]]%Q 2 scenarioStore).
    + discriminate.
    + repeat constructor.
  - apply (vectorMean_shape [[1; 4]]%Q 2 scenarioStore).
    + discriminate.
    + repeat constructor.
Defined.

(** The mean of [[1]], [[2]] and [[4]] is [2.333333333333333], the rounded
    sum of the rounded thirds, which is not the binary64 number nearest to
    [7/3]. *)
Lemma vectorMean_rounds :
  (Matrix.vectorMean [[Num 1]; [Num 2]; [Num 4]] scenarioStore).1
    = Ok [2627099782632789 # 1125899906842624]%Q ∧
  round64 (7 # 3) = (5254199565265579 # 2251799813685248)%Q.
Proof. split; vm_compute; reflexivity. Qed.

Lemma rowTimes_zero row :
  ∀ vector, Forall (fun x => (x == 0)%Q) vector → length row ≤ length vector →
  Matrix.rowTimes row vector 0%Q = Some 0%Q.
Proof.
  induction row as [|r row IH]; intros vector Hv Hlen; [done|].
  destruct Hv as [|x vector Hx Hv]; [simpl in Hlen; lia|]. simpl.
  assert (E : add64 0 (mul64 r x) = 0%Q).
  { unfold add64, mul64.
    assert (E1 : (r * x == 0)%Q) by (rewrite Hx; ring).
    rewrite (round64_zero _ E1). by apply round64_zero. }
  rewrite E. apply IH; [done | simpl in Hlen; lia].
Qed.

Lemma matVecMul_zero matrix vector s :
  matrix ≠ [] →
  Forall (fun row => length row = length vector) matrix →
  ∃ vec,
    Matrix.matVecMul matrix vector s = (Ok vec, s) ∧
    length vec = length matrix ∧
    (Forall (fun x => (x == 0)%Q) vector → Forall (fun y => y = 0%Q) vec).
Proof.
  intros Hne Hrows.
  destruct (matVecMul_run matrix vector s Hne Hrows) as (vec & Hrun & Hlen).
  exists vec. split; [done|]. split; [done|]. intros Hzero.
  unfold Matrix.matVecMul in Hrun.
  rewrite (isRectangular_true _ _ Hrows) in Hrun.
  destruct matrix as [|row0 matrix']; [done|].
  pose proof (Forall_inv Hrows) as H0. simpl in H0. apply Nat.eqb_eq in H0.
  rewrite H0 in Hrun.
  destruct (mapM (fun row => Matrix.rowTimes row vector 0%Q) (row0 :: matrix'))
    as [vec'|] eqn:E; [|done].
  injection Hrun as <-. apply mapM_Some_1 in E.
  apply Forall_lookup. intros i y Hy.
  destruct (Forall2_lookup_r _ _ _ _ _ E Hy) as (row & Hrow & Hrt). simpl in Hrt.
  rewrite rowTimes_zero in Hrt; [congruence | done |].
  rewrite Forall_lookup in Hrows. by rewrite (Hrows i row Hrow).
Qed.

(** X15.  On a matrix with at least one row, all rows as long as the
    vector, [matVecMul] writes nothing and returns one number for each row;
    against a vector of zeros every one of them is 0. *)
Theorem matVecMul_shape_and_zero matrix vector s :
  matrix ≠ [] →
  Forall (fun row => length row = length vector) matrix →
  ∃ vec,
    Matrix.matVecMul matrix vector s = (Ok vec, s) ∧
    length vec = length matrix ∧
    (Forall (fun x => (x == 0)%Q) vector → Forall (fun y => y = 0%Q) vec).
Proof. apply matVecMul_zero. Qed.

Lemma matVecMul_shape_and_zero_witness :
  ∃ vec,
    Matrix.matVecMul scenarioMatrix [0; 0; 0]%Q scenarioStore = (Ok vec, scenarioStore) ∧
    length vec = length scenarioMatrix ∧
    (Forall (fun x => (x == 0)%Q) [0; 0; 0]%Q → Forall (fun y => y = 0%Q) vec).
Proof.
  apply (matVecMul_shape_and_zero scenarioMatrix [0; 0; 0]%Q scenarioStore).
  - discriminate.
  - repeat constructor.
Defined.

(** ** The recommendation vector *)

Lemma getRecommendationVector_scores this s rnet o net rs :
  rated_network s rnet o net rs →
  well_shaped o net rs →
  0 < nNodes o →
  let n := length (heap s) in
  ∃ vec,
    length vec = nNodes o ∧
    (Forall (fun r : Rating => r = None) rs →
     (unratedStarRating this == ratingRescaleFactor this)%Q →
     Forall (fun y => y = 0%Q) vec) ∧
    getRecommendationVector this rnet s =
      (Ok (n + 3),
       set_heap (heap s ++ [CMatrix net; CRatings rs;
                            CNet (mkRatedNetwork (nNodes o) n (n + 1) (lower o) (upper o));
                            CNums vec]) s).
Proof.
  intros Hrn (Hlen & Hrows & Hrs) Hpos n. unfold getRecommendationVector.
  rewrite (bind_ok _ _ _ _ _ (cloneDeep_run _ _ _ _ _ Hrn)). fold n.
  set (o' := mkRatedNetwork _ _ _ _ _).
  set (s1 := set_heap _ s).
  assert (H2 : heap s1 !! (n + 2) = Some (CNet o')).
  { unfold s1, n. simpl. by rewrite lookup_app_plus. }
  assert (H0 : heap s1 !! network o' = Some (CMatrix net)).
  { simpl. by apply list_lookup_middle. }
  assert (H1 : heap s1 !! ratings o' = Some (CRatings rs)).
  { unfold s1, o', n. simpl. by rewrite lookup_app_plus. }
  rewrite (bind_ok _ _ _ _ _ (loadNet_run _ _ _ H2)).
  rewrite (bind_ok _ _ _ _ _ (loadMatrix_run _ _ _ H0)).
  rewrite (bind_ok _ _ _ _ _ (loadRatings_run _ _ _ H1)).
  match goal with |- context [Matrix.matVecMul ?m ?v] =>
    destruct (matVecMul_zero m v s1) as (vec & Hrun & Hvec & Hzero) end.
  { destruct net; simpl in *; [lia | done]. }
  { rewrite !length_map. apply Forall_forall.
    intros row' [row [<- Hin]]%list_elem_of_In%in_map_iff.
    rewrite length_map. rewrite Forall_forall in Hrows.
    rewrite (Hrows row); [lia | by apply list_elem_of_In]. }
  exists vec. split; [by rewrite Hvec, length_map|]. split.
  { intros Hnone Hconst. apply Hzero. apply Forall_forall.
    intros x [a [<- [r [<- Hr]]%in_map_iff]]%list_elem_of_In%in_map_iff.
    rewrite Forall_forall in Hnone. rewrite (Hnone r) by (by apply list_elem_of_In).
    unfold sub64. assert (E : (unratedStarRating this - ratingRescaleFactor this == 0)%Q)
      by (rewrite Hconst; ring).
    by rewrite (round64_zero _ E). }
  rewrite (bind_ok _ _ _ _ _ Hrun).
  unfold alloc, s1. simpl. rewrite length_app. simpl.
  rewrite <- app_assoc. simpl. done.
Qed.

(** X16.  On a rated network of the constructor's shape,
    [getRecommendationVector] leaves the console and every object of the
    store alone and adds four objects: a copy of the matrix, a copy of the
    ratings, a network object with the same bounds that refers to the two
    copies, and the recommendation vector, with one score for each item. *)
Theorem getRecommendationVector_allocates this s rnet o net rs :
  rated_network s rnet o net rs →
  well_shaped o net rs →
  0 < nNodes o →
  ∃ rv s1 vec,
    getRecommendationVector this rnet s = (Ok rv, s1) ∧
    let n := length (heap s) in
    heap s1 = heap s ++ [CMatrix net; CRatings rs;
                         CNet (mkRatedNetwork (nNodes o) n (n + 1) (lower o) (upper o));
                         CNums vec] ∧
    rv = n + 3 ∧ console s1 = console s ∧ length vec = nNodes o.
Proof.
  intros Hrn Hws Hpos.
  destruct (getRecommendationVector_scores this s rnet o net rs Hrn Hws Hpos)
    as (vec & Hvec & _ & Hrun).
  eexists _, _, vec. split; [exact Hrun|]. done.
Qed.

Lemma getRecommendationVector_allocates_witness :
  ∃ rv s1 vec,
    getRecommendationVector defaultAlgorithm 2 scenarioNetwork = (Ok rv, s1) ∧
    let n := length (heap scenarioNetwork) in
    heap s1 = heap scenarioNetwork ++
              [CMatrix scenarioMatrix; CRatings scenarioRatings;
               CNet (mkRatedNetwork (nNodes scenarioFields) n (n + 1)
                       (lower scenarioFields) (upper scenarioFields));
               CNums vec] ∧
    rv = n + 3 ∧ console s1 = console scenarioNetwork ∧
    length vec = nNodes scenarioFields.
Proof.
  apply (getRecommendationVector_allocates defaultAlgorithm scenarioNetwork 2 scenarioFields
           scenarioMatrix scenarioRatings scenario_rated_network scenario_well_shaped).
  simpl. lia.
Defined.

(** ** The greedy algorithm at the edges *)

(** X17.  On a rated network of the constructor's shape the greedy
    algorithm always returns an index below [nNodes]; when every item is
    already rated it returns the last index, [nNodes - 1], a rated item. *)
Theorem greedy_on_fully_rated this s rnet o net rs :
  rated_network s rnet o net rs →
  well_shaped o net rs →
  0 < nNodes o →
  ∃ i, (GreedyRecommendationAlgorithm.recommend this rnet s).1 = Ok i ∧
       i < nNodes o ∧
       (None ∉ rs → i = nNodes o - 1).
Proof.
  intros Hrn Hws Hpos.
  destruct (greedy_run this s rnet o net rs Hrn Hws Hpos)
    as (rv & s1 & vec & i & s' & _ & _ & Hlen & Hrun & e & Hi & Hall).
  destruct Hws as (_ & _ & Hrslen).
  assert (Hlt : i < nNodes o).
  { apply lookup_lt_Some in Hi. rewrite length_mask in Hi. lia. }
  exists i. split; [by rewrite Hrun|]. split; [done|].
  intros Hrated. destruct (decide (i = nNodes o - 1)) as [|Hne]; [done|]. exfalso.
  assert (Hall_rated : ∀ j, j < nNodes o → ∃ q, rs !! j = Some (Some q)).
  { intros j Hj. destruct (lookup_lt_is_Some_2 rs j) as [[q|] Hq]; [lia | eauto |].
    exfalso. apply Hrated. by eapply list_elem_of_lookup_2. }
  destruct (Hall_rated i Hlt) as [qi Hqi].
  destruct (Hall_rated (S i)) as [qj Hqj]; [lia|].
  rewrite (mask_lookup_rated _ _ _ _ _ Hqi) in Hi by lia. injection Hi as <-.
  destruct (Hall (S i) (sub64 (minimum vec) 1)) as [_ Hcontra].
  { apply (mask_lookup_rated _ _ _ _ _ Hqj). lia. }
  specialize (Hcontra (Nat.lt_succ_diag_r i)). lra.
Qed.

Lemma greedy_on_fully_rated_witness :
  ∃ i, (GreedyRecommendationAlgorithm.recommend defaultAlgorithm 2 ratedNetworkStore).1 = Ok i ∧
       i < nNodes scenarioFields ∧
       (None ∉ ratedRatings → i = nNodes scenarioFields - 1).
Proof.
  apply (greedy_on_fully_rated defaultAlgorithm ratedNetworkStore 2 scenarioFields
           scenarioMatrix ratedRatings).
  - repeat split.
  - repeat split. repeat constructor.
  - simpl. lia.
Defined.

(** X18.  When the unrated default equals the rating rescale factor (as
    the default constants do) and no item is rated yet, every score is zero
    and the greedy algorithm recommends the last item, [nNodes - 1]. *)
Theorem greedy_first_recommendation this s rnet o net rs :
  rated_network s rnet o net rs →
  well_shaped o net rs →
  0 < nNodes o →
  Forall (fun r => r = None) rs →
  (unratedStarRating this == ratingRescaleFactor this)%Q →
  (GreedyRecommendationAlgorithm.recommend this rnet s).1 = Ok (nNodes o - 1).
Proof.
  intros Hrn Hws Hpos Hnone Hconst.
  destruct (greedy_run this s rnet o net rs Hrn Hws Hpos)
    as (rv & s1 & vec & i & s' & Hget & Hrv & Hlen & Hrun & e & Hi & Hall).
  destruct (getRecommendationVector_scores this s rnet o net rs Hrn Hws Hpos)
    as (vec' & _ & Hvec & Hget').
  rewrite Hget in Hget'. injection Hget' as -> ->.
  simpl in Hrv. rewrite lookup_app_plus in Hrv. injection Hrv as ->.
  destruct Hws as (_ & _ & Hrslen).
  assert (Hzero : ∀ j y, vec !! j = Some y → (y == 0)%Q).
  { intros j y Hy. specialize (Hvec Hnone Hconst). rewrite Forall_lookup in Hvec.
    by rewrite (Hvec j y Hy). }
  assert (Hmask : ∀ j, mask rs vec (sub64 (minimum vec) 1) !! j = vec !! j).
  { intros j. destruct (rs !! j) as [r|] eqn:Er.
    - rewrite Forall_lookup in Hnone. rewrite (Hnone j r Er) in Er.
      by apply mask_lookup_unrated.
    - apply lookup_ge_None in Er.
      rewrite !(proj2 (lookup_ge_None _ _)); [done | lia | rewrite length_mask; lia]. }
  rewrite Hrun. simpl. f_equal.
  rewrite Hmask in Hi.
  assert (Hlt : i < nNodes o) by (apply lookup_lt_Some in Hi; lia).
  destruct (decide (i = nNodes o - 1)) as [|Hne]; [done|]. exfalso.
  destruct (lookup_lt_is_Some_2 vec (S i)) as [y Hy]; [lia|].
  destruct (Hall (S i) y) as [_ Hcontra]; [by rewrite Hmask|].
  specialize (Hcontra (Nat.lt_succ_diag_r i)).
  pose proof (Hzero _ _ Hy). pose proof (Hzero _ _ Hi). lra.
Qed.

Lemma greedy_first_recommendation_witness :
  (GreedyRecommendationAlgorithm.recommend defaultAlgorithm 2
     (mkState [CMatrix scenarioMatrix; CRatings [None; None; None]; CNet scenarioFields]
              [] (fun _ => 0%Q) 0)).1 = Ok (nNodes scenarioFields - 1).
Proof.
  apply (greedy_first_recommendation defaultAlgorithm _ 2 scenarioFields scenarioMatrix
           [None; None; None]).
  - repeat split.
  - repeat split. repeat constructor.
  - simpl. lia.
  - repeat constructor.
  - reflexivity.
Defined.

(** ** The probabilistic algorithm *)

Lemma prob_loop rv x rs :
  ∀ pre vec s k,
    heap s !! rv = Some (CNums (pre ++ vec)) →
    k = length pre →
    length rs ≤ length vec →
    forEach_from
      (fun (r : Rating) (i : nat) =>
         match r with
         | Some _ => writeNum rv i x
         | None => mret tt
         end) k rs s
    = (Ok tt, set_heap (<[rv := CNums (pre ++ mask rs vec x)]> (heap s)) s).
Proof.
  induction rs as [|r rs IH]; intros pre vec s k Hrv Hk Hlen.
  - simpl. rewrite list_insert_id by done. by rewrite set_heap_id.
  - destruct vec as [|e vec]; [simpl in Hlen; lia|].
    simpl in Hlen. simpl forEach_from.
    destruct r as [q|].
    + replace k with (length pre + 0) at 1 by lia.
      rewrite (bind_ok _ _ _ _ _ (writeNum_run _ _ _ _ _ x Hrv)).
      rewrite (IH (pre ++ [x]) vec).
      * simpl. rewrite list_insert_insert_eq, set_heap_set_heap.
        by rewrite <- app_assoc.
      * simpl. rewrite list_lookup_insert_eq by (by eapply lookup_lt_Some).
        by rewrite <- app_assoc.
      * rewrite length_app. simpl. lia.
      * lia.
    + rewrite (bind_ok _ _ _ _ s (eq_refl : (mret tt : M unit) s = (Ok tt, s))).
      rewrite (IH (pre ++ [e]) vec).
      * simpl. by rewrite <- app_assoc.
      * by rewrite <- app_assoc.
      * rewrite length_app. simpl. lia.
      * lia.
Qed.

Lemma prob_run this s rnet o net rs :
  rated_network s rnet o net rs →
  well_shaped o net rs →
  0 < nNodes o →
  ∃ rv s1 vec,
    getRecommendationVector this rnet s = (Ok rv, s1) ∧
    heap s1 !! rv = Some (CNums vec) ∧ length vec = nNodes o ∧
    let z := mask rs vec 0%Q in
    let u := tape s (drawn s) in
    let s2 := set_heap (<[rv := CNums z]> (heap s1)) s1 in
    let s3 := mkState (heap s2) (console s2) (tape s2) (S (drawn s2)) in
    let total := fold_left add64 (tl z) (hd 0%Q z) in
    tape s2 = tape s ∧ drawn s2 = drawn s ∧
    ((every (fun e => Qeq_bool e (hd 0%Q z)) z = true ∧
      ProbabilisticRecommendationAlgorithm.recommend this rnet s =
        ProbabilisticRecommendationAlgorithm.sample u
          (ProbabilisticRecommendationAlgorithm.cumulative 0%Q
             (ProbabilisticRecommendationAlgorithm.sort
                (entries (replicate (length z)
                                    (div64 1 (inject_Z (Z.of_nat (length z))))))))
          s3) ∨
     (every (fun e => Qeq_bool e (hd 0%Q z)) z = false ∧ Qeq_bool total 0 = true ∧
      ProbabilisticRecommendationAlgorithm.recommend this rnet s =
        (Fail (Unmodelled "division by zero"), s2)) ∨
     (every (fun e => Qeq_bool e (hd 0%Q z)) z = false ∧ Qeq_bool total 0 = false ∧
      ProbabilisticRecommendationAlgorithm.recommend this rnet s =
        ProbabilisticRecommendationAlgorithm.sample u
          (ProbabilisticRecommendationAlgorithm.cumulative 0%Q
             (ProbabilisticRecommendationAlgorithm.sort
                (entries (map (fun e => div64 e total) z))))
          s3)).
Proof.
  intros Hrn Hws Hpos.
  destruct (getRecommendationVector_run this s rnet o net rs Hrn Hws Hpos)
    as (vec & Hlen & Hrun).
  destruct Hrn as (Ho & Hnet & Hrs). destruct Hws as (_ & _ & Hrslen).
  set (n := length (heap s)) in *. set (s1 := set_heap _ s) in *.
  assert (Hrv : heap s1 !! (n + 3) = Some (CNums vec)).
  { unfold s1, n. simpl. by rewrite lookup_app_plus. }
  assert (Ho1 : heap s1 !! rnet = Some (CNet o)).
  { unfold s1. simpl. rewrite lookup_app_l; [done | by eapply lookup_lt_Some]. }
  assert (Hrs1 : heap s1 !! ratings o = Some (CRatings rs)).
  { unfold s1. simpl. rewrite lookup_app_l; [done | by eapply lookup_lt_Some]. }
  exists (n + 3), s1, vec. split; [done|]. split; [done|]. split; [done|].
  intros z u s2 s3 total. split; [done|]. split; [done|].
  assert (Hloop :
    forEach (fun (r : Rating) (i : nat) =>
               match r with
               | Some _ => writeNum (n + 3) i 0%Q
               | None => mret tt
               end) rs s1 = (Ok tt, s2)).
  { apply (prob_loop (n + 3) 0%Q rs [] vec s1 0); [done | done | lia]. }
  assert (Hrv2 : heap s2 !! (n + 3) = Some (CNums z)).
  { unfold s2. simpl. apply list_lookup_insert_eq. by eapply lookup_lt_Some. }
  assert (Hpre :
    ProbabilisticRecommendationAlgorithm.recommend this rnet s =
    ((vec' ← (if every (fun e => Qeq_bool e (hd 0%Q z)) z
              then mret (replicate (length z)
                                   (div64 1 (inject_Z (Z.of_nat (length z)))))
              else
                sum ← reduce add64 z;
                if Qeq_bool sum 0 then unmodelled "division by zero"
                else mret (map (fun e => div64 e sum) z));
      u ← Math_random;
      ProbabilisticRecommendationAlgorithm.sample u
        (ProbabilisticRecommendationAlgorithm.cumulative 0%Q
           (ProbabilisticRecommendationAlgorithm.sort (entries vec')))) s2)).
  { unfold ProbabilisticRecommendationAlgorithm.recommend.
    rewrite (bind_ok _ _ _ _ _ Hrun).
    rewrite (bind_ok _ _ _ _ _ (loadNet_run _ _ _ Ho1)).
    rewrite (bind_ok _ _ _ _ _ (loadRatings_run _ _ _ Hrs1)).
    rewrite (bind_ok _ _ _ _ _ Hloop).
    by rewrite (bind_ok _ _ _ _ _ (loadNums_run _ _ _ Hrv2)). }
  rewrite Hpre.
  destruct (every (fun e => Qeq_bool e (hd 0%Q z)) z) eqn:Eall.
  - left. split; [done|]. done.
  - right. assert (Hz : z ≠ []) by (by intros Hz; rewrite Hz in Eall).
    destruct z as [|z0 z'] eqn:Ez; [done|].
    simpl in total. fold total.
    destruct (Qeq_bool total 0) eqn:Esum.
    + left. split; [done|]. split; [done|].
      unfold mbind, M_bind, reduce. simpl. fold total. by rewrite Esum.
    + right. split; [done|]. split; [done|].
      unfold mbind, M_bind, reduce. simpl. fold total. by rewrite Esum.
Qed.

Lemma elem_of_insertSorted x y l :
  x ∈ ProbabilisticRecommendationAlgorithm.insertSorted y l → x = y ∨ x ∈ l.
Proof.
  induction l as [|z l IH]; simpl.
  - intros ?%list_elem_of_singleton. by left.
  - destruct (Qle_bool (snd y) (snd z)).
    + intros [->|H]%elem_of_cons; [by left | by right].
    + intros [->|H]%elem_of_cons; [right; by left|].
      destruct (IH H) as [->|?]; [by left | right; by right].
Qed.

Lemma elem_of_sort x l : x ∈ ProbabilisticRecommendationAlgorithm.sort l → x ∈ l.
Proof.
  unfold ProbabilisticRecommendationAlgorithm.sort.
  induction l as [|y l IH]; simpl; [done|].
  intros [->|H]%elem_of_insertSorted; [by left | right; by apply IH].
Qed.

Lemma elem_of_entries {A} (l : list A) i x : (i, x) ∈ entries l → l !! i = Some x.
Proof.
  intros [k Hk]%list_elem_of_lookup. unfold entries in Hk.
  rewrite list_lookup_imap in Hk. destruct (l !! k) eqn:E; [|done].
  simpl in Hk. injection Hk as <- <-. done.
Qed.

Lemma binary64_round64 q : binary64 (round64 q).
Proof. unfold binary64. by rewrite round64_idempotent. Qed.

Lemma add64_zero_l p prev : (p == 0)%Q → binary64 prev → (add64 p prev == prev)%Q.
Proof.
  intros Hp Hprev. unfold add64.
  assert (E : (p + prev == prev)%Q) by (rewrite Hp; ring).
  by rewrite (round64_proper _ _ E).
Qed.

Lemma add64_comm a b : add64 a b = add64 b a.
Proof. unfold add64. apply round64_proper. ring. Qed.

(** What [sample] returns is the index of an entry whose probability is not
    zero: adding a zero leaves the cumulative value where it was. *)
Lemma sample_nonzero u d :
  ∀ prev s i s', binary64 prev → ¬ (u < prev)%Q →
  ProbabilisticRecommendationAlgorithm.sample u
    (ProbabilisticRecommendationAlgorithm.cumulative prev d) s = (Ok i, s') →
  s' = s ∧ ∃ p, (i, p) ∈ d ∧ ¬ (p == 0)%Q.
Proof.
  induction d as [|[j p] d IH]; intros prev s i s' Hb Hprev H; simpl in H; [done|].
  destruct (Qlt_bool u (add64 p prev)) eqn:E.
  - injection H as <- <-. split; [done|]. exists p. split; [by left|].
    apply Qlt_bool_true in E. intros Hp. apply Hprev.
    by rewrite <- (add64_zero_l p prev Hp Hb).
  - apply Qlt_bool_false in E. apply IH in H as [-> (q & Hq & Hne)].
    + split; [done|]. exists q. split; [by right | done].
    + apply binary64_round64.
    + rewrite add64_comm. lra.
Qed.

Lemma sample_index u d :
  ∀ prev s i s',
  ProbabilisticRecommendationAlgorithm.sample u
    (ProbabilisticRecommendationAlgorithm.cumulative prev d) s = (Ok i, s') →
  ∃ p, (i, p) ∈ d.
Proof.
  induction d as [|[j p] d IH]; intros prev s i s' H; simpl in H; [done|].
  destruct (Qlt_bool u (add64 p prev)).
  - injection H as <- <-. exists p. by left.
  - destruct (IH _ _ _ _ H) as [x Hx]. exists x. by right.
Qed.

Lemma sample_outcome u cdist s :
  ProbabilisticRecommendationAlgorithm.sample u cdist s
    = (Fail (Thrown (Error "The cumulative distribution is invalid.")), s) ∨
  ∃ i, ProbabilisticRecommendationAlgorithm.sample u cdist s = (Ok i, s).
Proof.
  induction cdist as [|[i cp] cdist IH]; simpl; [by left|].
  destruct (Qlt_bool u cp); [right; by exists i | done].
Qed.

(** X19.  On a rated network of the constructor's shape, when the scores
    with those of the rated items set to zero are all equal or have a sum
    other than zero, and the random draw [u] is not negative, the
    probabilistic algorithm draws one random number and either throws the
    Error of an invalid cumulative distribution or returns an index below
    [nNodes]; unless the scores are all equal (then it samples from all
    items alike) the item it returns is unrated.  (With scores that are not
    all equal and sum to zero the program divides by zero; the model leaves
    that out.) *)
Theorem probabilistic_avoids_rated this s rnet o net rs rv s1 vec :
  rated_network s rnet o net rs →
  well_shaped o net rs →
  0 < nNodes o →
  (0 <= tape s (drawn s))%Q →
  getRecommendationVector this rnet s = (Ok rv, s1) →
  heap s1 !! rv = Some (CNums vec) →
  every (fun e => Qeq_bool e (hd 0%Q (mask rs vec 0%Q))) (mask rs vec 0%Q) = true ∨
  Qeq_bool (fold_left add64 (tl (mask rs vec 0%Q)) (hd 0%Q (mask rs vec 0%Q))) 0 = false →
  drawn (ProbabilisticRecommendationAlgorithm.recommend this rnet s).2 = S (drawn s) ∧
  ((ProbabilisticRecommendationAlgorithm.recommend this rnet s).1
     = Fail (Thrown (Error "The cumulative distribution is invalid.")) ∨
   ∃ i, (ProbabilisticRecommendationAlgorithm.recommend this rnet s).1 = Ok i ∧
        i < nNodes o ∧
        (every (fun e => Qeq_bool e (hd 0%Q (mask rs vec 0%Q))) (mask rs vec 0%Q) = false →
         rs !! i = Some None)).
Proof.
  intros Hrn Hws Hpos Hu Hget Hrv Hcond.
  destruct (prob_run this s rnet o net rs Hrn Hws Hpos)
    as (rv' & s1' & vec' & Hget' & Hrv' & Hlen & Htape & Hdrawn & Hcases).
  rewrite Hget in Hget'. injection Hget' as <- <-.
  rewrite Hrv in Hrv'. injection Hrv' as <-.
  destruct Hws as (_ & _ & Hrslen).
  set (z := mask rs vec 0%Q) in *.
  assert (Hzlen : length z = nNodes o) by (unfold z; rewrite length_mask; lia).
  assert (Hb0 : binary64 0) by reflexivity.
  destruct Hcases as [(Hall & Hrun) | [(Hall & Hsum & Hrun) | (Hall & Hsum & Hrun)]].
  - rewrite Hrun.
    match goal with |- context [ProbabilisticRecommendationAlgorithm.sample ?u ?c ?s3] =>
      destruct (sample_outcome u c s3) as [E|[i E]]; rewrite E end.
    + split; [simpl in Hdrawn |- *; congruence | by left].
    + split; [simpl in Hdrawn |- *; congruence|]. right. exists i. split; [done|].
      apply sample_nonzero in E as [_ (p & Hp & _)]; [|done|lra].
      apply elem_of_sort, elem_of_entries in Hp. apply lookup_lt_Some in Hp.
      rewrite length_replicate in Hp. split; [lia | congruence].
  - destruct Hcond; congruence.
  - rewrite Hrun.
    match goal with |- context [ProbabilisticRecommendationAlgorithm.sample ?u ?c ?s3] =>
      destruct (sample_outcome u c s3) as [E|[i E]]; rewrite E end.
    + split; [simpl in Hdrawn |- *; congruence | by left].
    + split; [simpl in Hdrawn |- *; congruence|]. right. exists i. split; [done|].
      apply sample_nonzero in E as [_ (p & Hp & Hne)]; [|done|lra].
      apply elem_of_sort, elem_of_entries in Hp.
      change (map (fun e => div64 e ?t) z) with ((fun e => div64 e t) <$> z) in Hp.
      rewrite list_lookup_fmap in Hp.
      destruct (z !! i) as [e|] eqn:Ez; [|done]. simpl in Hp. injection Hp as <-.
      pose proof (lookup_lt_Some _ _ _ Ez) as Hi.
      split; [lia|]. intros _.
      destruct (lookup_lt_is_Some_2 rs i) as [[q|] Hq]; [lia | | done].
      exfalso. unfold z in Ez. rewrite (mask_lookup_rated _ _ _ _ _ Hq) in Ez by lia.
      injection Ez as <-. apply Hne. unfold div64.
      assert (E0 : ∀ t, (0 / t == 0)%Q) by (intros; unfold Qdiv; ring).
      by rewrite (round64_zero _ (E0 _)).
Qed.

Lemma probabilistic_avoids_rated_witness :
  drawn (ProbabilisticRecommendationAlgorithm.recommend defaultAlgorithm 2 tieNetwork).2
    = S (drawn tieNetwork) ∧
  ((ProbabilisticRecommendationAlgorithm.recommend defaultAlgorithm 2 tieNetwork).1
     = Fail (Thrown (Error "The cumulative distribution is invalid.")) ∨
   ∃ i, (ProbabilisticRecommendationAlgorithm.recommend defaultAlgorithm 2 tieNetwork).1 = Ok i ∧
        i < nNodes scenarioFields ∧
        (every (fun e => Qeq_bool e
                  (hd 0%Q (mask scenarioRatings [-(5 # 4); 5 # 4; 5 # 4]%Q 0%Q)))
               (mask scenarioRatings [-(5 # 4); 5 # 4; 5 # 4]%Q 0%Q) = false →
         scenarioRatings !! i = Some None)).
Proof.
  eapply (probabilistic_avoids_rated defaultAlgorithm tieNetwork 2 scenarioFields
            tieMatrix scenarioRatings _ _ [-(5 # 4); 5 # 4; 5 # 4]%Q).
  - repeat split.
  - repeat split. repeat constructor.
  - simpl. lia.
  - simpl. discriminate.
  - vm_compute. reflexivity.
  - vm_compute. reflexivity.
  - right. vm_compute. reflexivity.
Defined.

Lemma mask_all_rated (rs : list Rating) vec x :
  None ∉ rs → length vec = length rs → mask rs vec x = replicate (length vec) x.
Proof.
  intros Hrated Hlen. apply list_eq. intros j.
  destruct (decide (j < length vec)) as [Hj|Hj].
  - rewrite lookup_replicate_2 by done.
    destruct (lookup_lt_is_Some_2 rs j) as [[q|] Hq]; [lia | | ].
    + by apply (mask_lookup_rated _ _ _ _ _ Hq).
    + exfalso. apply Hrated. by eapply list_elem_of_lookup_2.
  - rewrite !lookup_ge_None_2; [done | rewrite length_replicate; lia
                                | rewrite length_mask; lia].
Qed.

Lemma every_replicate (x : Q) n :
  every (fun e => Qeq_bool e (hd 0%Q (replicate n x))) (replicate n x) = true.
Proof.
  unfold every. apply forallb_forall. intros e He.
  apply list_elem_of_In, elem_of_replicate in He as [-> Hn].
  destruct n; [done|]. simpl. apply Qeq_bool_iff. reflexivity.
Qed.

(** X20.  When every item is already rated, the probabilistic algorithm
    samples from all items: it draws one random number and returns an index
    below [nNodes], a rated item, or throws the Error of an invalid
    cumulative distribution.  It does throw: the rounded shares [1/nNodes]
    can add up to less than 1, as for ten items, where a draw of
    [1 - 2^-53] is not below the last cumulative value. *)
Theorem probabilistic_on_fully_rated this s rnet o net rs :
  rated_network s rnet o net rs →
  well_shaped o net rs →
  0 < nNodes o →
  None ∉ rs →
  drawn (ProbabilisticRecommendationAlgorithm.recommend this rnet s).2 = S (drawn s) ∧
  ((ProbabilisticRecommendationAlgorithm.recommend this rnet s).1
     = Fail (Thrown (Error "The cumulative distribution is invalid.")) ∨
   ∃ i, (ProbabilisticRecommendationAlgorithm.recommend this rnet s).1 = Ok i ∧
        i < nNodes o ∧ ∃ q, rs !! i = Some (Some q)).
Proof.
  intros Hrn Hws Hpos Hrated.
  destruct (prob_run this s rnet o net rs Hrn Hws Hpos)
    as (rv & s1 & vec & Hget & Hrv & Hlen & Htape & Hdrawn & Hcases).
  destruct Hws as (_ & _ & Hrslen).
  rewrite (mask_all_rated rs vec 0%Q Hrated) in Hcases by lia.
  rewrite every_replicate, length_replicate, Hlen in Hcases.
  destruct Hcases as [(_ & Hrun) | [(? & _) | (? & _)]]; [|done..].
  rewrite Hrun.
  match goal with |- context [ProbabilisticRecommendationAlgorithm.sample ?u ?c ?s3] =>
    destruct (sample_outcome u c s3) as [E|[i E]]; rewrite E end.
  - split; [simpl in Hdrawn |- *; congruence | by left].
  - split; [simpl in Hdrawn |- *; congruence|]. right. exists i. split; [done|].
    assert (Hi : i < nNodes o).
    { apply sample_index in E as [x Hx]. apply elem_of_sort, elem_of_entries in Hx.
      apply lookup_lt_Some in Hx. by rewrite length_replicate in Hx. }
    split; [done|].
    destruct (lookup_lt_is_Some_2 rs i) as [[q|] Hq]; [lia | eauto |].
    exfalso. apply Hrated. by eapply list_elem_of_lookup_2.
Qed.

Lemma probabilistic_on_fully_rated_witness :
  (drawn (ProbabilisticRecommendationAlgorithm.recommend defaultAlgorithm 2 tenRatedStore).2
     = S (drawn tenRatedStore) ∧
   ((ProbabilisticRecommendationAlgorithm.recommend defaultAlgorithm 2 tenRatedStore).1
      = Fail (Thrown (Error "The cumulative distribution is invalid.")) ∨
    ∃ i, (ProbabilisticRecommendationAlgorithm.recommend defaultAlgorithm 2 tenRatedStore).1
           = Ok i ∧
         i < 10 ∧ ∃ q, replicate 10 (Some 3%Q) !! i = Some (Some q))) ∧
  (ProbabilisticRecommendationAlgorithm.recommend defaultAlgorithm 2 tenRatedStore).1
    = Fail (Thrown (Error "The cumulative distribution is invalid.")).
Proof.
  split.
  - apply (probabilistic_on_fully_rated defaultAlgorithm tenRatedStore 2
             (mkRatedNetwork 10 0 1 0%Q 1%Q) (Matrix.twoDimArray 10 10 0%Q)
             (replicate 10 (Some 3%Q))).
    + repeat split.
    + repeat split. repeat constructor.
    + simpl. lia.
    + intros H. apply elem_of_replicate in H as [H _]. discriminate.
  - vm_compute. reflexivity.
Defined.

(** ** The entries of a similarity matrix *)

Lemma fold_left_seq_ind {A} (P : nat -> A -> Prop) (f : A -> nat -> A) start len a :
  P 0 a →
  (∀ k a, k < len → P k a → P (S k) (f a (start + k))) →
  P len (fold_left f (seq start len) a).
Proof.
  induction len as [|len IH]; intros H0 Hstep; [done|].
  rewrite seq_S, fold_left_app. simpl. apply Hstep; [lia|].
  apply IH; [done|]. intros k a' Hk. apply Hstep. lia.
Qed.

Lemma fillPair_filled this meanVector D m i j :
  filledPairs this meanVector D m → i < j → j < length meanVector →
  filledPairs this meanVector (fun x y => D x y ∨ (x = i ∧ y = j))
    (ProfileLearner.fillPair this meanVector i m j).
Proof.
  intros (Hlen & Hrows & Hfilled) Hij Hj. unfold ProfileLearner.fillPair.
  set (n := length meanVector) in *.
  set (v := similarityFunction this _ _).
  destruct (shape_setEntry n m i j v Hlen Hrows) as [Hlen1 Hrows1].
  destruct (shape_setEntry n _ j i v Hlen1 Hrows1) as [Hlen2 Hrows2].
  split; [done|]. split; [done|].
  intros x y Hxy Hy HD. simpl.
  rewrite !(entry_setEntry n _ j i) by (done || lia).
  rewrite !(entry_setEntry n _ i j) by (done || lia).
  repeat destruct (decide _) as [[-> ->]|?]; try lia; try done.
  - by rewrite decide_True.
  - destruct HD as [HD|[-> ->]]; [by apply Hfilled | lia].
Qed.

Lemma filledPairs_weaken this meanVector (D D' : nat -> nat -> Prop) m :
  filledPairs this meanVector D m →
  (∀ x y, x < y → y < length meanVector → D' x y → D x y) →
  filledPairs this meanVector D' m.
Proof.
  intros (Hlen & Hrows & Hfilled) Hsub. split; [done|]. split; [done|].
  intros x y Hxy Hy HD. apply Hfilled; auto.
Qed.

Lemma fillRow_filled this meanVector m i :
  filledPairs this meanVector (fun x _ => x < i) m →
  i < length meanVector →
  filledPairs this meanVector (fun x _ => x < S i)
    (ProfileLearner.fillRow this meanVector m i).
Proof.
  intros Hm Hi. unfold ProfileLearner.fillRow.
  apply (filledPairs_weaken this meanVector
           (fun x y => x < i ∨ (x = i ∧ y < i + 1 + (length meanVector - (i + 1))))).
  - apply (fold_left_seq_ind
             (fun k m => filledPairs this meanVector
                           (fun x y => x < i ∨ (x = i ∧ y < i + 1 + k)) m)).
    + eapply filledPairs_weaken; [exact Hm|]. intros x y ?? [?|[-> ?]]; [done | lia].
    + intros k m' Hk Hm'.
      eapply filledPairs_weaken.
      * apply (fillPair_filled this meanVector _ m' i (i + 1 + k) Hm'); lia.
      * intros x y Hxy Hy [?|[-> Hlt]]; simpl; [by left; left|].
        destruct (decide (y = i + 1 + k)) as [->|]; [by right|].
        left. right. split; [done | lia].
  - intros x y Hxy Hy Hx. destruct (decide (x = i)) as [->|]; [right; lia | left; lia].
Qed.

Lemma meanVectorsToSimilarityMatrix_filled this meanVector :
  filledPairs this meanVector (fun _ _ => True)
    (ProfileLearner.meanVectorsToSimilarityMatrix this meanVector).
Proof.
  unfold ProfileLearner.meanVectorsToSimilarityMatrix.
  apply (filledPairs_weaken this meanVector (fun x _ => x < length meanVector - 1)).
  - apply (fold_left_seq_ind
             (fun k m => filledPairs this meanVector (fun x _ => x < k) m)).
    + destruct (zeros_inv (length meanVector)) as (Hlen & Hrows & _).
      split; [done|]. split; [done|]. intros x y _ _ Hx. lia.
    + intros k m Hk Hm. simpl. apply fillRow_filled; [done | lia].
  - intros x y Hxy Hy _. lia.
Qed.

(** X21.  In the similarity matrix built from a mean rating vector, the
    entry of two distinct items [i < j] is, at [(i, j)] and at [(j, i)], the
    similarity function applied to the mean rating of [i] and then that of
    [j]: the lower-indexed item is always the first argument. *)
Theorem similarity_matrix_entries this meanVector i j a b :
  meanVector !! i = Some a → meanVector !! j = Some b → i < j →
  entry (ProfileLearner.meanVectorsToSimilarityMatrix this meanVector) i j
    = Some (similarityFunction this a b) ∧
  entry (ProfileLearner.meanVectorsToSimilarityMatrix this meanVector) j i
    = Some (similarityFunction this a b).
Proof.
  intros Ha Hb Hij.
  destruct (meanVectorsToSimilarityMatrix_filled this meanVector) as (_ & _ & Hfilled).
  specialize (Hfilled i j Hij (lookup_lt_Some _ _ _ Hb) I). simpl in Hfilled.
  by rewrite (nth_lookup_Some _ _ _ _ Ha), (nth_lookup_Some _ _ _ _ Hb) in Hfilled.
Qed.

Lemma similarity_matrix_entries_witness :
  entry (ProfileLearner.meanVectorsToSimilarityMatrix exampleLearner [1; 3; 2]%Q) 0 2
    = Some (similarityFunction exampleLearner 1 2) ∧
  entry (ProfileLearner.meanVectorsToSimilarityMatrix exampleLearner [1; 3; 2]%Q) 2 0
    = Some (similarityFunction exampleLearner 1 2).
Proof.
  apply (similarity_matrix_entries exampleLearner [1; 3; 2]%Q 0 2 1%Q 2%Q).
  - reflexivity.
  - reflexivity.
  - lia.
Defined.

(** ** [setSimilarityFunction] *)

Lemma forEach_from_checks {A} (f : A -> nat -> M unit) (b : A -> bool) e l :
  (∀ x i s, f x i s = if b x then (Ok tt, s) else (Fail e, s)) →
  ∀ k s, forEach_from f k l s = if forallb b l then (Ok tt, s) else (Fail e, s).
Proof.
  intros Hf. induction l as [|x l IH]; intros k s; simpl; [done|].
  destruct (b x) eqn:E; simpl.
  - rewrite (bind_ok _ _ s tt s); [apply IH|]. by rewrite Hf, E.
  - apply bind_fail. by rewrite Hf, E.
Qed.

Lemma elem_of_ratingRange q :
  In q SimilarityFunction.ratingRange ↔
  ∃ n, q = inject_Z (Z.of_nat n) ∧ 1 ≤ n ≤ 5.
Proof.
  unfold SimilarityFunction.ratingRange. rewrite in_map_iff. split.
  - intros (n & <- & Hn%in_seq). exists n. split; [done|].
    unfold SimilarityFunction.minRating, SimilarityFunction.maxRating in Hn. lia.
  - intros (n & -> & Hn). exists n. split; [done|]. apply in_seq.
    unfold SimilarityFunction.minRating, SimilarityFunction.maxRating. lia.
Qed.

(** X22.  [setSimilarityFunction] accepts a similarity function exactly when
    its value lies in [0, 1] on every pair of the integer ratings 1..5: then
    the learner's similarity function becomes the given one at the given
    parameters; otherwise it throws an AssertionError and the learner is not
    replaced.  Nothing else of the state changes, and no value of the
    function outside the integer ratings is looked at. *)
Theorem setSimilarityFunction_checks_integer_ratings {P : Type}
    (this : ProfileLearner) (f : Q -> Q -> P -> Q) (parameters : P) s :
  let valid (i j : nat) :=
    (0 <= f (inject_Z (Z.of_nat i)) (inject_Z (Z.of_nat j)) parameters)%Q ∧
    (f (inject_Z (Z.of_nat i)) (inject_Z (Z.of_nat j)) parameters <= 1)%Q in
  let result := SimilarityFunction.setSimilarityFunction this f parameters s in
  result.2 = s ∧
  ((∀ i j, 1 ≤ i ≤ 5 → 1 ≤ j ≤ 5 → valid i j) →
   ∃ learner, result.1 = Ok learner ∧
              ∀ r1 r2, similarityFunction learner r1 r2 = f r1 r2 parameters) ∧
  ((∃ i j, 1 ≤ i ≤ 5 ∧ 1 ≤ j ≤ 5 ∧ ¬ valid i j) →
   result.1 = Fail (Thrown (AssertionError "the similarity should be 0 <= s <= 1"))).
Proof.
  intros valid result. unfold result, SimilarityFunction.setSimilarityFunction.
  set (ok := fun i j => Qle_bool 0 (f i j parameters) && Qle_bool (f i j parameters) 1).
  set (e := Thrown (AssertionError "the similarity should be 0 <= s <= 1")).
  assert (Hinner : ∀ (i : Q) (k : nat) s,
            forEach (fun j (_ : nat) =>
                       assert (ok i j) "the similarity should be 0 <= s <= 1")
                    SimilarityFunction.ratingRange s
            = if forallb (ok i) SimilarityFunction.ratingRange
              then (Ok tt, s) else (Fail e, s)).
  { intros i _ s0. apply forEach_from_checks. intros x _ s1. by destruct (ok i x). }
  assert (Houter :
            forEach (fun i (_ : nat) =>
                       forEach (fun j (_ : nat) =>
                                  assert (ok i j) "the similarity should be 0 <= s <= 1")
                               SimilarityFunction.ratingRange)
                    SimilarityFunction.ratingRange s
            = if forallb (fun i => forallb (ok i) SimilarityFunction.ratingRange)
                         SimilarityFunction.ratingRange
              then (Ok tt, s) else (Fail e, s)).
  { apply forEach_from_checks. intros x k s1. by apply Hinner. }
  assert (Hok : ∀ i j, ok (inject_Z (Z.of_nat i)) (inject_Z (Z.of_nat j)) = true ↔ valid i j).
  { intros i j. unfold ok, valid. by rewrite andb_true_iff, !Qle_bool_iff. }
  destruct (forallb _ SimilarityFunction.ratingRange) eqn:Eall.
  - rewrite (bind_ok _ _ _ _ _ Houter). simpl. split; [done|]. split.
    + intros _. by eexists.
    + intros (i & j & Hi & Hj & Hbad). exfalso. apply Hbad, Hok.
      rewrite forallb_forall in Eall.
      specialize (Eall (inject_Z (Z.of_nat i))). rewrite forallb_forall in Eall.
      apply Eall; apply elem_of_ratingRange; eauto.
  - rewrite (bind_fail _ _ _ _ _ Houter). simpl. split; [done|]. split; [|done].
    intros Hall. exfalso.
    assert (forallb (fun i => forallb (ok i) SimilarityFunction.ratingRange)
                    SimilarityFunction.ratingRange = true) as Htrue; [|congruence].
    apply forallb_forall. intros qi (i & -> & Hi)%elem_of_ratingRange.
    apply forallb_forall. intros qj (j & -> & Hj)%elem_of_ratingRange.
    apply Hok. by apply Hall.
Qed.

(** ** One K-Means iteration *)

Lemma vectorDist_inv rating v s d s' :
  Matrix.vectorDist rating v s = (Ok d, s') →
  Math_sqrt <$> Matrix.sumSquares rating v 0%Q = Some d.
Proof.
  unfold Matrix.vectorDist, console_assert, mbind, M_bind.
  destruct (Nat.eqb _ _); destruct (Matrix.sumSquares rating v 0%Q); simpl;
    by intros [= <- _].
Qed.

Lemma assign_inv means rating s idx s' :
  KMeansLearner.assign means rating s = (Ok idx, s') → nearest_last means rating idx.
Proof.
  unfold KMeansLearner.assign. intros H.
  apply bind_inv in H as (dists & s1 & Hrun & H).
  apply bind_inv in H as (best & s2 & Hbest & H). injection H as <- _.
  assert (HF : Forall2 (fun v d => Math_sqrt <$> Matrix.sumSquares rating v 0%Q = Some d)
                       means dists).
  { eapply mapM_run_Forall2; [|exact Hrun]. intros v s0 d s0'. apply vectorDist_inv. }
  assert (Hdist : ∀ j, distanceTo means rating j = dists !! j).
  { intros j. unfold distanceTo. destruct (means !! j) as [v|] eqn:Ev; simpl.
    - destruct (Forall2_lookup_l _ _ _ _ _ HF Ev) as (d & Hd & Hvd). by rewrite Hd.
    - symmetry. apply lookup_ge_None. rewrite <- (Forall2_length _ _ _ HF).
      by apply lookup_ge_None. }
  destruct dists as [|d0 dists]; [done|].
  unfold entries in Hbest. rewrite imap_cons, reduce_run in Hbest.
  injection Hbest as <- _.
  destruct (fold_pick_least (fun p : nat * Root => Root_value (snd p))
              (tl (entries (d0 :: dists))) (0, d0)) as (i & Hi & Hall).
  change ((0, d0) :: tl (entries (d0 :: dists))) with (entries (d0 :: dists)) in *.
  change (fold_left KMeansLearner.nearer (imap ((fun i x => (i, x)) ∘ S) dists) (0, d0))
    with (fold_left (pick (fun a b : nat * Root =>
                             Qlt_bool (Root_value (snd a)) (Root_value (snd b))))
                    (tl (entries (d0 :: dists))) (0, d0)).
  set (r := fold_left _ _ _) in *.
  unfold entries in Hi. rewrite list_lookup_imap in Hi.
  destruct ((d0 :: dists) !! i) as [d|] eqn:Ed; [|done]. simpl in Hi.
  injection Hi as Hi. rewrite <- Hi in *. simpl.
  exists d. split; [by rewrite Hdist|].
  intros j dj Hj. rewrite Hdist in Hj.
  destruct (Hall j (j, dj)) as [H1 H2]; [|done].
  unfold entries. by rewrite list_lookup_imap, Hj.
Qed.

Lemma sumSquares_same rating :
  ∀ m1 m2 acc, same_numbers m1 m2 →
  Matrix.sumSquares rating m1 acc = Matrix.sumSquares rating m2 acc.
Proof.
  induction rating as [|r rating IH]; intros m1 m2 acc H; simpl; [done|].
  destruct (toNumber r) as [x|]; simpl; [|done].
  destruct H as [|a b m1 m2 Hab H]; simpl; [done|].
  destruct (toNumber a) as [y|], (toNumber b) as [y'|]; simpl; try done.
  assert (E : sub64 x y = sub64 x y').
  { unfold sub64. apply round64_proper. by rewrite Hab. }
  rewrite E. by apply IH.
Qed.

Lemma nearest_last_distinct means rating a b ma mb :
  means !! a = Some ma → means !! b = Some mb → a < b → same_numbers ma mb →
  ¬ nearest_last means rating a.
Proof.
  intros Ha Hb Hab Hsame (d & Hd & Hall).
  destruct (Hall b d) as [_ Hlt].
  - unfold distanceTo in *. rewrite Hb. rewrite Ha in Hd. simpl in *.
    by rewrite <- (sumSquares_same rating ma mb 0%Q Hsame).
  - specialize (Hlt Hab). unfold Root_lt in Hlt. lra.
Qed.

Lemma vectorMean_inv vectors s mean s' :
  Matrix.vectorMean vectors s = (Ok mean, s') → vectors ≠ [].
Proof.
  unfold Matrix.vectorMean. intros H.
  apply bind_inv in H as (u & s1 & _ & H). by destruct vectors.
Qed.

Lemma kMeansIteration_inv ratings means s newMeans s' :
  KMeansLearner.kMeansIteration ratings means s = (Ok newMeans, s') →
  length newMeans = length means ∧
  ∀ i, i < length means → ∃ rating, rating ∈ ratings ∧ nearest_last means rating i.
Proof.
  unfold KMeansLearner.kMeansIteration. intros H.
  apply bind_inv in H as (u1 & s1 & _ & H).
  apply bind_inv in H as (u2 & s2 & _ & H).
  apply bind_inv in H as (nNodes & s3 & _ & H).
  apply bind_inv in H as (pointAssignments & s4 & Hassign & H).
  apply bind_inv in H as (means' & s5 & Hmeans & H). injection H as <- _.
  assert (HA : Forall2 (fun rating (p : nat * list jsval) =>
                          p.2 = rating ∧ nearest_last means rating p.1)
                       ratings pointAssignments).
  { eapply mapM_run_Forall2; [|exact Hassign]. intros rating s0 p s0' Hp.
    apply bind_inv in Hp as (idx & s0'' & Hidx & Hp). injection Hp as <- _.
    split; [done|]. by eapply assign_inv. }
  assert (HM : Forall2 (fun i (_ : list jsval) =>
                          ∃ p, p ∈ pointAssignments ∧ p.1 = i)
                       (Matrix.range (length means)) means').
  { eapply mapM_run_Forall2; [|exact Hmeans]. intros i s0 mean s0' Hp.
    apply bind_inv in Hp as (mean0 & s0'' & Hmean & _).
    apply vectorMean_inv in Hmean.
    destruct (filter _ pointAssignments) as [|p l] eqn:Ef; [done|].
    assert (Hp : p ∈ filter (fun p : nat * list jsval => p.1 = i) pointAssignments)
      by (rewrite Ef; by left).
    apply list_elem_of_filter in Hp as [Hp1 Hp2]. eauto. }
  split.
  - rewrite <- (Forall2_length _ _ _ HM). unfold Matrix.range. apply length_seq.
  - intros i Hi.
    assert (Hr : Matrix.range (length means) !! i = Some i).
    { unfold Matrix.range. by rewrite lookup_seq_lt. }
    destruct (Forall2_lookup_l _ _ _ _ _ HM Hr) as (_ & _ & p & Hp & <-).
    apply list_elem_of_lookup in Hp as [n Hn].
    destruct (Forall2_lookup_r _ _ _ _ _ HA Hn) as (rating & Hrating & <- & Hnear).
    exists p.2. split; [by eapply list_elem_of_lookup_2 | done].
Qed.

(** X23.  On ratings and means of magnitudes that keep the distances
    finite, an iteration of K-Means returns only when every cluster is, by
    the distances the program computes, the last nearest one of some user.
    It returns as many means as it was given, and never returns when two of
    the current means hold the same numbers: the cluster of lower index then
    gets no user, and the mean of no vectors is not computed. *)
Theorem kMeansIteration_returns_on_distinct_means ratings means s newMeans :
  Forall (finite_distances means) ratings →
  (KMeansLearner.kMeansIteration ratings means s).1 = Ok newMeans →
  length newMeans = length means ∧
  (∀ i, i < length means → ∃ rating, rating ∈ ratings ∧ nearest_last means rating i) ∧
  ∀ a b ma mb, a < b → means !! a = Some ma → means !! b = Some mb →
               ¬ same_numbers ma mb.
Proof.
  intros _ H.
  destruct (KMeansLearner.kMeansIteration ratings means s) as [r s'] eqn:E.
  simpl in H. subst r. apply kMeansIteration_inv in E as [Hlen Hall].
  split; [done|]. split; [done|].
  intros a b ma mb Hlt Ha Hb Hsame.
  destruct (Hall a) as (rating & _ & Hnear); [by eapply lookup_lt_Some|].
  exact (nearest_last_distinct means rating a b ma mb Ha Hb Hlt Hsame Hnear).
Qed.

Lemma kMeansIteration_returns_on_distinct_means_witness :
  ∃ newMeans,
    (KMeansLearner.kMeansIteration [[Num 1; Num 4]; [Num 5; Num 0]; [Num 5; Null]]
       [[Num 1; Num 4]; [Num 5; Num 2]] scenarioStore).1 = Ok newMeans ∧
    length newMeans = length [[Num 1; Num 4]; [Num 5; Num 2]] ∧
    (∀ i, i < length [[Num 1; Num 4]; [Num 5; Num 2]] →
       ∃ rating, rating ∈ [[Num 1; Num 4]; [Num 5; Num 0]; [Num 5; Null]] ∧
                 nearest_last [[Num 1; Num 4]; [Num 5; Num 2]] rating i) ∧
    ∀ a b ma mb, a < b →
      [[Num 1; Num 4]; [Num 5; Num 2]] !! a = Some ma →
      [[Num 1; Num 4]; [Num 5; Num 2]] !! b = Some mb →
      ¬ same_numbers ma mb.
Proof.
  eexists. split; [vm_compute; reflexivity|].
  apply (kMeansIteration_returns_on_distinct_means
           [[Num 1; Num 4]; [Num 5; Num 0]; [Num 5; Null]]
           [[Num 1; Num 4]; [Num 5; Num 2]] scenarioStore).
  - repeat (apply List.Forall_cons;
            [repeat split; repeat constructor; by vm_compute|]).
    apply List.Forall_nil.
  - vm_compute. reflexivity.
Defined.

(** ** The initial means *)

Lemma drawIndex_inv fuel nUsers startIdx s c s' :
  KMeansLearner.drawIndex fuel nUsers startIdx s = (Ok c, s') → c ∉ startIdx.
Proof.
  revert s. induction fuel as [|fuel IH]; intros s H; simpl in H; [done|].
  apply bind_inv in H as (candidateIdx & s1 & _ & H).
  destruct (existsb (Z.eqb candidateIdx) startIdx) eqn:E; [by eapply IH|].
  injection H as <- _. intros Hin%list_elem_of_In.
  assert (existsb (Z.eqb candidateIdx) startIdx = true); [|congruence].
  apply existsb_exists. exists candidateIdx. split; [done | apply Z.eqb_refl].
Qed.

Lemma drawIndices_inv fuel nUsers todo :
  ∀ startIdx s l s',
  KMeansLearner.drawIndices fuel nUsers todo startIdx s = (Ok l, s') →
  NoDup startIdx → NoDup l ∧ length l = length startIdx + todo.
Proof.
  induction todo as [|todo IH]; intros startIdx s l s' H Hnd; simpl in H.
  - injection H as <- _. split; [done | lia].
  - apply bind_inv in H as (c & s1 & Hc & H). apply drawIndex_inv in Hc.
    apply IH in H as [H1 H2].
    + split; [done|]. rewrite length_app in H2. simpl in H2. lia.
    + apply NoDup_app. split; [done|]. split.
      * intros x Hx ->%list_elem_of_singleton. done.
      * apply NoDup_singleton.
Qed.

Lemma NoDup_below_length (l : list nat) n :
  NoDup l → Forall (fun i => i < n) l → length l ≤ n.
Proof.
  intros Hnd Hlt. rewrite <- (length_seq n 0). apply submseteq_length.
  apply NoDup_submseteq; [done|]. intros i Hi. apply elem_of_seq.
  rewrite Forall_forall in Hlt. specialize (Hlt i Hi). lia.
Qed.

Lemma initKMeans_inv fuel ratings k s means s' :
  KMeansLearner.initKMeans fuel ratings k s = (Ok means, s') →
  ∃ startIdx : list nat,
    length startIdx = k ∧ NoDup startIdx ∧
    Forall2 (fun i mean => ratings !! i = Some mean) startIdx means.
Proof.
  unfold KMeansLearner.initKMeans. intros H.
  apply bind_inv in H as (u1 & s1 & _ & H).
  apply bind_inv in H as (u2 & s2 & _ & H).
  apply bind_inv in H as (nNodes & s3 & _ & H).
  apply bind_inv in H as (startIdx & s4 & Hidx & H).
  apply drawIndices_inv in Hidx as [Hnd Hlen]; [|apply NoDup_nil_2].
  assert (HF : Forall2 (fun (i : Z) mean => (0 <= i)%Z ∧ ratings !! Z.to_nat i = Some mean)
                       startIdx means).
  { eapply mapM_run_Forall2; [|exact H]. intros i s0 mean s0' Hi.
    simpl in Hi. destruct (Z.ltb i 0) eqn:E; [discriminate Hi|]. apply Z.ltb_ge in E.
    destruct (ratings !! Z.to_nat i); [|discriminate Hi]. injection Hi as <- _. done. }
  exists (Z.to_nat <$> startIdx). split; [by rewrite length_fmap|]. split.
  - apply NoDup_fmap_2_strong; [|done]. intros x y Hx Hy Heq.
    apply list_elem_of_lookup in Hx as [n Hx]. apply list_elem_of_lookup in Hy as [n' Hy].
    destruct (Forall2_lookup_l _ _ _ _ _ HF Hx) as (_ & _ & Hx0 & _).
    destruct (Forall2_lookup_l _ _ _ _ _ HF Hy) as (_ & _ & Hy0 & _). lia.
  - apply Forall2_fmap_l. eapply Forall2_impl; [exact HF|]. by intros i mean [_ ?].
Qed.

(** X24.  When [initKMeans] returns, it returns [k] means, and they are the
    rating vectors of [k] pairwise distinct users; so it returns only for
    [1 <= k <= nUsers].  (With more clusters than users the search for an
    index not yet taken cannot end.) *)
Theorem initKMeans_picks_distinct_users fuel ratings k s means :
  (KMeansLearner.initKMeans fuel ratings k s).1 = Ok means →
  length means = k ∧ 1 ≤ k ≤ length ratings ∧
  ∃ startIdx : list nat,
    NoDup startIdx ∧
    Forall2 (fun i mean => ratings !! i = Some mean) startIdx means.
Proof.
  intros H.
  destruct (KMeansLearner.initKMeans fuel ratings k s) as [r s'] eqn:E.
  simpl in H. subst r.
  assert (Hk : 1 ≤ k).
  { unfold KMeansLearner.initKMeans in E.
    apply bind_inv in E as (u1 & s1 & [Hk _]%assert_inv & _). by apply Nat.leb_le. }
  apply initKMeans_inv in E as (startIdx & Hlen & Hnd & HF).
  split; [by rewrite <- (Forall2_length _ _ _ HF)|]. split.
  - split; [done|]. rewrite <- Hlen. apply NoDup_below_length; [done|].
    apply Forall_forall. intros i [n Hn]%list_elem_of_lookup.
    destruct (Forall2_lookup_l _ _ _ _ _ HF Hn) as (mean & _ & Hi).
    by eapply lookup_lt_Some.
  - eauto.
Qed.

Lemma initKMeans_picks_distinct_users_witness :
  ∃ means,
    (KMeansLearner.initKMeans 5
       [[Num 5; Null; Num 1]; [Num 1; Num 4; Null]; [Num 5; Null; Num 2]] 2
       threeUsersStore).1 = Ok means ∧
    length means = 2 ∧
    1 ≤ 2 ≤ length [[Num 5; Null; Num 1]; [Num 1; Num 4; Null]; [Num 5; Null; Num 2]] ∧
    ∃ startIdx : list nat,
      NoDup startIdx ∧
      Forall2 (fun i mean =>
                 [[Num 5; Null; Num 1]; [Num 1; Num 4; Null]; [Num 5; Null; Num 2]] !! i
                   = Some mean) startIdx means.
Proof.
  eexists. split; [vm_compute; reflexivity|].
  apply (initKMeans_picks_distinct_users 5
           [[Num 5; Null; Num 1]; [Num 1; Num 4; Null]; [Num 5; Null; Num 2]] 2
           threeUsersStore).
  vm_compute. reflexivity.
Defined.

(** ** The average learner *)

Lemma mapM_reads_run {A B} (f : A -> M B) s l ys :
  Forall2 (fun x y => f x s = (Ok y, s)) l ys → mapM f l s = (Ok ys, s).
Proof.
  induction 1 as [|x y l ys Hx _ IH]; [done|].
  rewrite mapM_cons, (bind_ok _ _ _ _ _ Hx), (bind_ok _ _ _ _ _ IH). done.
Qed.

Lemma addScaled_ratingVal rs n :
  ∀ acc, Matrix.addScaled acc (map ratingVal rs) n
         = Matrix.addScaled acc (map Num (unratedAsZero rs)) n.
Proof.
  induction rs as [|[q|] rs IH]; intros [|m acc]; simpl; try done; by rewrite IH.
Qed.

Lemma addAll_ratingVal rss n :
  ∀ acc, Matrix.addAll acc (map (map ratingVal) rss) n
         = Matrix.addAll acc (map (map Num) (map unratedAsZero rss)) n.
Proof.
  induction rss as [|rs rss IH]; intros acc; simpl; [done|].
  rewrite addScaled_ratingVal.
  destruct (Matrix.addScaled acc (map Num (unratedAsZero rs)) n); simpl; [apply IH | done].
Qed.

Lemma vectorMean_ratingVal rss s :
  Matrix.vectorMean (map (map ratingVal) rss) s
  = Matrix.vectorMean (map (map Num) (map unratedAsZero rss)) s.
Proof.
  unfold Matrix.vectorMean, Matrix.isRectangular.
  assert (Hdim : map length (map (map ratingVal) rss)
                 = map length (map (map Num) (map unratedAsZero rss))).
  { rewrite !map_map. apply map_ext. intros rs. unfold unratedAsZero.
    by rewrite !length_map. }
  rewrite Hdim. destruct rss as [|rs rss]; [done|].
  unfold mbind, M_bind. destruct (console_assert _ _ s) as [[[]|e] s1]; [|done].
  cbn [map]. rewrite (addAll_ratingVal (rs :: rss)). cbn [map length].
  unfold unratedAsZero. by rewrite !length_map.
Qed.

(** X25.  On users whose rated networks all have [n] items, the average
    learner changes nothing and returns one profile: the similarity matrix
    of the vector of length [n] that [vectorMean] computes from the users'
    ratings with every unrated item replaced by the rating 0.  (The [null]s
    that [cleanRatings] leaves in are read as 0 by the division in
    [vectorMean].) *)
Theorem AverageLearner_counts_unrated_as_zero this users s rss n :
  users ≠ [] →
  Forall2 (user_ratings s n) users rss →
  ∃ mean,
    AverageLearner.learnProfile this users s
      = (Ok [ProfileLearner.meanVectorsToSimilarityMatrix this mean], s) ∧
    Matrix.vectorMean (map (map Num) (map unratedAsZero rss)) s = (Ok mean, s) ∧
    length mean = n.
Proof.
  intros Hne HF.
  assert (Hrss : rss ≠ []).
  { intros ->. apply Forall2_nil_inv_r in HF. done. }
  assert (Hread : ∀ u rs, user_ratings s n u rs →
            (rn ← loadUser u; o ← loadNet rn; mret (nNodes o)) s = (Ok n, s)).
  { intros u rs (rn & o & Hu & Hrn & _ & Hn & _).
    rewrite (bind_ok _ _ _ _ _ (loadUser_run _ _ _ Hu)).
    rewrite (bind_ok _ _ _ _ _ (loadNet_run _ _ _ Hrn)). by rewrite <- Hn. }
  assert (Hfirst : ProfileLearner.firstNNodes users s = (Ok n, s)).
  { destruct HF as [|u rs users' rss' Hu _]; [done|]. simpl. by eapply Hread. }
  assert (Hns : ProfileLearner.allNNodes users s = (Ok (replicate (length users) n), s)).
  { apply mapM_reads_run. clear Hne Hrss Hfirst.
    induction HF as [|u rs users' rss' Hu _ IH]; simpl; constructor; eauto. }
  assert (Hevery : every (fun m => Nat.eqb m n) (replicate (length users) n) = true).
  { unfold every. apply forallb_forall.
    intros m [-> _]%list_elem_of_In%elem_of_replicate. apply Nat.eqb_refl. }
  assert (Hclean : ∃ rlocs,
            ProfileLearner.cleanRatings users s = (Ok (map inr rlocs), s) ∧
            Forall2 (fun l rs => heap s !! l = Some (CRatings rs)) rlocs rss).
  { unfold ProfileLearner.cleanRatings.
    assert (∃ rlocs,
              Forall2 (fun u l => (rn ← loadUser u; o ← loadNet rn; mret (ratings o)) s
                                  = (Ok l, s)) users rlocs ∧
              Forall2 (fun l rs => heap s !! l = Some (CRatings rs)) rlocs rss)
      as (rlocs & H1 & H2).
    { clear Hne Hrss Hfirst Hns Hevery.
      induction HF as [|u rs users' rss' (rn & o & Hu & Hrn & Hrs & _) _ IH].
      - exists []. split; constructor.
      - destruct IH as (rlocs & H1 & H2). exists (ratings o :: rlocs).
        split; constructor; try done.
        rewrite (bind_ok _ _ _ _ _ (loadUser_run _ _ _ Hu)).
        by rewrite (bind_ok _ _ _ _ _ (loadNet_run _ _ _ Hrn)). }
    exists rlocs. split; [|done].
    by rewrite (bind_ok _ _ _ _ _ (mapM_reads_run _ _ _ _ H1)). }
  destruct Hclean as (rlocs & Hclean & Hlocs).
  assert (Hrows : ProfileLearner.readRows (map inr rlocs) s
                  = (Ok (map (map ratingVal) rss), s)).
  { apply mapM_reads_run. clear - Hlocs.
    induction Hlocs as [|l rs rlocs' rss' Hl _ IH]; simpl; [constructor|].
    constructor; [|done].
    by rewrite (bind_ok _ _ _ _ _ (loadRatings_run _ _ _ Hl)). }
  destruct (vectorMean_num (map unratedAsZero rss) n s) as (mean & Hmean & Hlen).
  { by destruct rss. }
  { apply Forall_forall. intros v [rs [<- Hrs]]%list_elem_of_In%in_map_iff.
    apply list_elem_of_In, list_elem_of_lookup in Hrs as [k Hk].
    destruct (Forall2_lookup_r _ _ _ _ _ HF Hk) as (u & _ & (_ & _ & _ & _ & _ & _ & Hl)).
    unfold unratedAsZero. by rewrite length_map. }
  exists mean. split; [|done].
  rewrite <- vectorMean_ratingVal in Hmean.
  unfold AverageLearner.learnProfile.
  rewrite (bind_ok _ _ _ _ _ Hfirst), (bind_ok _ _ _ _ _ Hns), Hevery.
  rewrite (bind_ok _ _ _ _ _ (assert_true_run _ _)).
  rewrite (bind_ok _ _ _ _ _ Hclean), (bind_ok _ _ _ _ _ Hrows).
  by rewrite (bind_ok _ _ _ _ _ Hmean).
Qed.

Lemma AverageLearner_counts_unrated_as_zero_witness :
  ∃ mean,
    AverageLearner.learnProfile exampleLearner [3; 7; 11] threeUsersStore
      = (Ok [ProfileLearner.meanVectorsToSimilarityMatrix exampleLearner mean],
         threeUsersStore) ∧
    Matrix.vectorMean
      (map (map Num) (map unratedAsZero
         [[Some 5%Q; None; Some 1%Q]; [Some 1%Q; Some 4%Q; None];
          [Some 5%Q; None; Some 2%Q]])) threeUsersStore = (Ok mean, threeUsersStore) ∧
    length mean = 3.
Proof.
  apply (AverageLearner_counts_unrated_as_zero exampleLearner [3; 7; 11] threeUsersStore
           [[Some 5%Q; None; Some 1%Q]; [Some 1%Q; Some 4%Q; None];
            [Some 5%Q; None; Some 2%Q]] 3).
  - discriminate.
  - repeat constructor; eexists _, _; repeat split; reflexivity.
Defined.

(** ** The K-Means loop *)

Lemma iterate_inv ratings fuel :
  ∀ currentMeans previousMeans s final s',
  KMeansLearner.iterate fuel ratings currentMeans previousMeans s = (Ok final, s') →
  length final = length currentMeans ∧
  ∃ previous s0,
    (Matrix.isEqual final previous s0).1 = Ok true ∧
    ((final = currentMeans ∧ previous = previousMeans) ∨
     ∃ s1, (KMeansLearner.kMeansIteration ratings previous s1).1 = Ok final).
Proof.
  induction fuel as [|fuel IH]; intros currentMeans previousMeans s final s' H.
  - simpl in H. apply bind_inv in H as (converged & s1 & Heq & H).
    destruct converged; [|done]. injection H as <- _.
    split; [done|]. exists previousMeans, s. split; [by rewrite Heq | by left].
  - simpl in H. apply bind_inv in H as (converged & s1 & Heq & H).
    destruct converged.
    + injection H as <- _.
      split; [done|]. exists previousMeans, s. split; [by rewrite Heq | by left].
    + apply bind_inv in H as (newMeans & s2 & Hnew & H).
      pose proof (kMeansIteration_inv _ _ _ _ _ Hnew) as [Hlen _].
      apply IH in H as (Hlen' & previous & s0 & Heq' & Hcase).
      split; [congruence|]. exists previous, s0. split; [done|].
      destruct Hcase as [[-> ->]|?]; [|by right].
      right. exists s1. by rewrite Hnew.
Qed.

Lemma runKMeans_inv fuel initMeans ratings k s final s' :
  KMeansLearner.runKMeans fuel initMeans ratings k s = (Ok final, s') →
  length final = length initMeans ∧
  ∃ previous s0,
    (Matrix.isEqual final previous s0).1 = Ok true ∧
    ((final = initMeans ∧
      previous = Matrix.twoDimArray k (length (hd [] ratings)) Undefined) ∨
     ∃ s1, (KMeansLearner.kMeansIteration ratings previous s1).1 = Ok final).
Proof.
  unfold KMeansLearner.runKMeans. intros H.
  apply bind_inv in H as (u1 & s1 & _ & H).
  apply bind_inv in H as (u2 & s2 & _ & H).
  apply bind_inv in H as (u3 & s3 & _ & H).
  apply bind_inv in H as (nNodes & s4 & HnNodes & H).
  assert (nNodes = length (hd [] ratings)) as ->.
  { destruct ratings; [done|]. by injection HnNodes as <- _. }
  by apply iterate_inv in H.
Qed.

(** X26.  The means [runKMeans] returns are as many as the initial means,
    and they are where the loop stopped: [isEqual] holds between them and
    the means of the round before, from which one iteration produced them;
    or they are the initial means themselves, when these already compare
    equal to the [k] rows of [undefined] the loop starts from. *)
Theorem runKMeans_returns_where_iteration_stops fuel initMeans ratings k s final :
  (KMeansLearner.runKMeans fuel initMeans ratings k s).1 = Ok final →
  length final = length initMeans ∧
  ∃ previous s0,
    (Matrix.isEqual final previous s0).1 = Ok true ∧
    ((final = initMeans ∧
      previous = Matrix.twoDimArray k (length (hd [] ratings)) Undefined) ∨
     ∃ s1, (KMeansLearner.kMeansIteration ratings previous s1).1 = Ok final).
Proof.
  intros H.
  destruct (KMeansLearner.runKMeans fuel initMeans ratings k s) as [r s'] eqn:E.
  simpl in H. subst r. by eapply runKMeans_inv.
Qed.

Lemma runKMeans_returns_where_iteration_stops_witness :
  ∃ final,
    (KMeansLearner.runKMeans 3 [[Num 1; Num 4]; [Num 5; Num 2]]
       [[Num 1; Num 4]; [Num 5; Num 0]; [Num 5; Null]] 2 scenarioStore).1 = Ok final ∧
    length final = length [[Num 1; Num 4]; [Num 5; Num 2]] ∧
    ∃ previous s0,
      (Matrix.isEqual final previous s0).1 = Ok true ∧
      ((final = [[Num 1; Num 4]; [Num 5; Num 2]] ∧
        previous = Matrix.twoDimArray 2
                     (length (hd [] [[Num 1; Num 4]; [Num 5; Num 0]; [Num 5; Null]]))
                     Undefined) ∨
       ∃ s1, (KMeansLearner.kMeansIteration
                [[Num 1; Num 4]; [Num 5; Num 0]; [Num 5; Null]] previous s1).1 = Ok final).
Proof.
  eexists. split; [vm_compute; reflexivity|].
  apply (runKMeans_returns_where_iteration_stops 3 [[Num 1; Num 4]; [Num 5; Num 2]]
           [[Num 1; Num 4]; [Num 5; Num 0]; [Num 5; Null]] 2 scenarioStore).
  vm_compute. reflexivity.
Defined.

Lemma KMeans_learnProfile_inv this fuel users k s profiles s' :
  KMeansLearner.learnProfile this fuel users (Some k) s = (Ok profiles, s') →
  length profiles = k ∧ 1 ≤ k ≤ length users.
Proof.
  unfold KMeansLearner.learnProfile. intros H.
  apply bind_inv in H as (nNodes & s1 & _ & H).
  apply bind_inv in H as (u1 & s2 & [Hk1%Nat.leb_le _]%assert_inv & H).
  apply bind_inv in H as (u2 & s3 & [Hk2%Nat.leb_le _]%assert_inv & H).
  apply bind_inv in H as (ns & s4 & _ & H).
  apply bind_inv in H as (u3 & s5 & _ & H).
  apply bind_inv in H as (ratings & s6 & _ & H).
  apply bind_inv in H as (rows & s7 & _ & H).
  apply bind_inv in H as (initMeans & s8 & Hinit & H).
  apply bind_inv in H as (finalMeans & s9 & Hrun & H).
  apply initKMeans_inv in Hinit as (startIdx & Hlen & _ & HF).
  apply runKMeans_inv in Hrun as [Hfinal _].
  apply mapM_run_Forall2 with (P := fun _ _ => True) in H; [|done].
  apply Forall2_length in H, HF. split; [congruence | done].
Qed.

(** X27.  When the K-Means learner returns for a given [k], then
    [1 <= k <= nUsers] and it returns exactly [k] profiles. *)
Theorem KMeans_learnProfile_returns_k_profiles this fuel users k s profiles :
  (KMeansLearner.learnProfile this fuel users (Some k) s).1 = Ok profiles →
  length profiles = k ∧ 1 ≤ k ≤ length users.
Proof.
  intros H.
  destruct (KMeansLearner.learnProfile this fuel users (Some k) s) as [r s'] eqn:E.
  simpl in H. subst r. by eapply KMeans_learnProfile_inv.
Qed.

Lemma KMeans_learnProfile_returns_k_profiles_witness :
  ∃ profiles,
    (KMeansLearner.learnProfile exampleLearner 10 [3; 7; 11] (Some 2) threeUsersStore).1
      = Ok profiles ∧
    length profiles = 2 ∧ 1 ≤ 2 ≤ length [3; 7; 11].
Proof.
  eexists. split; [vm_compute; reflexivity|].
  apply (KMeans_learnProfile_returns_k_profiles exampleLearner 10 [3; 7; 11] 2
           threeUsersStore).
  vm_compute. reflexivity.
Defined.

(** ** The network generator *)

Lemma foldM_seq_ind {A} (f : A -> nat -> M A) len :
  ∀ (I : nat -> A -> state -> Prop) start,
  (∀ k a s, k < len → I k a s →
     ∃ a' s', f a (start + k) s = (Ok a', s') ∧ I (S k) a' s') →
  ∀ a s, I 0 a s →
  ∃ a' s', foldM f (seq start len) a s = (Ok a', s') ∧ I len a' s'.
Proof.
  induction len as [|len IH]; intros I start Hstep a s H0; simpl.
  - by exists a, s.
  - destruct (Hstep 0 a s) as (a1 & s1 & Hrun & H1); [lia | done |].
    rewrite Nat.add_0_r in Hrun. rewrite (bind_ok _ _ _ _ _ Hrun).
    apply (IH (fun k => I (S k)) (S start)); [|done].
    intros k a' s' Hk HI. destruct (Hstep (S k) a' s') as (a2 & s2 & Hrun2 & H2);
      [lia | done |].
    exists a2, s2. split; [|done]. by rewrite <- Hrun2, Nat.add_succ_r.
Qed.

Lemma floor_of_five_times v :
  (0 <= v)%Q → (v < 1)%Q →
  ∃ z, (Math_floor (v * 5) + 1 == inject_Z z)%Q ∧ (1 ≤ z ≤ 5)%Z.
Proof.
  intros H0 H1. exists (Qfloor (v * 5) + 1)%Z. split.
  - unfold Math_floor. rewrite inject_Z_plus. reflexivity.
  - split.
    + assert (0 <= Qfloor (v * 5))%Z; [|lia].
      change 0%Z with (Qfloor 0). apply Qfloor_resp_le. lra.
    + assert (Qfloor (v * 5) < 5)%Z; [|lia].
      rewrite Zlt_Qlt. eapply Qle_lt_trans; [apply Qfloor_le|].
      change (inject_Z 5) with 5%Q. lra.
Qed.

Lemma randomRating_run p s :
  (∀ k, (0 <= tape s k)%Q ∧ (tape s k < 1)%Q) →
  ∃ r s', NetworkGenerator.randomRating p s = (Ok r, s') ∧
    heap s' = heap s ∧ console s' = console s ∧ tape s' = tape s ∧
    drawn s + 1 ≤ drawn s' ≤ drawn s + 2 ∧
    (r = None ∨ ∃ q z, r = Some q ∧ (q == inject_Z z)%Q ∧ (1 ≤ z ≤ 5)%Z) ∧
    ((p <= 0)%Q → r = None).
Proof.
  intros Htape. unfold NetworkGenerator.randomRating, Math_random, mbind, M_bind.
  destruct (Qlt_bool (tape s (drawn s)) p) eqn:E; simpl.
  - eexists _, _. split; [done|]. repeat split; simpl; try lia.
    + right. destruct (Htape (S (drawn s))) as [H0 H1].
      destruct (floor_of_five_times _ H0 H1) as (z & Hz & Hrange). eauto.
    + intros Hp. apply Qlt_bool_true in E. destruct (Htape (drawn s)). lra.
  - eexists _, _. split; [done|]. repeat split; simpl; try lia. by left.
Qed.

(** X28.  With [Math.random] giving numbers in [0, 1), [randomRatings]
    returns [nNodes] ratings, each [null] or one of the integers 1..5; it
    draws between [nNodes] and [2 * nNodes] random numbers and changes
    nothing else; and with [ratedProbability <= 0] every rating is [null]. *)
Theorem randomRatings_generates_ratings n p s :
  (∀ k, (0 <= tape s k)%Q ∧ (tape s k < 1)%Q) →
  ∃ rs s', NetworkGenerator.randomRatings n p s = (Ok rs, s') ∧
    length rs = n ∧ heap s' = heap s ∧ console s' = console s ∧
    drawn s + n ≤ drawn s' ≤ drawn s + 2 * n ∧
    Forall (fun r : Rating =>
              r = None ∨ ∃ q z, r = Some q ∧ (q == inject_Z z)%Q ∧ (1 ≤ z ≤ 5)%Z) rs ∧
    ((p <= 0)%Q → Forall (fun r : Rating => r = None) rs).
Proof.
  intros Htape. unfold NetworkGenerator.randomRatings.
  destruct (foldM_seq_ind
              (fun ratings (_ : nat) =>
                 r ← NetworkGenerator.randomRating p; mret (ratings ++ [r])) n
              (fun k rs s' =>
                 length rs = k ∧ heap s' = heap s ∧ console s' = console s ∧
                 tape s' = tape s ∧ drawn s + k ≤ drawn s' ≤ drawn s + 2 * k ∧
                 Forall (fun r : Rating =>
                           r = None ∨
                           ∃ q z, r = Some q ∧ (q == inject_Z z)%Q ∧ (1 ≤ z ≤ 5)%Z) rs ∧
                 ((p <= 0)%Q → Forall (fun r : Rating => r = None) rs)) 0)
    with (a := @nil Rating) (s := s) as (rs & s' & Hrun & HI).
  - intros k rs s1 Hk (Hlen & Hheap & Hcons & Htape1 & Hdrawn & Hvalid & Hnone).
    destruct (randomRating_run p s1) as (r & s2 & Hr & Hh & Hc & Ht & Hd & Hv & Hn).
    { intros j. rewrite Htape1. apply Htape. }
    exists (rs ++ [r]), s2. split; [by rewrite (bind_ok _ _ _ _ _ Hr)|].
    repeat split; try congruence; try lia.
    + rewrite length_app. simpl. lia.
    + apply Forall_app. split; [done | by constructor].
    + intros Hp. apply Forall_app. split; [by apply Hnone|]. constructor; [by apply Hn | done].
  - repeat split; (lia || constructor).
  - destruct HI as (Hlen & Hheap & Hcons & _ & Hdrawn & Hvalid & Hnone).
    exists rs, s'. repeat split; try done; lia.
Qed.

Lemma randomRatings_generates_ratings_witness :
  ∃ rs s', NetworkGenerator.randomRatings 3 (1 # 2) threeUsersStore = (Ok rs, s') ∧
    length rs = 3 ∧ heap s' = heap threeUsersStore ∧ console s' = console threeUsersStore ∧
    drawn threeUsersStore + 3 ≤ drawn s' ≤ drawn threeUsersStore + 2 * 3 ∧
    Forall (fun r : Rating =>
              r = None ∨ ∃ q z, r = Some q ∧ (q == inject_Z z)%Q ∧ (1 ≤ z ≤ 5)%Z) rs ∧
    ((1 # 2 <= 0)%Q → Forall (fun r : Rating => r = None) rs).
Proof.
  apply (randomRatings_generates_ratings 3 (1 # 2) threeUsersStore).
  intros [|[|[|k]]]; simpl; split; reflexivity || discriminate.
Defined.

Lemma randomEdge_run n upper lower i j m s :
  i < j → j < n →
  similarity_inv n m →
  ∃ m', NetworkGenerator.randomEdge upper lower i m j s
          = (Ok m', mkState (heap s) (console s) (tape s) (S (drawn s))) ∧
    similarity_inv n m'.
Proof.
  intros Hij Hj Hinv.
  set (val := add64 (mul64 (tape s (drawn s)) (sub64 upper lower)) lower).
  exists (ProfileLearner.setEntry (ProfileLearner.setEntry m i j val) j i val).
  split; [done|].
  apply (fillPair_inv (mkLearner (fun _ _ => val)) [] n m i j Hinv); lia.
Qed.

(** X29.  [randomNetwork] returns an [nNodes] x [nNodes] matrix that is
    symmetric with zeros on the diagonal; apart from drawing random numbers
    it changes nothing.  (The entries off the diagonal need not lie below
    [upper]: the rounded [random * (upper - lower) + lower] can be [upper]
    itself, see [randomNetwork_reaches_upper].) *)
Theorem randomNetwork_generates_network n upper lower s :
  ∃ net s', NetworkGenerator.randomNetwork n upper lower s = (Ok net, s') ∧
    heap s' = heap s ∧ console s' = console s ∧
    similarity_inv n net.
Proof.
  unfold NetworkGenerator.randomNetwork.
  set (Inv := fun (m : list (list Q)) (s' : state) =>
                heap s' = heap s ∧ console s' = console s ∧ similarity_inv n m).
  destruct (foldM_seq_ind
              (fun network i =>
                 foldM (NetworkGenerator.randomEdge upper lower i)
                       (seq (i + 1) (n - (i + 1))) network) n
              (fun _ => Inv) 0)
    with (a := Matrix.twoDimArray n n 0%Q) (s := s) as (net & s' & Hrun & HI).
  - intros i m s1 Hi HIi. simpl.
    destruct (foldM_seq_ind (NetworkGenerator.randomEdge upper lower i) (n - (i + 1))
                (fun _ => Inv) (i + 1))
      with (a := m) (s := s1) as (m' & s1' & Hrun & HI').
    + intros k m1 s2 Hk (Hh & Hc & Hinv).
      destruct (randomEdge_run n upper lower i (i + 1 + k) m1 s2)
        as (m2 & Hrun & Hinv2); try done; try lia.
      exists m2. eexists. split; [exact Hrun|]. by split.
    + done.
    + by exists m', s1'.
  - split; [done|]. split; [done|]. apply zeros_inv.
  - destruct HI as (Hh & Hc & Hinv). by exists net, s'.
Qed.

(** With the random number [1 - 2^-53], [lower = 1] and [upper = 3] the
    edge gets the value [upper]. *)
Lemma randomNetwork_reaches_upper :
  ∃ net s', NetworkGenerator.randomNetwork 2 3 1 tenRatedStore = (Ok net, s') ∧
            entry net 0 1 = Some 3%Q.
Proof. eexists _, _. split; vm_compute; reflexivity. Qed.
